(** * Folder synchronizer: a shallow embedding of [synchronizer.py]

    The program mirrors a source directory tree into a replica tree:
    [calculate_hash] fingerprints a file with MD5, [log_message] writes a
    line to the console and to the log file, [synchronize_folders] runs one
    pass (a top-down walk of source that creates folders and copies files,
    then a bottom-up walk of replica that removes what source lacks), and
    [main] checks that source exists and loops forever.

    The file system is one tree of named nodes.  Paths are lists of
    components from the root of that tree; [source] and [replica] are two
    such paths, so the model does not assume that they are unrelated: the
    theorems that need it say so.  Library calls ([os.path.exists],
    [os.makedirs], [os.walk], [shutil.copy2], [os.remove], [shutil.rmtree],
    [hashlib.md5]) are modelled after their documented behaviour on a tree
    without symbolic links and without permission bits. *)

From Stdlib Require Import List String Ascii ZArith Lia Bool Arith.
From Stdlib.Strings Require Import Byte.
Import ListNotations.

Local Open Scope string_scope.
Local Open Scope list_scope.

Set Implicit Arguments.

(* ===================================================================== *)
(** ** MD5 (RFC 1321), the digest behind [hashlib.md5] *)
(* ===================================================================== *)

Module MD5.

Local Open Scope Z_scope.

Definition word := Z.

Definition wrap (x : Z) : word := x mod 2 ^ 32.

Definition add32 (x y : word) : word := wrap (x + y).

Definition not32 (x : word) : word := Z.lxor x (2 ^ 32 - 1).

Definition rotl32 (x : word) (c : Z) : word :=
  Z.lor (wrap (Z.shiftl x c)) (Z.shiftr x (32 - c)).

(** Per-round shift amounts. *)
Definition shifts : list Z :=
  [7; 12; 17; 22; 7; 12; 17; 22; 7; 12; 17; 22; 7; 12; 17; 22;
   5; 9; 14; 20; 5; 9; 14; 20; 5; 9; 14; 20; 5; 9; 14; 20;
   4; 11; 16; 23; 4; 11; 16; 23; 4; 11; 16; 23; 4; 11; 16; 23;
   6; 10; 15; 21; 6; 10; 15; 21; 6; 10; 15; 21; 6; 10; 15; 21].

(** [floor (2^32 * abs (sin (i + 1)))] for [i] in [0..63]. *)
Definition sines : list Z :=
  [3614090360; 3905402710; 606105819; 3250441966;
   4118548399; 1200080426; 2821735955; 4249261313;
   1770035416; 2336552879; 4294925233; 2304563134;
   1804603682; 4254626195; 2792965006; 1236535329;
   4129170786; 3225465664; 643717713; 3921069994;
   3593408605; 38016083; 3634488961; 3889429448;
   568446438; 3275163606; 4107603335; 1163531501;
   2850285829; 4243563512; 1735328473; 2368359562;
   4294588738; 2272392833; 1839030562; 4259657740;
   2763975236; 1272893353; 4139469664; 3200236656;
   681279174; 3936430074; 3572445317; 76029189;
   3654602809; 3873151461; 530742520; 3299628645;
   4096336452; 1126891415; 2878612391; 4237533241;
   1700485571; 2399980690; 4293915773; 2240044497;
   1873313359; 4264355552; 2734768916; 1309151649;
   4149444226; 3174756917; 718787259; 3951481745].

Record regs := Regs { rA : word; rB : word; rC : word; rD : word }.

Definition init_regs : regs :=
  Regs 1732584193 4023233417 2562383102 271733878.

Definition byte_val (b : byte) : Z := Z.of_N (Byte.to_N b).

(** Little-endian 32-bit word from four bytes. *)
Definition word_of_bytes (bs : list byte) : word :=
  fold_right (fun b acc => byte_val b + 256 * acc) 0 (firstn 4 bs).

Fixpoint words_of_block (n : nat) (bs : list byte) : list word :=
  match n with
  | O => []
  | S k => word_of_bytes bs :: words_of_block k (skipn 4 bs)
  end.

Definition round_fun (i : Z) (r : regs) : word * Z :=
  let b := rB r in let c := rC r in let d := rD r in
  if i <? 16 then (Z.lor (Z.land b c) (Z.land (not32 b) d), i)
  else if i <? 32 then (Z.lor (Z.land d b) (Z.land (not32 d) c), (5 * i + 1) mod 16)
  else if i <? 48 then (Z.lxor (Z.lxor b c) d, (3 * i + 5) mod 16)
  else (Z.lxor c (Z.lor b (not32 d)), (7 * i) mod 16).

Definition step (m : list word) (r : regs) (i : nat) : regs :=
  let '(f, g) := round_fun (Z.of_nat i) r in
  let f' := add32 (add32 (add32 f (rA r)) (nth i sines 0)) (nth (Z.to_nat g) m 0) in
  Regs (rD r) (add32 (rB r) (rotl32 f' (nth i shifts 0))) (rB r) (rC r).

Definition compress (h : regs) (block : list byte) : regs :=
  let m := words_of_block 16 block in
  let r := fold_left (step m) (seq 0 64) h in
  Regs (add32 (rA h) (rA r)) (add32 (rB h) (rB r))
       (add32 (rC h) (rC r)) (add32 (rD h) (rD r)).

Definition byte_of_Z (z : Z) : byte :=
  match Byte.of_N (Z.to_N (z mod 256)) with
  | Some b => b
  | None => x00
  end.

Fixpoint le_bytes (n : nat) (z : Z) : list byte :=
  match n with
  | O => []
  | S k => byte_of_Z z :: le_bytes k (z / 256)
  end.

(** The message followed by [0x80], zeros up to 56 modulo 64, and the bit
    length on eight little-endian bytes. *)
Definition pad (msg : list byte) : list byte :=
  let len := Z.of_nat (List.length msg) in
  let zeros := Z.to_nat ((55 - len) mod 64) in
  msg ++ x80 :: repeat x00 zeros ++ le_bytes 8 ((8 * len) mod 2 ^ 64).

Fixpoint blocks (n : nat) (h : regs) (bs : list byte) : regs :=
  match n with
  | O => h
  | S k => blocks k (compress h (firstn 64 bs)) (skipn 64 bs)
  end.

Definition digest (msg : list byte) : list byte :=
  let p := pad msg in
  let r := blocks (List.length p / 64) init_regs p in
  le_bytes 4 (rA r) ++ le_bytes 4 (rB r) ++ le_bytes 4 (rC r) ++ le_bytes 4 (rD r).

Definition hex_digit (z : Z) : ascii :=
  nth (Z.to_nat z)
      ["0"; "1"; "2"; "3"; "4"; "5"; "6"; "7";
       "8"; "9"; "a"; "b"; "c"; "d"; "e"; "f"]%char "0"%char.

Fixpoint hex (bs : list byte) : string :=
  match bs with
  | [] => EmptyString
  | b :: bs' =>
      String (hex_digit (byte_val b / 16))
             (String (hex_digit (byte_val b mod 16)) (hex bs'))
  end.

Definition hexdigest (msg : list byte) : string := hex (digest msg).

End MD5.

(* ===================================================================== *)
(** ** The file system *)
(* ===================================================================== *)

Definition name := string.

(** A path is the list of its components, outermost first; [[]] is the
    root of the file system.  [os.path.join a b] on a relative [b] is
    [a ++ b]. *)
Definition path := list name.

(** A regular file carries its bytes and its modification time (what
    [shutil.copy2] preserves); a directory lists its entries in the order
    [os.scandir] reports them. *)
Local Unset Elimination Schemes.

Inductive node : Type :=
| File (data : list byte) (mtime : Z)
| Dir (entries : list (name * node)).

Local Set Elimination Schemes.

Definition is_dir (n : node) : bool :=
  match n with Dir _ => true | File _ _ => false end.

Definition is_file (n : node) : bool :=
  match n with File _ _ => true | Dir _ => false end.

Definition is_dot (c : name) : bool := String.eqb c ".".

Fixpoint find_entry (c : name) (es : list (name * node)) : option node :=
  match es with
  | [] => None
  | (k, v) :: es' => if String.eqb c k then Some v else find_entry c es'
  end.

(** Path resolution by the operating system: a component [.] stays in the
    current directory, any component below a regular file fails. *)
Fixpoint resolve (n : node) (p : path) : option node :=
  match p with
  | [] => Some n
  | c :: p' =>
      match n with
      | File _ _ => None
      | Dir es =>
          if is_dot c then resolve n p'
          else match find_entry c es with
               | Some m => resolve m p'
               | None => None
               end
      end
  end.

Fixpoint del_entry (c : name) (es : list (name * node)) : list (name * node) :=
  match es with
  | [] => []
  | (k, v) :: es' =>
      if String.eqb c k then del_entry c es' else (k, v) :: del_entry c es'
  end.

(** Replaces the entry named [c] in place, or appends it. *)
Fixpoint add_entry (c : name) (v : node) (es : list (name * node))
  : list (name * node) :=
  match es with
  | [] => [(c, v)]
  | (k, v0) :: es' =>
      if String.eqb c k then (k, v) :: es' else (k, v0) :: add_entry c v es'
  end.

Definition set_entry (c : name) (v : option node) (es : list (name * node))
  : list (name * node) :=
  match v with
  | Some m => add_entry c m es
  | None => del_entry c es
  end.

(** [put n p v] binds the last component of [p] to [v] (or unlinks it when
    [v] is [None]) in the directory the rest of [p] resolves to.  It fails
    when that directory does not resolve, and when [p] names no entry (the
    root itself, or a path that ends in [.]). *)
Fixpoint put (n : node) (p : path) (v : option node) : option node :=
  match p with
  | [] => None
  | c :: p' =>
      match n with
      | File _ _ => None
      | Dir es =>
          if is_dot c then put n p' v
          else match p' with
               | [] => Some (Dir (set_entry c v es))
               | _ :: _ =>
                   match find_entry c es with
                   | Some m =>
                       match put m p' v with
                       | Some m' => Some (Dir (add_entry c m' es))
                       | None => None
                       end
                   | None => None
                   end
               end
      end
  end.

(** The exceptions that the modelled calls raise: classes of [OSError],
    and the [ValueError] of [time.sleep]. *)
Inductive exn : Type :=
| FileNotFoundError
| FileExistsError
| NotADirectoryError
| IsADirectoryError
| SameFileError
| ValueError.

(** Which error a path that cannot be used raises: [ENOTDIR] when it runs
    through a regular file, [ENOENT] otherwise. *)
Fixpoint path_error (n : node) (p : path) : exn :=
  match p with
  | [] => FileNotFoundError
  | c :: p' =>
      match n with
      | File _ _ => NotADirectoryError
      | Dir es =>
          if is_dot c then path_error n p'
          else match find_entry c es with
               | Some m => path_error m p'
               | None => FileNotFoundError
               end
      end
  end.

(** What [os.scandir] yields, split as [os.walk] splits it: the names of
    the sub-directories and the names of the other entries. *)
Definition scandir (n : node) (top : path) : option (list name * list name) :=
  match resolve n top with
  | Some (Dir es) =>
      Some (map fst (filter (fun e => is_dir (snd e)) es),
            map fst (filter (fun e => is_file (snd e)) es))
  | _ => None
  end.

Fixpoint path_eqb (p q : path) : bool :=
  match p, q with
  | [], [] => true
  | c :: p', d :: q' => String.eqb c d && path_eqb p' q'
  | _, _ => false
  end.

(** Lexical removal of [.] components. *)
Definition canon (p : path) : path := filter (fun c => negb (is_dot c)) p.

Definition basename (p : path) : name := last p "".

(* ===================================================================== *)
(** ** The world and the monad of the program *)
(* ===================================================================== *)

(** The text of a line, one constructor per f-string of the program. *)
Inductive message : Type :=
| ErrorSourceMissing (source : path)
| CreatedReplica (replica : path)
| CreatedFolder (destination_path : path)
| CopiedFile (source_file replica_file : path)
| RemovedFile (replica_file : path)
| RemovedFolder (replica_folder : path)
| Starting
| SourceFolder (source : path)
| ReplicaFolder (replica : path)
| Interval (interval : Z)
| LogFile (log_path : path)
| Completed.

(** A line is printed as it is, or prefixed by the time of the call. *)
Inductive line : Type :=
| Plain (m : message)
| Stamped (time : Z) (m : message).

(** The state the program runs in.  The log is kept beside the tree, as the
    journal of every line appended and the path of the file it went to:
    [log_path] is taken to name a writable file outside both trees.
    [passes] is a ghost counter of the passes [main] has started. *)
Record world : Type := World {
  fs : node;
  clock : Z;
  console : list line;
  logged : list (path * line);
  passes : nat
}.

Definition set_fs (n : node) (w : world) : world :=
  World n (clock w) (console w) (logged w) (passes w).

(** Outcome of a computation: a value, a raised exception, or a model that
    ran out of fuel before the program finished. *)
Inductive res (A : Type) : Type :=
| Val (a : A)
| Exn (e : exn)
| OutOfFuel.

Arguments Val {A} a.
Arguments Exn {A} e.
Arguments OutOfFuel {A}.

Definition M (A : Type) : Type := world -> res A * world.

Definition ret {A} (a : A) : M A := fun w => (Val a, w).

Definition bind {A B} (m : M A) (f : A -> M B) : M B :=
  fun w =>
    match m w with
    | (Val a, w') => f a w'
    | (Exn e, w') => (Exn e, w')
    | (OutOfFuel, w') => (OutOfFuel, w')
    end.

Definition raise {A} (e : exn) : M A := fun w => (Exn e, w).

Definition out_of_fuel {A} : M A := fun w => (OutOfFuel, w).

Declare Scope prog_scope.
Delimit Scope prog_scope with prog.
Notation "x <- m ;; k" := (bind m (fun x => k))
  (at level 61, m at next level, right associativity) : prog_scope.
Notation "m ;; k" := (bind m (fun _ => k))
  (at level 61, right associativity) : prog_scope.
Local Open Scope prog_scope.

(** [for x in xs: body x]. *)
Fixpoint for_each {A} (xs : list A) (body : A -> M unit) : M unit :=
  match xs with
  | [] => ret tt
  | x :: xs' => body x ;; for_each xs' body
  end.

(** [if c: m]. *)
Definition when (c : bool) (m : M unit) : M unit := if c then m else ret tt.

(* ===================================================================== *)
(** ** The library calls *)
(* ===================================================================== *)

Module os.

(** [os.path.exists]. *)
Definition path_exists (p : path) : M bool :=
  fun w =>
    (Val (match resolve (fs w) p with Some _ => true | None => false end), w).

(** [os.path.isdir]. *)
Definition path_isdir (p : path) : M bool :=
  fun w =>
    (Val (match resolve (fs w) p with Some (Dir _) => true | _ => false end), w).

(** [os.mkdir]: the path must be free and its parent a directory. *)
Definition mkdir (p : path) : M unit :=
  fun w =>
    match resolve (fs w) p with
    | Some _ => (Exn FileExistsError, w)
    | None =>
        match put (fs w) p (Some (Dir [])) with
        | Some n => (Val tt, set_fs n w)
        | None => (Exn (path_error (fs w) p), w)
        end
    end.

(** [try: m except FileExistsError: pass]. *)
Definition ignore_exists (m : M unit) : M unit :=
  fun w =>
    match m w with
    | (Exn FileExistsError, w') => (Val tt, w')
    | r => r
    end.

(** [os.makedirs name], on the reversed path so that [head] is a
    sub-term: with [head, tail = split name], the missing [head] is made
    first, and nothing more is done when [tail] is [.]. *)
Fixpoint makedirs_rev (rname : list name) : M unit :=
  match rname with
  | [] => mkdir []
  | tail :: rhead =>
      e <- path_exists (rev rhead) ;;
      if negb e then
        ignore_exists (makedirs_rev rhead) ;;
        if is_dot tail then ret tt else mkdir (rev rname)
      else mkdir (rev rname)
  end.

Definition makedirs (name : path) : M unit := makedirs_rev (rev name).

(** [os.remove]: unlinks a regular file. *)
Definition remove (p : path) : M unit :=
  fun w =>
    match resolve (fs w) p with
    | Some (File _ _) =>
        match put (fs w) p None with
        | Some n => (Val tt, set_fs n w)
        | None => (Exn (path_error (fs w) p), w)
        end
    | Some (Dir _) => (Exn IsADirectoryError, w)
    | None => (Exn (path_error (fs w) p), w)
    end.

(** [os.walk top topdown]: the directory is listed when it is entered,
    errors of the listing are ignored ([onerror] is [None]), and the
    triple [(top, dirs, nondirs)] is handed to the body of the [for] loop
    before the sub-directories are walked ([topdown]) or after them.  The
    listing of a sub-directory is read from the file system as it is when
    the walk reaches it. *)
Fixpoint walk (fuel : nat) (topdown : bool) (top : path)
  (body : path -> list name -> list name -> M unit) : M unit :=
  match fuel with
  | O => out_of_fuel
  | S k =>
      fun w =>
        match scandir (fs w) top with
        | None => (Val tt, w)
        | Some (dirs, nondirs) =>
            if topdown then
              (body top dirs nondirs ;;
               for_each dirs (fun dirname => walk k topdown (top ++ [dirname]) body)) w
            else
              (for_each dirs (fun dirname => walk k topdown (top ++ [dirname]) body) ;;
               body top dirs nondirs) w
        end
  end.

(** [os.path.relpath p start] for normalised absolute paths: the common
    prefix is dropped, each remaining component of [start] becomes [..],
    and the empty result is [.]. *)
Fixpoint relpath_aux (p start : path) : path :=
  match p, start with
  | c :: p', d :: start' =>
      if String.eqb c d then relpath_aux p' start'
      else repeat ".." (List.length start) ++ p
  | _, _ => repeat ".." (List.length start) ++ p
  end.

Definition relpath (p start : path) : path :=
  match relpath_aux p start with
  | [] => ["."]
  | r => r
  end.

End os.

Module shutil.

(** [shutil._samefile]: both paths exist and name the same node. *)
Definition samefile (n : node) (src dst : path) : bool :=
  match resolve n src, resolve n dst with
  | Some _, Some _ => path_eqb (canon src) (canon dst)
  | _, _ => false
  end.

(** [shutil.copyfile]: reads [src] and writes its bytes to [dst], which is
    created or truncated; the new file is stamped with the current time. *)
Definition copyfile (src dst : path) : M unit :=
  fun w =>
    if samefile (fs w) src dst then (Exn SameFileError, w)
    else
      match resolve (fs w) src with
      | Some (File data _) =>
          match resolve (fs w) dst with
          | Some (Dir _) => (Exn IsADirectoryError, w)
          | _ =>
              match put (fs w) dst (Some (File data (clock w))) with
              | Some n => (Val tt, set_fs n w)
              | None => (Exn (path_error (fs w) dst), w)
              end
          end
      | Some (Dir _) => (Exn IsADirectoryError, w)
      | None => (Exn (path_error (fs w) src), w)
      end.

(** [shutil.copystat]: the modification time of [src] is given to [dst]. *)
Definition copystat (src dst : path) : M unit :=
  fun w =>
    match resolve (fs w) src with
    | None => (Exn (path_error (fs w) src), w)
    | Some (Dir _) => (Val tt, w)
    | Some (File _ mtime) =>
        match resolve (fs w) dst with
        | Some (File data _) =>
            match put (fs w) dst (Some (File data mtime)) with
            | Some n => (Val tt, set_fs n w)
            | None => (Exn (path_error (fs w) dst), w)
            end
        | Some (Dir _) => (Val tt, w)
        | None => (Exn (path_error (fs w) dst), w)
        end
    end.

(** [shutil.copy2]: a directory as destination receives the file under
    its own name. *)
Definition copy2 (src dst : path) : M unit :=
  d <- os.path_isdir dst ;;
  let dst := if d then dst ++ [basename src] else dst in
  copyfile src dst ;;
  copystat src dst.

(** [shutil.rmtree]: removes a directory with everything below it. *)
Definition rmtree (p : path) : M unit :=
  fun w =>
    match resolve (fs w) p with
    | Some (Dir _) =>
        match put (fs w) p None with
        | Some n => (Val tt, set_fs n w)
        | None => (Exn (path_error (fs w) p), w)
        end
    | Some (File _ _) => (Exn NotADirectoryError, w)
    | None => (Exn (path_error (fs w) p), w)
    end.

End shutil.

Module hashlib.

(** A hash object holds what it was fed: a sequence of [update] calls is
    the digest of the concatenation of their arguments. *)
Record md5 : Type := Md5 { fed : list byte }.

Definition new : md5 := Md5 [].

Definition update (h : md5) (chunk : list byte) : md5 := Md5 (fed h ++ chunk).

Definition hexdigest (h : md5) : string := MD5.hexdigest (fed h).

End hashlib.

(* ===================================================================== *)
(** ** The program *)
(* ===================================================================== *)

(** [open(file_path, "rb")]: the bytes of a regular file. *)
Definition open_rb (file_path : path) : M (list byte) :=
  fun w =>
    match resolve (fs w) file_path with
    | Some (File data _) => (Val data, w)
    | Some (Dir _) => (Exn IsADirectoryError, w)
    | None => (Exn (path_error (fs w) file_path), w)
    end.

(** [for chunk in iter(lambda: f.read(4096), b""): hash_md5.update(chunk)],
    on the bytes not yet read. *)
Fixpoint read_chunks (fuel : nat) (hash_md5 : hashlib.md5) (rest : list byte)
  : hashlib.md5 :=
  match fuel with
  | O => hash_md5
  | S k =>
      match firstn 4096 rest with
      | [] => hash_md5
      | chunk => read_chunks k (hashlib.update hash_md5 chunk) (skipn 4096 rest)
      end
  end.

Definition calculate_hash (file_path : path) : M string :=
  f <- open_rb file_path ;;
  ret (hashlib.hexdigest (read_chunks (S (List.length f)) hashlib.new f)).

(** [log_message]: the stamped line goes to the console and is appended to
    the log file. *)
Definition log_message (log_path : path) (m : message) : M unit :=
  fun w =>
    let full_message := Stamped (clock w) m in
    (Val tt,
     World (fs w) (clock w) (console w ++ [full_message])
           (logged w ++ [(log_path, full_message)]) (passes w)).

(** Lines 33 to 38: the folder of the replica that mirrors [root]. *)
Definition mirror_folder (source replica log_path root : path) : M path :=
  let relative_path := os.relpath root source in
  let destination_path := replica ++ relative_path in
  e <- os.path_exists destination_path ;;
  when (negb e)
    (os.makedirs destination_path ;;
     log_message log_path (CreatedFolder destination_path)) ;;
  ret destination_path.

(** Lines 41 to 47: one file of the forward pass. *)
Definition mirror_file (log_path root destination_path : path) (file : name)
  : M unit :=
  let source_file := root ++ [file] in
  let replica_file := destination_path ++ [file] in
  e <- os.path_exists replica_file ;;
  differs <- (if negb e then ret true
              else h1 <- calculate_hash source_file ;;
                   h2 <- calculate_hash replica_file ;;
                   ret (negb (String.eqb h1 h2))) ;;
  when differs
    (shutil.copy2 source_file replica_file ;;
     log_message log_path (CopiedFile source_file replica_file)).

(** Body of the loop over [os.walk(source)]. *)
Definition forward_body (source replica log_path : path)
  (root : path) (dirs files : list name) : M unit :=
  destination_path <- mirror_folder source replica log_path root ;;
  for_each files (mirror_file log_path root destination_path).

(** Lines 55 to 60: one file of the reverse pass. *)
Definition prune_file (log_path root source_path : path) (file : name)
  : M unit :=
  let replica_file := root ++ [file] in
  let source_file := source_path ++ [file] in
  e <- os.path_exists source_file ;;
  when (negb e)
    (os.remove replica_file ;;
     log_message log_path (RemovedFile replica_file)).

(** Lines 63 to 68: one sub-directory of the reverse pass. *)
Definition prune_folder (log_path root source_path : path) (folder : name)
  : M unit :=
  let replica_folder := root ++ [folder] in
  let source_folder := source_path ++ [folder] in
  e <- os.path_exists source_folder ;;
  when (negb e)
    (shutil.rmtree replica_folder ;;
     log_message log_path (RemovedFolder replica_folder)).

(** Body of the loop over [os.walk(replica, topdown=False)]. *)
Definition reverse_body (source replica log_path : path)
  (root : path) (dirs files : list name) : M unit :=
  let relative_path := os.relpath root replica in
  let source_path := source ++ relative_path in
  for_each files (prune_file log_path root source_path) ;;
  for_each dirs (prune_folder log_path root source_path).

(** Lines 27 to 29. *)
Definition ensure_replica (replica log_path : path) : M unit :=
  e <- os.path_exists replica ;;
  when (negb e)
    (os.makedirs replica ;;
     log_message log_path (CreatedReplica replica)).

(** Lines 32 to 47. *)
Definition forward_pass (fuel : nat) (source replica log_path : path) : M unit :=
  os.walk fuel true source (forward_body source replica log_path).

(** Lines 50 to 68. *)
Definition reverse_pass (fuel : nat) (source replica log_path : path) : M unit :=
  os.walk fuel false replica (reverse_body source replica log_path).

Definition synchronize_folders (fuel : nat) (source replica log_path : path)
  : M unit :=
  ensure_replica replica log_path ;;
  forward_pass fuel source replica log_path ;;
  reverse_pass fuel source replica log_path.

(** The parsed command line. *)
Record args : Type := Args {
  arg_source : path;
  arg_replica : path;
  arg_interval : Z;
  arg_log : path
}.

Definition print (m : message) : M unit :=
  fun w =>
    (Val tt, World (fs w) (clock w) (console w ++ [Plain m]) (logged w) (passes w)).

(** [time.sleep]: a negative length is refused. *)
Definition sleep (seconds : Z) : M unit :=
  fun w =>
    if (seconds <? 0)%Z then (Exn ValueError, w)
    else
      (Val tt,
       World (fs w) (clock w + seconds) (console w) (logged w) (passes w)).

(** Ghost: counts a pass as it starts. *)
Definition count_pass : M unit :=
  fun w =>
    (Val tt, World (fs w) (clock w) (console w) (logged w) (S (passes w))).

(** [while True], cut after [ticks] iterations: a run that is still in the
    loop then ends in [OutOfFuel]. *)
Fixpoint main_loop (ticks fuel : nat) (source replica : path) (interval : Z)
  (log_path : path) : M unit :=
  match ticks with
  | O => out_of_fuel
  | S k =>
      count_pass ;;
      synchronize_folders fuel source replica log_path ;;
      log_message log_path Completed ;;
      sleep interval ;;
      main_loop k fuel source replica interval log_path
  end.

Definition main (ticks fuel : nat) (a : args) : M unit :=
  let source := arg_source a in
  let replica := arg_replica a in
  let interval := arg_interval a in
  let log_path := arg_log a in
  e <- os.path_exists source ;;
  if negb e then print (ErrorSourceMissing source)
  else
    log_message log_path Starting ;;
    log_message log_path (SourceFolder source) ;;
    log_message log_path (ReplicaFolder replica) ;;
    log_message log_path (Interval interval) ;;
    log_message log_path (LogFile log_path) ;;
    main_loop ticks fuel source replica interval log_path.

(* ===================================================================== *)
(** ** Vocabulary of the statements *)
(* ===================================================================== *)

(** A component that names an entry: not empty, not [.], not [..]. *)
Definition plain_name (c : name) : bool :=
  negb (String.eqb c "") && negb (is_dot c) && negb (String.eqb c "..").

Definition plain_path (p : path) : bool := forallb plain_name p.

Fixpoint distinct (l : list name) : bool :=
  match l with
  | [] => true
  | x :: l' => negb (existsb (String.eqb x) l') && distinct l'
  end.

(** A well-formed tree: in every directory the names are plain and
    pairwise different. *)
Fixpoint wf_node (n : node) : bool :=
  match n with
  | File _ _ => true
  | Dir es =>
      forallb plain_name (map fst es) && distinct (map fst es) &&
      (fix all (l : list (name * node)) : bool :=
         match l with
         | [] => true
         | (_, c) :: l' => wf_node c && all l'
         end) es
  end.

Fixpoint is_prefix (p q : path) : bool :=
  match p, q with
  | [], _ => true
  | c :: p', d :: q' => String.eqb c d && is_prefix p' q'
  | _ :: _, [] => false
  end.

(** Two paths neither of which lies in the tree below the other. *)
Definition separate (p q : path) : bool :=
  negb (is_prefix p q) && negb (is_prefix q p).

(** The fuel a walk from a node needs: one unit per level of
    directories below it. *)
Fixpoint need (n : node) : nat :=
  match n with
  | File _ _ => 1
  | Dir es =>
      S ((fix most (l : list (name * node)) : nat :=
            match l with
            | [] => 0
            | (_, c) :: l' => Nat.max (if is_dir c then need c else 0) (most l')
            end) es)
  end.

Definition need_at (n : node) (top : path) : nat :=
  match resolve n top with
  | Some r => need r
  | None => 1
  end.

(** The lines a list of messages becomes when it is logged at the time
    of [w]. *)
Definition emit (log_path : path) (ms : list message) (w : world) : world :=
  World (fs w) (clock w)
        (console w ++ map (Stamped (clock w)) ms)
        (logged w ++ map (fun m => (log_path, Stamped (clock w) m)) ms)
        (passes w).

(** The tree with the node at [p] replaced by [v]. *)
Definition graft (n : node) (p : path) (v : node) : node :=
  match p with
  | [] => v
  | _ :: _ =>
      match put n p (Some v) with
      | Some n' => n'
      | None => n
      end
  end.

Definition exists_at (n : node) (p : path) : bool :=
  match resolve n p with Some _ => true | None => false end.

Definition file_at (n : node) (p : path) : bool :=
  match resolve n p with Some (File _ _) => true | _ => false end.

Definition dir_at (n : node) (p : path) : bool :=
  match resolve n p with Some (Dir _) => true | _ => false end.

(** The tree at [source] is [s0]. *)
Definition source_is (source : path) (s0 : option node) (w : world) : Prop :=
  resolve (fs w) source = s0.

(* ===================================================================== *)
(** ** The reverse pass on a tree *)
(* ===================================================================== *)

(** What the reverse pass leaves of the tree [r] that the replica holds
    at the relative path [rel], when [keep q] tells whether the relative
    path [q] exists in source: the entries without a counterpart go, at
    every level. *)
Fixpoint prune (keep : path -> bool) (rel : path) (r : node) : node :=
  match r with
  | File data mtime => File data mtime
  | Dir es =>
      Dir ((fix go (l : list (name * node)) : list (name * node) :=
              match l with
              | [] => []
              | (k, c) :: l' =>
                  if keep (rel ++ [k])
                  then (k, prune keep (rel ++ [k]) c) :: go l'
                  else go l'
              end) es)
  end.

(** The removals of files among the entries [l] of the directory at
    [rel], in the order of the listing. *)
Fixpoint file_removals (keep : path -> bool) (replica rel : path)
  (l : list (name * node)) : list message :=
  match l with
  | [] => []
  | (k, c) :: l' =>
      (if is_file c && negb (keep (rel ++ [k]))
       then [RemovedFile ((replica ++ rel) ++ [k])] else [])
      ++ file_removals keep replica rel l'
  end.

(** The removals of sub-directories among the entries [l]. *)
Fixpoint folder_removals (keep : path -> bool) (replica rel : path)
  (l : list (name * node)) : list message :=
  match l with
  | [] => []
  | (k, c) :: l' =>
      (if is_dir c && negb (keep (rel ++ [k]))
       then [RemovedFolder ((replica ++ rel) ++ [k])] else [])
      ++ folder_removals keep replica rel l'
  end.

(** The messages of the reverse pass on [r], in order: the sub-directories
    are walked first, then the files of the directory are examined, then
    its sub-directories. *)
Fixpoint prune_log (keep : path -> bool) (replica rel : path) (r : node)
  : list message :=
  match r with
  | File _ _ => []
  | Dir es =>
      (fix below (l : list (name * node)) : list message :=
         match l with
         | [] => []
         | (k, c) :: l' => prune_log keep replica (rel ++ [k]) c ++ below l'
         end) es
      ++ file_removals keep replica rel es
      ++ folder_removals keep replica rel es
  end.

(** Whether the relative path [q] exists below the tree [s0] found at
    source. *)
Definition in_source (s0 : option node) (q : path) : bool :=
  match s0 with
  | Some s => exists_at s q
  | None => false
  end.

(** The world after the node at [p] became [v] and the messages [ms] were
    logged. *)
Definition rewritten (log_path p : path) (v : node) (ms : list message)
  (w : world) : world :=
  emit log_path ms (set_fs (graft (fs w) p v) w).

Definition pruned (keep : path -> bool) (rel : path) (e : name * node)
  : name * node :=
  (fst e, prune keep (rel ++ [fst e]) (snd e)).

Definition kept (keep : path -> bool) (rel : path) (e : name * node) : bool :=
  keep (rel ++ [fst e]).

(** The entries that the loop over the files leaves. *)
Definition keeps_file (keep : path -> bool) (rel : path) (e : name * node)
  : bool :=
  is_dir (snd e) || keep (rel ++ [fst e]).

(** The entries that the loop over the sub-directories leaves. *)
Definition keeps_folder (keep : path -> bool) (rel : path) (e : name * node)
  : bool :=
  is_file (snd e) || keep (rel ++ [fst e]).

Fixpoint below_log (keep : path -> bool) (replica rel : path)
  (l : list (name * node)) : list message :=
  match l with
  | [] => []
  | (k, c) :: l' =>
      prune_log keep replica (rel ++ [k]) c ++ below_log keep replica rel l'
  end.

(** The states of the reverse pass in the directory at [rel], whose
    entries are [pre ++ l]: after the walk of the sub-directories among
    [l], after the loop over the files among [l], after the loop over the
    sub-directories among [l]. *)
Definition children_done (keep : path -> bool) (replica log_path rel : path)
  (pre l : list (name * node)) (w : world) : world :=
  rewritten log_path (replica ++ rel)
    (Dir (pre ++ map (pruned keep rel) l)) (below_log keep replica rel l) w.

Definition files_done (keep : path -> bool) (replica log_path rel : path)
  (pre l : list (name * node)) (w : world) : world :=
  rewritten log_path (replica ++ rel)
    (Dir (pre ++ filter (keeps_file keep rel) l))
    (file_removals keep replica rel l) w.

Definition folders_done (keep : path -> bool) (replica log_path rel : path)
  (pre l : list (name * node)) (w : world) : world :=
  rewritten log_path (replica ++ rel)
    (Dir (pre ++ filter (keeps_folder keep rel) l))
    (folder_removals keep replica rel l) w.

(** What the bottom-up walk does from a directory of the replica that
    holds the tree [r], when the file system satisfies [J]. *)
Definition reverse_walk_spec (keep : path -> bool) (J : node -> Prop)
  (source replica log_path : path) (r : node) : Prop :=
  forall rel fuel w,
    wf_node r = true -> plain_path rel = true -> need r <= fuel ->
    resolve (fs w) (replica ++ rel) = Some r -> J (fs w) ->
    os.walk fuel false (replica ++ rel)
      (reverse_body source replica log_path) w =
    (Val tt, rewritten log_path (replica ++ rel) (prune keep rel r)
               (prune_log keep replica rel r) w)
    /\ J (graft (fs w) (replica ++ rel) (prune keep rel r)).

(* ===================================================================== *)
(** ** The forward pass: what it keeps *)
(* ===================================================================== *)

(** The messages of the forward pass. *)
Definition forward_msg (m : message) : bool :=
  match m with
  | CreatedReplica _ | CreatedFolder _ | CopiedFile _ _ => true
  | _ => false
  end.

(** [w] comes from [w0] by steps that only add to the tree and only log
    messages of the forward pass: a well-formed tree stays so, a
    directory stays a directory, a file stays a file. *)
Definition grown (log_path : path) (w0 w : world) : Prop :=
  (wf_node (fs w0) = true -> wf_node (fs w) = true) /\
  (forall q, plain_path q = true ->
             dir_at (fs w0) q = true -> dir_at (fs w) q = true) /\
  (forall q, plain_path q = true ->
             file_at (fs w0) q = true -> file_at (fs w) q = true) /\
  (exists ms, w = emit log_path ms (set_fs (fs w) w0) /\
              forallb forward_msg ms = true).

(** The file at [p] has the fingerprint of the bytes [d]. *)
Definition synced_to (d : list byte) (p : path) (w : world) : Prop :=
  exists d' m', resolve (fs w) p = Some (File d' m') /\
                MD5.hexdigest d' = MD5.hexdigest d.

(** Resolution below the tree found at source. *)
Definition resolve_in (s0 : option node) (q : path) : option node :=
  match s0 with
  | Some s => resolve s q
  | None => None
  end.

(** The path of the replica that the forward pass uses for the directory
    of source at the relative path [rel]. *)
Definition dest (source replica rel : path) : path :=
  replica ++ os.relpath (source ++ rel) source.

(** A component of a path that the program builds: a name or [.]. *)
Definition name_ok (c : name) : bool := plain_name c || is_dot c.

(** The entries of a well-formed directory. *)
Definition wf_entries (es : list (name * node)) : Prop :=
  Forall (fun e => plain_name (fst e) = true /\ wf_node (snd e) = true) es /\
  NoDup (map fst es).

(** What holds all along the forward pass: the tree is well formed, the
    tree at source is [s0], the replica exists. *)
Definition forward_inv (source replica : path) (s0 : option node) (w : world)
  : Prop :=
  wf_node (fs w) = true /\ source_is source s0 w /\
  exists_at (fs w) replica = true.

(** The forward pass is done for the tree [s] that source holds at [rel]:
    every file below has a file of the same fingerprint in the replica,
    every directory has its folder. *)
Definition forward_done (source replica rel : path) (s : node) (w : world)
  : Prop :=
  (forall q d m, plain_path q = true -> resolve s q = Some (File d m) ->
                 synced_to d (replica ++ rel ++ q) w) /\
  (forall q es, plain_path q = true -> resolve s q = Some (Dir es) ->
                exists_at (fs w) (dest source replica (rel ++ q)) = true).

(** What a finished top-down walk from a directory of source has done,
    and when it does nothing. *)
Definition forward_walk_spec (source replica log_path : path)
  (s0 : option node) (s : node) : Prop :=
  is_dir s = true ->
  forall fuel rel w w',
    plain_path rel = true -> forward_inv source replica s0 w ->
    resolve_in s0 rel = Some s ->
    os.walk fuel true (source ++ rel)
      (forward_body source replica log_path) w = (Val tt, w') ->
    forward_done source replica rel s w'.


(** Equality of messages is decidable. *)
Definition message_eq_dec (a b : message) : {a = b} + {a <> b}.
Proof.
  pose proof (list_eq_dec string_dec) as Hp.
  decide equality; apply Z.eq_dec.
Defined.

(** The path that a message of the reverse pass reports. *)
Definition removed_path (m : message) : option path :=
  match m with
  | RemovedFile p | RemovedFolder p => Some p
  | _ => None
  end.

(** The message that reports the removal of the entry [x] found at
    [p]. *)
Definition removal_of (x : node) (p : path) : message :=
  if is_dir x then RemovedFolder p else RemovedFile p.


(** How often the message [m] is among [ms]. *)
Definition times (m : message) (ms : list message) : nat :=
  count_occ message_eq_dec ms m.










(** A computation that never stops for want of fuel. *)
Definition total {A} (m : M A) : Prop :=
  forall w, fst (m w) <> OutOfFuel.

(** The oracle of the reverse pass answers for an entry only if it
    answers for the directories above it. *)
Definition closed_down (keep : path -> bool) : Prop :=
  forall p p', keep (p ++ p') = true -> keep p = true.


(* ===================================================================== *)
(** ** Worlds to run the program on *)
(* ===================================================================== *)

(** A source with a file and a sub-directory, and a replica that holds
    an old file and an old folder. *)
Definition demo_fs : node :=
  Dir [("src", Dir [("a.txt", File (list_byte_of_string "hello") 10);
                    ("sub", Dir [("b.txt", File (list_byte_of_string "world") 20)])]);
       ("rep", Dir [("old.txt", File (list_byte_of_string "x") 5);
                    ("gone", Dir [("c.txt", File [] 1)])])].

Definition demo_world : world := World demo_fs 100 [] [] 0.

Definition demo_after : world :=
  snd (synchronize_folders 5 ["src"] ["rep"] ["log"] demo_world).

(** A replica whose copy of [a.txt] is out of date. *)
Definition stale_fs : node :=
  Dir [("src", Dir [("a.txt", File (list_byte_of_string "hello") 10)]);
       ("rep", Dir [("a.txt", File (list_byte_of_string "hullo") 7)])].

Definition stale_world : world := World stale_fs 100 [] [] 0.

Definition stale_after : world :=
  snd (synchronize_folders 5 ["src"] ["rep"] ["log"] stale_world).





(** A directory of the replica where source has a file: hashing the
    replica's entry raises. *)
Definition failing_fs : node :=
  Dir [("src", Dir [("a", File [] 0)]);
       ("rep", Dir [("a", Dir [])])].

Definition failing_world : world := World failing_fs 100 [] [] 0.


(** Source is a regular file. *)
Definition file_source_fs : node :=
  Dir [("src", File (list_byte_of_string "hello") 10);
       ("rep", Dir [("old.txt", File (list_byte_of_string "x") 5);
                    ("gone", Dir [("c.txt", File [] 1)])])].

Definition file_source_world : world := World file_source_fs 100 [] [] 0.


(* ===================================================================== *)
(** ** Induction on trees *)
(* ===================================================================== *)

Section NodeInd.
Variable P : node -> Prop.
Hypothesis P_file : forall data mtime, P (File data mtime).
Hypothesis P_dir : forall es, Forall (fun e => P (snd e)) es -> P (Dir es).

Fixpoint node_ind (n : node) : P n :=
  match n with
  | File data mtime => P_file data mtime
  | Dir es =>
      P_dir
        ((fix all (l : list (name * node)) : Forall (fun e => P (snd e)) l :=
            match l with
            | [] => Forall_nil _
            | e :: l' => Forall_cons e (node_ind (snd e)) (all l')
            end) es)
  end.
End NodeInd.

(* ===================================================================== *)
(** ** Tactics *)
(* ===================================================================== *)

Ltac eqb_cases c k :=
  let E := fresh "E" in
  destruct (String.eqb_spec c k) as [E | E]; [subst | ].

Ltac break_match :=
  match goal with
  | |- context [match ?x with _ => _ end] => destruct x eqn:?
  end.

Ltac break_match_hyp H :=
  match type of H with
  | context [match ?x with _ => _ end] => destruct x eqn:?
  end.

(* ===================================================================== *)
(** ** MD5 on the test suite of RFC 1321 *)
(* ===================================================================== *)

Example md5_empty :
  MD5.hexdigest [] = "d41d8cd98f00b204e9800998ecf8427e".
Proof. vm_compute. reflexivity. Qed.

Example md5_abc :
  MD5.hexdigest (list_byte_of_string "abc") = "900150983cd24fb0d6963f7d28e17f72".
Proof. vm_compute. reflexivity. Qed.

Example md5_hello :
  MD5.hexdigest (list_byte_of_string "hello") = "5d41402abc4b2a76b9719d911017c592".
Proof. vm_compute. reflexivity. Qed.

(* ===================================================================== *)
(** ** Names and entries *)
(* ===================================================================== *)

Lemma plain_not_dot c : plain_name c = true -> is_dot c = false.
Proof.
  unfold plain_name. intros H.
  apply andb_prop in H as [H _]. apply andb_prop in H as [_ H].
  now apply negb_true_iff in H.
Qed.

Lemma plain_path_app p q :
  plain_path (p ++ q) = plain_path p && plain_path q.
Proof. unfold plain_path. apply forallb_app. Qed.

Lemma existsb_eqb_In x l : existsb (String.eqb x) l = true <-> In x l.
Proof.
  rewrite existsb_exists. split.
  - intros [y [Hy E]]. apply String.eqb_eq in E. now subst.
  - intros H. exists x. split; [assumption | apply String.eqb_refl].
Qed.

Lemma distinct_NoDup l : distinct l = true <-> NoDup l.
Proof.
  induction l as [| x l IH]; simpl.
  - split; [constructor | reflexivity].
  - rewrite andb_true_iff, negb_true_iff, IH. split.
    + intros [H1 H2]. constructor; [| assumption].
      intros Hin. apply existsb_eqb_In in Hin. congruence.
    + intros H. inversion H as [| ? ? Hn Hd]; subst. split; [| assumption].
      destruct (existsb (String.eqb x) l) eqn:E; [| reflexivity].
      apply existsb_eqb_In in E. contradiction.
Qed.

Lemma find_entry_In c es v : find_entry c es = Some v -> In (c, v) es.
Proof.
  induction es as [| [k v0] es IH]; simpl; [discriminate |].
  eqb_cases c k.
  - intros [= ->]. now left.
  - intros H. right. auto.
Qed.

Lemma find_entry_None c es : find_entry c es = None <-> ~ In c (map fst es).
Proof.
  induction es as [| [k v0] es IH]; simpl.
  - tauto.
  - eqb_cases c k.
    + split; [discriminate | intros H; exfalso; apply H; now left].
    + rewrite IH. split; [intros H [H1 | H1]; congruence | tauto].
Qed.

Lemma find_entry_app c es1 es2 :
  find_entry c (es1 ++ es2) =
  match find_entry c es1 with
  | Some v => Some v
  | None => find_entry c es2
  end.
Proof.
  induction es1 as [| [k v0] es1 IH]; simpl; [reflexivity |].
  now destruct (String.eqb c k).
Qed.

Lemma find_entry_mid c v pre post :
  ~ In c (map fst pre) -> find_entry c (pre ++ (c, v) :: post) = Some v.
Proof.
  intros H. rewrite find_entry_app.
  apply find_entry_None in H. rewrite H. simpl. now rewrite String.eqb_refl.
Qed.

Lemma find_add_same c v es : find_entry c (add_entry c v es) = Some v.
Proof.
  induction es as [| [k v0] es IH]; simpl.
  - now rewrite String.eqb_refl.
  - eqb_cases c k; simpl.
    + now rewrite String.eqb_refl.
    + apply String.eqb_neq in E. now rewrite E.
Qed.

Lemma find_add_other c k v es :
  c <> k -> find_entry k (add_entry c v es) = find_entry k es.
Proof.
  intros Hne. induction es as [| [k0 v0] es IH]; simpl.
  - apply not_eq_sym in Hne. apply String.eqb_neq in Hne. now rewrite Hne.
  - eqb_cases c k0; simpl.
    + apply not_eq_sym in Hne. apply String.eqb_neq in Hne. now rewrite Hne.
    + now rewrite IH.
Qed.

Lemma find_del_same c es : find_entry c (del_entry c es) = None.
Proof.
  induction es as [| [k v0] es IH]; simpl; [reflexivity |].
  eqb_cases c k; simpl; [assumption |].
  apply String.eqb_neq in E. now rewrite E.
Qed.

Lemma find_del_other c k es :
  c <> k -> find_entry k (del_entry c es) = find_entry k es.
Proof.
  intros Hne. induction es as [| [k0 v0] es IH]; simpl; [reflexivity |].
  eqb_cases c k0; simpl.
  - apply not_eq_sym in Hne. apply String.eqb_neq in Hne. now rewrite Hne.
  - now rewrite IH.
Qed.

Lemma add_entry_id c v es : find_entry c es = Some v -> add_entry c v es = es.
Proof.
  induction es as [| [k v0] es IH]; simpl; [discriminate |].
  eqb_cases c k.
  - now intros [= ->].
  - intros H. now rewrite IH.
Qed.

Lemma del_entry_id c es : find_entry c es = None -> del_entry c es = es.
Proof.
  induction es as [| [k v0] es IH]; simpl; [reflexivity |].
  eqb_cases c k; [discriminate |].
  intros H. now rewrite IH.
Qed.

Lemma add_add c v v0 es :
  add_entry c v (add_entry c v0 es) = add_entry c v es.
Proof.
  induction es as [| [k v1] es IH]; simpl.
  - now rewrite String.eqb_refl.
  - eqb_cases c k; simpl.
    + now rewrite String.eqb_refl.
    + apply String.eqb_neq in E. now rewrite E, IH.
Qed.

Lemma add_del c v es :
  add_entry c v (del_entry c es) = del_entry c es ++ [(c, v)].
Proof.
  induction es as [| [k v1] es IH]; simpl; [reflexivity |].
  eqb_cases c k; simpl; [assumption |].
  apply String.eqb_neq in E. now rewrite E, IH.
Qed.

Lemma del_add c v es :
  del_entry c (add_entry c v es) = del_entry c es.
Proof.
  induction es as [| [k v1] es IH]; simpl.
  - now rewrite String.eqb_refl.
  - eqb_cases c k; simpl.
    + now rewrite String.eqb_refl.
    + apply String.eqb_neq in E. now rewrite E, IH.
Qed.

Lemma del_del c es : del_entry c (del_entry c es) = del_entry c es.
Proof.
  apply del_entry_id, find_del_same.
Qed.

Lemma add_entry_mid c v v0 pre post :
  ~ In c (map fst pre) ->
  add_entry c v (pre ++ (c, v0) :: post) = pre ++ (c, v) :: post.
Proof.
  induction pre as [| [k v1] pre IH]; simpl; intros H.
  - now rewrite String.eqb_refl.
  - eqb_cases c k; [exfalso; apply H; now left |].
    rewrite IH; [reflexivity | tauto].
Qed.

Lemma del_entry_mid c v0 pre post :
  ~ In c (map fst pre) -> ~ In c (map fst post) ->
  del_entry c (pre ++ (c, v0) :: post) = pre ++ post.
Proof.
  induction pre as [| [k v1] pre IH]; simpl; intros H1 H2.
  - rewrite String.eqb_refl. apply del_entry_id. now apply find_entry_None.
  - eqb_cases c k; [exfalso; apply H1; now left |].
    rewrite IH; [reflexivity | tauto | assumption].
Qed.

Lemma map_fst_add c v es :
  find_entry c es <> None -> map fst (add_entry c v es) = map fst es.
Proof.
  induction es as [| [k v1] es IH]; simpl; [congruence |].
  eqb_cases c k; simpl; [reflexivity |].
  intros H. now rewrite IH.
Qed.

(* ===================================================================== *)
(** ** Paths *)
(* ===================================================================== *)


Lemma is_prefix_spec p q : is_prefix p q = true <-> exists x, q = p ++ x.
Proof.
  revert q. induction p as [| c p IH]; intros q; simpl.
  - split; [intros _; now exists q | reflexivity].
  - destruct q as [| d q].
    + split; [discriminate | intros [x Hx]; discriminate].
    + rewrite andb_true_iff, String.eqb_eq, IH. split.
      * intros [-> [x ->]]. now exists x.
      * intros [x [= -> ->]]. split; [reflexivity | now exists x].
Qed.

Lemma is_prefix_app p x : is_prefix p (p ++ x) = true.
Proof. apply is_prefix_spec. now exists x. Qed.

Lemma separate_sym p q : separate p q = separate q p.
Proof. unfold separate. apply andb_comm. Qed.

Lemma separate_cons c p q : separate (c :: p) (c :: q) = separate p q.
Proof. unfold separate. simpl. now rewrite String.eqb_refl. Qed.

Lemma canon_plain p : plain_path p = true -> canon p = p.
Proof.
  unfold canon. induction p as [| c p IH]; simpl; [reflexivity |].
  rewrite andb_true_iff. intros [Hc Hp].
  rewrite (plain_not_dot _ Hc). simpl. now rewrite IH.
Qed.

Lemma relpath_aux_app s rel : os.relpath_aux (s ++ rel) s = rel.
Proof.
  induction s as [| c s IH]; simpl.
  - now destruct rel.
  - now rewrite String.eqb_refl.
Qed.

Lemma relpath_app s rel :
  os.relpath (s ++ rel) s = match rel with [] => ["."] | _ => rel end.
Proof. unfold os.relpath. rewrite relpath_aux_app. now destruct rel. Qed.

(* ===================================================================== *)
(** ** Resolution *)
(* ===================================================================== *)

Lemma resolve_app n p q :
  resolve n (p ++ q) =
  match resolve n p with
  | Some m => resolve m q
  | None => None
  end.
Proof.
  revert n. induction p as [| c p IH]; intros n; simpl; [reflexivity |].
  destruct n as [d m | es]; [reflexivity |].
  destruct (is_dot c); [apply IH |].
  destruct (find_entry c es); [apply IH | reflexivity].
Qed.

Lemma resolve_file_cons data mtime c p : resolve (File data mtime) (c :: p) = None.
Proof. reflexivity. Qed.

Lemma resolve_dir_plain es c p :
  is_dot c = false ->
  resolve (Dir es) (c :: p) =
  match find_entry c es with
  | Some m => resolve m p
  | None => None
  end.
Proof. intros H. simpl. now rewrite H. Qed.

(** A [.] in the middle of a path changes nothing. *)
Lemma resolve_dot_mid n p c q :
  resolve n (p ++ "." :: c :: q) = resolve n (p ++ c :: q).
Proof.
  rewrite !resolve_app. destruct (resolve n p) as [m |]; [| reflexivity].
  destruct m; reflexivity.
Qed.

Lemma resolve_dot_end n p :
  resolve n (p ++ ["."]) =
  match resolve n p with
  | Some (Dir es) => Some (Dir es)
  | _ => None
  end.
Proof.
  rewrite resolve_app. destruct (resolve n p) as [[d m | es] |]; reflexivity.
Qed.


Lemma put_cons_nonempty es k q v :
  is_dot k = false -> q <> [] ->
  put (Dir es) (k :: q) v =
  match find_entry k es with
  | Some m =>
      match put m q v with
      | Some m' => Some (Dir (add_entry k m' es))
      | None => None
      end
  | None => None
  end.
Proof.
  intros Hk Hq. simpl. rewrite Hk. destruct q; [congruence | reflexivity].
Qed.

Lemma graft_cons es k q x :
  is_dot k = false ->
  graft (Dir es) (k :: q) x =
  match find_entry k es with
  | Some m => Dir (add_entry k (graft m q x) es)
  | None => match q with [] => Dir (add_entry k x es) | _ => Dir es end
  end.
Proof.
  intros Hk. unfold graft at 1.
  destruct q as [| k' q].
  - simpl. rewrite Hk. now destruct (find_entry k es).
  - rewrite put_cons_nonempty by (assumption || discriminate).
    destruct (find_entry k es) as [m |] eqn:Ef; [| reflexivity].
    unfold graft.
    destruct (put m (k' :: q) (Some x)); [reflexivity |].
    now rewrite (add_entry_id _ _ Ef).
Qed.

(** Writing an entry of the directory that a plain path resolves to. *)
Lemma put_snoc n p c v :
  plain_path p = true -> plain_name c = true ->
  put n (p ++ [c]) v =
  match resolve n p with
  | Some (Dir es) => Some (graft n p (Dir (set_entry c v es)))
  | _ => None
  end.
Proof.
  revert n. induction p as [| k p IH]; intros n Hp Hc.
  - simpl. destruct n as [d m | es]; [reflexivity |].
    now rewrite (plain_not_dot _ Hc).
  - simpl in Hp. apply andb_prop in Hp as [Hk Hp].
    pose proof (plain_not_dot _ Hk) as Hd.
    destruct n as [d m | es0]; [reflexivity |].
    change ((k :: p) ++ [c]) with (k :: (p ++ [c])).
    rewrite put_cons_nonempty by (assumption || now destruct p).
    rewrite resolve_dir_plain by assumption.
    destruct (find_entry k es0) as [m |] eqn:Ef; [| reflexivity].
    rewrite (IH m Hp Hc).
    destruct (resolve m p) as [[d1 m1 | es1] |]; try reflexivity.
    rewrite graft_cons by assumption. now rewrite Ef.
Qed.

Lemma put_child n p es c v :
  plain_path p = true -> plain_name c = true ->
  resolve n p = Some (Dir es) ->
  put n (p ++ [c]) v = Some (graft n p (Dir (set_entry c v es))).
Proof. intros Hp Hc Hr. rewrite put_snoc by assumption. now rewrite Hr. Qed.

(** The laws of [graft] at a plain path that resolves. *)
Lemma graft_same n p m :
  plain_path p = true -> resolve n p = Some m -> graft n p m = n.
Proof.
  revert n. induction p as [| k p IH]; intros n Hp Hr.
  - simpl in *. congruence.
  - simpl in Hp. apply andb_prop in Hp as [Hk Hp].
    pose proof (plain_not_dot _ Hk) as Hd.
    destruct n as [d0 m0 | es]; [discriminate |].
    rewrite resolve_dir_plain in Hr by assumption.
    rewrite graft_cons by assumption.
    destruct (find_entry k es) as [m1 |] eqn:Ef; [| discriminate].
    rewrite (IH m1 Hp Hr). now rewrite (add_entry_id _ _ Ef).
Qed.

Lemma resolve_graft n p v :
  plain_path p = true -> resolve n p <> None ->
  resolve (graft n p v) p = Some v.
Proof.
  revert n. induction p as [| k p IH]; intros n Hp Hr.
  - reflexivity.
  - simpl in Hp. apply andb_prop in Hp as [Hk Hp].
    pose proof (plain_not_dot _ Hk) as Hd.
    destruct n as [d0 m0 | es]; [now simpl in Hr |].
    rewrite resolve_dir_plain in Hr by assumption.
    rewrite graft_cons by assumption.
    destruct (find_entry k es) as [m1 |] eqn:Ef; [| congruence].
    rewrite resolve_dir_plain by assumption.
    rewrite find_add_same. now apply IH.
Qed.

Lemma graft_graft n p a b :
  plain_path p = true -> resolve n p <> None ->
  graft (graft n p a) p b = graft n p b.
Proof.
  revert n. induction p as [| k p IH]; intros n Hp Hr.
  - reflexivity.
  - simpl in Hp. apply andb_prop in Hp as [Hk Hp].
    pose proof (plain_not_dot _ Hk) as Hd.
    destruct n as [d0 m0 | es]; [now simpl in Hr |].
    rewrite resolve_dir_plain in Hr by assumption.
    rewrite (graft_cons es) by assumption.
    destruct (find_entry k es) as [m1 |] eqn:Ef; [| congruence].
    rewrite !graft_cons by assumption.
    rewrite find_add_same, Ef, add_add. now rewrite IH.
Qed.

(** Grafting below [p] is grafting at [p]. *)
Lemma graft_app n p q m v :
  plain_path p = true -> resolve n p = Some m ->
  graft n (p ++ q) v = graft n p (graft m q v).
Proof.
  revert n. induction p as [| k p IH]; intros n Hp Hr.
  - simpl in *. injection Hr as ->. reflexivity.
  - simpl in Hp. apply andb_prop in Hp as [Hk Hp].
    pose proof (plain_not_dot _ Hk) as Hd.
    destruct n as [d0 m0 | es]; [discriminate |].
    rewrite resolve_dir_plain in Hr by assumption.
    change ((k :: p) ++ q) with (k :: (p ++ q)).
    rewrite !graft_cons by assumption.
    destruct (find_entry k es) as [m1 |] eqn:Ef; [| discriminate].
    now rewrite (IH m1 Hp Hr).
Qed.

(** Writing below one of two separate plain paths leaves the other as it
    was. *)
Lemma put_separate p q : forall n n' x v,
  plain_path p = true -> plain_path q = true -> separate p q = true ->
  put n (p ++ x) v = Some n' ->
  resolve n' q = resolve n q.
Proof.
  revert q. induction p as [| c p IH]; intros q n n' x v Hp Hq Hs Hput.
  - unfold separate in Hs. simpl in Hs. discriminate.
  - destruct q as [| d q].
    + unfold separate in Hs. simpl in Hs. discriminate.
    + simpl in Hp, Hq.
      apply andb_prop in Hp as [Hc Hp]. apply andb_prop in Hq as [Hd Hq].
      pose proof (plain_not_dot _ Hc) as Hc'.
      pose proof (plain_not_dot _ Hd) as Hd'.
      destruct n as [d0 m0 | es]; [discriminate |].
      change ((c :: p) ++ x) with (c :: (p ++ x)) in Hput.
      rewrite !resolve_dir_plain by assumption.
      destruct (p ++ x) as [| k r] eqn:Epx.
      * simpl in Hput. rewrite Hc' in Hput. injection Hput as <-.
        apply app_eq_nil in Epx as [-> ->].
        assert (c <> d).
        { intros ->. unfold separate in Hs. simpl in Hs.
          rewrite String.eqb_refl in Hs. simpl in Hs. discriminate. }
        destruct v as [m |]; unfold set_entry;
          rewrite resolve_dir_plain by assumption.
        -- now rewrite find_add_other.
        -- now rewrite find_del_other.
      * rewrite put_cons_nonempty in Hput by (assumption || discriminate).
        destruct (find_entry c es) as [m |] eqn:Ef; [| discriminate].
        destruct (put m (k :: r) v) as [m' |] eqn:Ep; [| discriminate].
        injection Hput as <-.
        rewrite resolve_dir_plain by assumption.
        eqb_cases c d.
        -- rewrite find_add_same, Ef.
           rewrite separate_cons in Hs. rewrite <- Epx in Ep.
           eapply IH; eassumption.
        -- now rewrite find_add_other.
Qed.

(* ===================================================================== *)
(** ** The monad *)
(* ===================================================================== *)

Lemma bind_val A B (m : M A) (f : A -> M B) w a w' :
  m w = (Val a, w') -> bind m f w = f a w'.
Proof. unfold bind. now intros ->. Qed.

Lemma bind_exn A B (m : M A) (f : A -> M B) w e w' :
  m w = (Exn e, w') -> bind m f w = (Exn e, w').
Proof. unfold bind. now intros ->. Qed.

Lemma bind_fuel A B (m : M A) (f : A -> M B) w w' :
  m w = (OutOfFuel, w') -> bind m f w = (OutOfFuel, w').
Proof. unfold bind. now intros ->. Qed.

(** A sequence that returns a value ran both of its parts. *)
Lemma bind_inv A B (m : M A) (f : A -> M B) w b w' :
  bind m f w = (Val b, w') ->
  exists a w1, m w = (Val a, w1) /\ f a w1 = (Val b, w').
Proof.
  unfold bind. destruct (m w) as [[a | e |] w1]; intros H; try discriminate.
  now exists a, w1.
Qed.

Lemma for_each_app A (xs ys : list A) (body : A -> M unit) w :
  for_each (xs ++ ys) body w =
  bind (for_each xs body) (fun _ => for_each ys body) w.
Proof.
  revert w. induction xs as [| x xs IH]; intros w; simpl.
  - reflexivity.
  - unfold bind. destruct (body x w) as [[[] | e |] w1]; try reflexivity.
    rewrite IH. reflexivity.
Qed.

Section Invariants.
Variable I : world -> Prop.

Lemma inv_bind A B (m : M A) (f : A -> M B) w :
  I (snd (m w)) -> (forall a w1, I w1 -> I (snd (f a w1))) ->
  I (snd (bind m f w)).
Proof.
  unfold bind. destruct (m w) as [[a | e |] w1]; simpl; auto.
Qed.

Lemma inv_bind_val A B (m : M A) (f : A -> M B) w :
  I (snd (m w)) ->
  (forall a w1, m w = (Val a, w1) -> I w1 -> I (snd (f a w1))) ->
  I (snd (bind m f w)).
Proof.
  unfold bind. destruct (m w) as [[a | e |] w1]; simpl; auto.
Qed.

Lemma inv_when c (m : M unit) w :
  I w -> (I w -> I (snd (m w))) -> I (snd (when c m w)).
Proof. destruct c; simpl; auto. Qed.

Lemma inv_for_each A (xs : list A) (body : A -> M unit) :
  (forall x w, In x xs -> I w -> I (snd (body x w))) ->
  forall w, I w -> I (snd (for_each xs body w)).
Proof.
  induction xs as [| x xs IH]; intros Hb w Hw; simpl; [assumption |].
  apply inv_bind.
  - apply Hb; [now left | assumption].
  - intros _ w1 Hw1. apply IH; [| assumption].
    intros y w2 Hy. apply Hb. now right.
Qed.

(** An invariant of the loop body, on the roots [G] that the walk can
    reach, is an invariant of the top-down walk. *)
Lemma inv_walk_topdown (G : path -> Prop) body :
  (forall top dirs files w,
      I w -> G top -> scandir (fs w) top = Some (dirs, files) ->
      I (snd (body top dirs files w)) /\
      forall d, In d dirs -> G (top ++ [d])) ->
  forall fuel top w, I w -> G top -> I (snd (os.walk fuel true top body w)).
Proof.
  intros Hb. induction fuel as [| k IH]; intros top w Hw Hg; simpl.
  - assumption.
  - destruct (scandir (fs w) top) as [[dirs files] |] eqn:Es; [| assumption].
    destruct (Hb top dirs files w Hw Hg Es) as [H1 H2].
    apply inv_bind; [assumption |].
    intros _ w1 Hw1. apply inv_for_each; [| assumption].
    intros d w2 Hd Hw2. apply IH; auto.
Qed.

(** The same in either direction, for a body that keeps the invariant
    whatever listing it is given. *)
Lemma inv_walk (G : path -> Prop) body :
  (forall top dirs files w, G top -> I w -> I (snd (body top dirs files w))) ->
  (forall top d, G top -> G (top ++ [d])) ->
  forall fuel topdown top w,
    G top -> I w -> I (snd (os.walk fuel topdown top body w)).
Proof.
  intros Hb Hg. induction fuel as [| k IH]; intros topdown top w Ht Hw; simpl.
  - assumption.
  - destruct (scandir (fs w) top) as [[dirs files] |]; [| assumption].
    destruct topdown.
    + apply inv_bind; [now apply Hb |].
      intros _ w1 Hw1. apply inv_for_each; [| assumption].
      intros d w2 _ Hw2. apply IH; auto.
    + apply inv_bind.
      * apply inv_for_each; [| assumption].
        intros d w2 _ Hw2. apply IH; auto.
      * intros _ w1 Hw1. now apply Hb.
Qed.
End Invariants.

(** A loop that returns a value ran its body on each element, and what
    one run establishes, and the later runs keep, holds at the end. *)
Lemma for_each_establish A (xs : list A) (body : A -> M unit) (x : A)
  (I P : world -> Prop) :
  In x xs ->
  (forall y w, I w -> I (snd (body y w))) ->
  (forall y w, I w -> P w -> P (snd (body y w))) ->
  (forall w w', I w -> body x w = (Val tt, w') -> P w') ->
  forall w w', I w -> for_each xs body w = (Val tt, w') -> P w'.
Proof.
  intros Hin HI HP Hx.
  induction xs as [| y xs IH]; intros w w' Hw Hrun; [contradiction |].
  simpl in Hrun. apply bind_inv in Hrun as [[] [w1 [Hy Hrest]]].
  assert (Hw1 : I w1) by (specialize (HI y w Hw); rewrite Hy in HI; exact HI).
  destruct Hin as [-> | Hin].
  - assert (Hp1 : P w1) by exact (Hx _ _ Hw Hy).
    clear IH Hx Hy.
    assert (G : I w' /\ P w').
    { change w' with (snd (Val tt, w')). rewrite <- Hrest.
      apply (inv_for_each (fun w => I w /\ P w)); [| now split].
      intros z w2 _ [H1 H2]. split; auto. }
    apply G.
  - eapply IH; eassumption.
Qed.

(** More fuel does not change a walk that finished. *)
Lemma for_each_ext_val A (xs : list A) (f g : A -> M unit) :
  (forall x w r w', In x xs -> f x w = (r, w') -> r <> OutOfFuel -> g x w = (r, w')) ->
  forall w r w', for_each xs f w = (r, w') -> r <> OutOfFuel ->
                 for_each xs g w = (r, w').
Proof.
  induction xs as [| x xs IH]; intros H w r w' Hrun Hr; simpl in *.
  - assumption.
  - unfold bind in *.
    destruct (f x w) as [[[] | e |] w1] eqn:Ef.
    + rewrite (H x w (Val tt) w1) by (auto; discriminate).
      apply IH; auto.
    + rewrite (H x w (Exn e) w1) by (auto; discriminate). assumption.
    + injection Hrun as <- <-. congruence.
Qed.

Lemma walk_fuel_mono body topdown :
  forall fuel fuel' top w r w',
    fuel <= fuel' ->
    os.walk fuel topdown top body w = (r, w') -> r <> OutOfFuel ->
    os.walk fuel' topdown top body w = (r, w').
Proof.
  induction fuel as [| k IH]; intros fuel' top w r w' Hle Hrun Hr.
  - simpl in Hrun. injection Hrun as <- <-. congruence.
  - destruct fuel' as [| k']; [lia |].
    simpl in *.
    destruct (scandir (fs w) top) as [[dirs files] |]; [| assumption].
    assert (Hk : forall d w0 r0 w0', In d dirs ->
              os.walk k topdown (top ++ [d]) body w0 = (r0, w0') ->
              r0 <> OutOfFuel ->
              os.walk k' topdown (top ++ [d]) body w0 = (r0, w0')).
    { intros d w0 r0 w0' _ H1 H2. eapply IH; [lia | eassumption | assumption]. }
    destruct topdown.
    + unfold bind in *.
      destruct (body top dirs files w) as [[[] | e |] w1]; try assumption.
      exact (for_each_ext_val dirs _ _ Hk w1 Hrun Hr).
    + unfold bind in *.
      destruct (for_each dirs (fun dirname => os.walk k false (top ++ [dirname]) body) w)
        as [[[] | e |] w1] eqn:Ef.
      * assert (X := for_each_ext_val dirs _ _ Hk w Ef).
        setoid_rewrite X; [exact Hrun | discriminate].
      * assert (X := for_each_ext_val dirs _ _ Hk w Ef).
        setoid_rewrite X; [exact Hrun | discriminate].
      * injection Hrun as <- <-. congruence.
Qed.

(* ===================================================================== *)
(** ** The log *)
(* ===================================================================== *)

Lemma log_message_emit log_path m w :
  log_message log_path m w = (Val tt, emit log_path [m] w).
Proof. reflexivity. Qed.

Lemma emit_nil log_path w : emit log_path [] w = w.
Proof. destruct w. unfold emit. simpl. now rewrite !app_nil_r. Qed.

Lemma emit_emit log_path a b w :
  emit log_path b (emit log_path a w) = emit log_path (a ++ b) w.
Proof.
  unfold emit. simpl. now rewrite !map_app, !app_assoc.
Qed.

Lemma fs_emit log_path ms w : fs (emit log_path ms w) = fs w.
Proof. reflexivity. Qed.

Lemma fs_set_fs n w : fs (set_fs n w) = n.
Proof. reflexivity. Qed.

Lemma set_fs_emit log_path ms n w :
  set_fs n (emit log_path ms w) = emit log_path ms (set_fs n w).
Proof. reflexivity. Qed.

Lemma set_fs_set_fs n n' w : set_fs n (set_fs n' w) = set_fs n w.
Proof. reflexivity. Qed.

Lemma set_fs_same w : set_fs (fs w) w = w.
Proof. now destruct w. Qed.

(* ===================================================================== *)
(** ** What a write leaves in place *)
(* ===================================================================== *)

Lemma snoc_cases A (l : list A) : l = [] \/ exists l' x, l = l' ++ [x].
Proof.
  destruct l as [| a l]; [now left | right].
  destruct (exists_last (l := a :: l)) as [l' [x E]]; [discriminate |].
  now exists l', x.
Qed.

Lemma resolve_put_same n p v n' :
  plain_path p = true -> put n p (Some v) = Some n' -> resolve n' p = Some v.
Proof.
  intros Hp Hput.
  destruct (snoc_cases p) as [-> | [p1 [c ->]]]; [discriminate |].
  rewrite plain_path_app in Hp. apply andb_prop in Hp as [Hp1 Hc].
  simpl in Hc. rewrite andb_true_r in Hc.
  rewrite put_snoc in Hput by assumption.
  destruct (resolve n p1) as [[d m | es] |] eqn:Er; try discriminate.
  injection Hput as <-.
  rewrite resolve_app, resolve_graft by (congruence || assumption).
  rewrite resolve_dir_plain by now apply plain_not_dot.
  simpl. now rewrite find_add_same.
Qed.

Lemma resolve_put_none n p n' :
  plain_path p = true -> put n p None = Some n' -> resolve n' p = None.
Proof.
  intros Hp Hput.
  destruct (snoc_cases p) as [-> | [p1 [c ->]]]; [discriminate |].
  rewrite plain_path_app in Hp. apply andb_prop in Hp as [Hp1 Hc].
  simpl in Hc. rewrite andb_true_r in Hc.
  rewrite put_snoc in Hput by assumption.
  destruct (resolve n p1) as [[d m | es] |] eqn:Er; try discriminate.
  injection Hput as <-.
  rewrite resolve_app, resolve_graft by (congruence || assumption).
  rewrite resolve_dir_plain by now apply plain_not_dot.
  simpl. now rewrite find_del_same.
Qed.

Lemma is_prefix_comparable p r l :
  is_prefix p l = true -> is_prefix r l = true ->
  is_prefix p r = true \/ is_prefix r p = true.
Proof.
  revert r l. induction p as [| c p IH]; intros r l Hp Hr; [now left |].
  destruct r as [| d r]; [now right |].
  destruct l as [| e l]; [discriminate |].
  simpl in *. apply andb_prop in Hp as [H1 H2]. apply andb_prop in Hr as [H3 H4].
  apply String.eqb_eq in H1, H3. subst.
  rewrite String.eqb_refl. simpl. eapply IH; eassumption.
Qed.

Lemma is_prefix_trans p q r :
  is_prefix p q = true -> is_prefix q r = true -> is_prefix p r = true.
Proof.
  rewrite !is_prefix_spec. intros [x ->] [y ->].
  exists (x ++ y). now rewrite app_assoc.
Qed.

Lemma plain_prefix p q :
  is_prefix p q = true -> plain_path q = true -> plain_path p = true.
Proof.
  rewrite is_prefix_spec. intros [x ->]. rewrite plain_path_app.
  intros H. now apply andb_prop in H.
Qed.

Lemma resolve_empty_dir q :
  plain_path q = true -> q <> [] -> resolve (Dir []) q = None.
Proof.
  destruct q as [| k q]; [congruence |]. simpl.
  intros H _. apply andb_prop in H as [H _].
  now rewrite (plain_not_dot _ H).
Qed.

Section Frame.
Variables source replica : path.
Hypothesis plain_source : plain_path source = true.
Hypothesis plain_replica : plain_path replica = true.
Hypothesis apart : separate source replica = true.

(** A write at or below [replica] leaves the tree at [source] alone. *)
Lemma put_below_replica n x v n' :
  put n (replica ++ x) v = Some n' -> resolve n' source = resolve n source.
Proof.
  intros H. eapply put_separate; [| | | exact H]; try assumption.
  now rewrite separate_sym.
Qed.

Lemma not_prefix_source_replica : is_prefix source replica = false.
Proof.
  unfold separate in apart. apply andb_prop in apart as [H _].
  now apply negb_true_iff in H.
Qed.

Lemma not_prefix_replica_source : is_prefix replica source = false.
Proof.
  unfold separate in apart. apply andb_prop in apart as [_ H].
  now apply negb_true_iff in H.
Qed.

(** A directory made on the way to [replica] does not show at [source]. *)
Lemma mkdir_toward_replica p x n n' :
  is_prefix p (replica ++ x) = true ->
  resolve n p = None ->
  put n p (Some (Dir [])) = Some n' ->
  resolve n' source = resolve n source.
Proof.
  intros Hp Hfree Hput.
  destruct (is_prefix_comparable _ _ _ Hp (is_prefix_app replica x)) as [H | H].
  - (* [p] is an ancestor of [replica] *)
    assert (Hplain : plain_path p = true) by (eapply plain_prefix; eassumption).
    destruct (is_prefix p source) eqn:Eps.
    + apply is_prefix_spec in Eps as [z Ez].
      assert (z <> []).
      { intros ->. rewrite app_nil_r in Ez. subst p.
        pose proof not_prefix_source_replica as X.
        rewrite H in X. discriminate. }
      rewrite Ez, !resolve_app, Hfree.
      rewrite (@resolve_put_same _ _ _ _ Hplain Hput).
      apply resolve_empty_dir; [| assumption].
      pose proof plain_source as X.
      rewrite Ez, plain_path_app in X.
      now apply andb_prop in X.
    + assert (Esp : is_prefix source p = false).
      { destruct (is_prefix source p) eqn:E; [| reflexivity].
        pose proof not_prefix_source_replica as X.
        rewrite (is_prefix_trans _ _ _ E H) in X. discriminate. }
      rewrite <- (app_nil_r p) in Hput.
      eapply put_separate; [| | | exact Hput]; try assumption.
      unfold separate. now rewrite Eps, Esp.
  - apply is_prefix_spec in H as [y ->].
    eapply put_below_replica; eassumption.
Qed.

Variable s0 : option node.

Lemma mkdir_keeps_source p x w :
  is_prefix p (replica ++ x) = true ->
  source_is source s0 w -> source_is source s0 (snd (os.mkdir p w)).
Proof.
  unfold source_is, os.mkdir. intros Hp Hw.
  destruct (resolve (fs w) p) eqn:Er; [assumption |].
  destruct (put (fs w) p (Some (Dir []))) as [n' |] eqn:Ep; [| assumption].
  simpl. rewrite <- Hw. eapply mkdir_toward_replica; eassumption.
Qed.

Lemma ignore_exists_snd m w : snd (os.ignore_exists m w) = snd (m w).
Proof.
  unfold os.ignore_exists. destruct (m w) as [[[] | [] |] w1]; reflexivity.
Qed.

Lemma makedirs_rev_keeps_source x rname :
  is_prefix (rev rname) (replica ++ x) = true ->
  forall w, source_is source s0 w -> source_is source s0 (snd (os.makedirs_rev rname w)).
Proof.
  induction rname as [| tail rhead IH]; intros Hp w Hw.
  - exact Hw.
  - assert (Hhead : is_prefix (rev rhead) (replica ++ x) = true).
    { eapply is_prefix_trans; [| exact Hp]. simpl. apply is_prefix_app. }
    cbn [os.makedirs_rev].
    apply inv_bind; [exact Hw |].
    intros e w1 Hw1. destruct (negb e).
    + apply inv_bind.
      * rewrite ignore_exists_snd. now apply IH.
      * intros _ w2 Hw2. destruct (is_dot tail); [exact Hw2 |].
        eapply mkdir_keeps_source; eassumption.
    + eapply mkdir_keeps_source; eassumption.
Qed.

Lemma makedirs_keeps_source x w :
  source_is source s0 w -> source_is source s0 (snd (os.makedirs (replica ++ x) w)).
Proof.
  unfold os.makedirs. apply makedirs_rev_keeps_source with (x := x).
  rewrite rev_involutive. apply is_prefix_spec. exists [].
  now rewrite app_nil_r.
Qed.

Lemma copyfile_keeps_source src x w :
  source_is source s0 w -> source_is source s0 (snd (shutil.copyfile src (replica ++ x) w)).
Proof.
  unfold source_is, shutil.copyfile. intros Hw.
  repeat (break_match; try assumption);
    simpl; rewrite <- Hw; eapply put_below_replica; eassumption.
Qed.

Lemma copystat_keeps_source src x w :
  source_is source s0 w -> source_is source s0 (snd (shutil.copystat src (replica ++ x) w)).
Proof.
  unfold source_is, shutil.copystat. intros Hw.
  repeat (break_match; try assumption);
    simpl; rewrite <- Hw; eapply put_below_replica; eassumption.
Qed.

Lemma copy2_keeps_source src x w :
  source_is source s0 w -> source_is source s0 (snd (shutil.copy2 src (replica ++ x) w)).
Proof.
  intros Hw. unfold shutil.copy2.
  apply inv_bind; [exact Hw |].
  intros d w1 Hw1.
  assert (E : exists y, (if d then (replica ++ x) ++ [basename src] else replica ++ x)
                        = replica ++ y).
  { destruct d; [exists (x ++ [basename src]); now rewrite app_assoc | now exists x]. }
  destruct E as [y ->].
  apply inv_bind; [now apply copyfile_keeps_source |].
  intros _ w2 Hw2. now apply copystat_keeps_source.
Qed.

Lemma remove_keeps_source x w :
  source_is source s0 w -> source_is source s0 (snd (os.remove (replica ++ x) w)).
Proof.
  unfold source_is, os.remove. intros Hw.
  repeat (break_match; try assumption);
    simpl; rewrite <- Hw; eapply put_below_replica; eassumption.
Qed.

Lemma rmtree_keeps_source x w :
  source_is source s0 w -> source_is source s0 (snd (shutil.rmtree (replica ++ x) w)).
Proof.
  unfold source_is, shutil.rmtree. intros Hw.
  repeat (break_match; try assumption);
    simpl; rewrite <- Hw; eapply put_below_replica; eassumption.
Qed.

Lemma log_message_keeps_source log_path m w :
  source_is source s0 w -> source_is source s0 (snd (log_message log_path m w)).
Proof. intros Hw. exact Hw. Qed.

Lemma path_exists_snd p w : snd (os.path_exists p w) = w.
Proof. reflexivity. Qed.

Lemma calculate_hash_snd p w : snd (calculate_hash p w) = w.
Proof.
  unfold calculate_hash, bind, open_rb.
  now destruct (resolve (fs w) p) as [[d m | es] |].
Qed.

Variable log_path : path.

Lemma ensure_replica_keeps_source w :
  source_is source s0 w -> source_is source s0 (snd (ensure_replica replica log_path w)).
Proof.
  intros Hw. unfold ensure_replica.
  apply inv_bind; [exact Hw |].
  intros e w1 Hw1. apply inv_when; [exact Hw1 | intros _].
  apply inv_bind.
  - rewrite <- (app_nil_r replica). now apply makedirs_keeps_source.
  - intros _ w2 Hw2. exact Hw2.
Qed.

Lemma mirror_file_keeps_source root x file w :
  source_is source s0 w ->
  source_is source s0 (snd (mirror_file log_path root (replica ++ x) file w)).
Proof.
  intros Hw. unfold mirror_file.
  apply inv_bind; [exact Hw |].
  intros e w1 Hw1. apply inv_bind.
  - destruct (negb e); [exact Hw1 |].
    apply inv_bind; [now rewrite calculate_hash_snd |].
    intros h1 w2 Hw2. apply inv_bind; [now rewrite calculate_hash_snd |].
    intros h2 w3 Hw3. exact Hw3.
  - intros differs w2 Hw2. apply inv_when; [exact Hw2 | intros _].
    apply inv_bind.
    + rewrite <- app_assoc. now apply copy2_keeps_source.
    + intros _ w3 Hw3. exact Hw3.
Qed.

Lemma mirror_folder_val root w d w1 :
  mirror_folder source replica log_path root w = (Val d, w1) ->
  d = replica ++ os.relpath root source.
Proof.
  unfold mirror_folder. intros H.
  apply bind_inv in H as [e [w2 [_ H]]].
  apply bind_inv in H as [[] [w3 [_ H]]].
  now injection H as <- _.
Qed.

Lemma mirror_folder_keeps_source root w :
  source_is source s0 w ->
  source_is source s0 (snd (mirror_folder source replica log_path root w)).
Proof.
  intros Hw. unfold mirror_folder.
  apply inv_bind; [exact Hw |].
  intros e w1 Hw1. apply inv_bind.
  - apply inv_when; [exact Hw1 | intros _].
    apply inv_bind; [now apply makedirs_keeps_source |].
    intros _ w2 Hw2. exact Hw2.
  - intros _ w2 Hw2. exact Hw2.
Qed.

Lemma forward_body_keeps_source root dirs files w :
  source_is source s0 w ->
  source_is source s0 (snd (forward_body source replica log_path root dirs files w)).
Proof.
  intros Hw. unfold forward_body.
  apply inv_bind_val; [now apply mirror_folder_keeps_source |].
  intros d w1 Hd Hw1. apply mirror_folder_val in Hd as ->.
  apply inv_for_each; [| exact Hw1].
  intros f w2 _ Hw2. now apply mirror_file_keeps_source.
Qed.

Lemma reverse_body_keeps_source x dirs files w :
  source_is source s0 w ->
  source_is source s0
    (snd (reverse_body source replica log_path (replica ++ x) dirs files w)).
Proof.
  intros Hw. unfold reverse_body.
  apply inv_bind.
  - apply inv_for_each; [| exact Hw].
    intros f w1 _ Hw1. unfold prune_file.
    apply inv_bind; [exact Hw1 |].
    intros e w2 Hw2. apply inv_when; [exact Hw2 | intros _].
    apply inv_bind.
    + rewrite <- app_assoc. now apply remove_keeps_source.
    + intros _ w3 Hw3. exact Hw3.
  - intros _ w1 Hw1. apply inv_for_each; [| exact Hw1].
    intros f w2 _ Hw2. unfold prune_folder.
    apply inv_bind; [exact Hw2 |].
    intros e w3 Hw3. apply inv_when; [exact Hw3 | intros _].
    apply inv_bind.
    + rewrite <- app_assoc. now apply rmtree_keeps_source.
    + intros _ w4 Hw4. exact Hw4.
Qed.

Lemma forward_pass_keeps_source fuel w :
  source_is source s0 w ->
  source_is source s0 (snd (forward_pass fuel source replica log_path w)).
Proof.
  intros Hw. unfold forward_pass.
  apply (inv_walk (source_is source s0) (fun _ => True)); auto.
  intros top dirs files w1 _ Hw1. now apply forward_body_keeps_source.
Qed.

Lemma reverse_pass_keeps_source fuel w :
  source_is source s0 w ->
  source_is source s0 (snd (reverse_pass fuel source replica log_path w)).
Proof.
  intros Hw. unfold reverse_pass.
  apply (inv_walk (source_is source s0) (fun top => exists x, top = replica ++ x)).
  - intros top dirs files w1 [x ->] Hw1. now apply reverse_body_keeps_source.
  - intros top d [x ->]. exists (x ++ [d]). now rewrite app_assoc.
  - exists []. now rewrite app_nil_r.
  - exact Hw.
Qed.

Lemma synchronize_folders_keeps_source fuel w :
  source_is source s0 w ->
  source_is source s0 (snd (synchronize_folders fuel source replica log_path w)).
Proof.
  intros Hw. unfold synchronize_folders.
  apply inv_bind; [now apply ensure_replica_keeps_source |].
  intros _ w1 Hw1. apply inv_bind; [now apply forward_pass_keeps_source |].
  intros _ w2 Hw2. now apply reverse_pass_keeps_source.
Qed.
End Frame.

(* ===================================================================== *)
(** ** Well-formed trees *)
(* ===================================================================== *)

Lemma wf_children es :
  (fix all (l : list (name * node)) : bool :=
     match l with
     | [] => true
     | (_, c) :: l' => wf_node c && all l'
     end) es = true <->
  Forall (fun e => wf_node (snd e) = true) es.
Proof.
  induction es as [| [k c] es IH].
  - split; [constructor | reflexivity].
  - rewrite andb_true_iff, IH. split.
    + intros [H1 H2]. now constructor.
    + intros H. inversion H; subst. now split.
Qed.

Lemma wf_dir es : wf_node (Dir es) = true <-> wf_entries es.
Proof.
  unfold wf_entries. cbn [wf_node].
  rewrite !andb_true_iff, wf_children, distinct_NoDup, forallb_forall.
  rewrite !Forall_forall. split.
  - intros [[H1 H2] H3]. split; [| assumption].
    intros e He. split; [| now apply H3].
    apply H1. now apply in_map.
  - intros [H1 H2]. repeat split; try assumption.
    + intros x Hx. apply in_map_iff in Hx as [e [<- He]]. now apply H1.
    + intros e He. now apply H1.
Qed.

Lemma wf_find es k c :
  wf_entries es -> find_entry k es = Some c ->
  plain_name k = true /\ wf_node c = true.
Proof.
  intros [H _] Hf. apply find_entry_In in Hf.
  rewrite Forall_forall in H. exact (H _ Hf).
Qed.

Lemma wf_resolve n p m :
  wf_node n = true -> resolve n p = Some m -> wf_node m = true.
Proof.
  revert n. induction p as [| c p IH]; intros n Hn Hr.
  - simpl in Hr. congruence.
  - destruct n as [d t | es]; [discriminate |].
    simpl in Hr. destruct (is_dot c); [now apply (IH (Dir es)) |].
    destruct (find_entry c es) as [x |] eqn:Ef; [| discriminate].
    apply wf_dir in Hn. destruct (wf_find _ Hn Ef) as [_ Hx].
    now apply (IH x).
Qed.

Lemma need_dir_child es k c fuel :
  need (Dir es) <= S fuel -> In (k, c) es -> is_dir c = true -> need c <= fuel.
Proof.
  cbn [need]. intros H Hin Hd. apply le_S_n in H.
  induction es as [| [k0 c0] es IH]; [contradiction |].
  destruct Hin as [[= -> ->] | Hin].
  - rewrite Hd in H. lia.
  - apply IH; [lia | assumption].
Qed.

Lemma need_pos n : 1 <= need n.
Proof. destruct n; simpl; lia. Qed.

(* ===================================================================== *)
(** ** The reverse pass *)
(* ===================================================================== *)

Lemma is_file_prune keep rel c : is_file (prune keep rel c) = is_file c.
Proof. now destruct c. Qed.

Lemma is_dir_prune keep rel c : is_dir (prune keep rel c) = is_dir c.
Proof. now destruct c. Qed.

Lemma prune_dir keep rel es :
  prune keep rel (Dir es) =
  Dir (filter (kept keep rel) (map (pruned keep rel) es)).
Proof.
  cbn [prune]. f_equal.
  induction es as [| [k c] es IH]; [reflexivity |].
  cbn [map filter]. unfold kept at 1, pruned at 1. cbn [fst snd].
  rewrite IH. reflexivity.
Qed.

Lemma prune_log_dir keep replica rel es :
  prune_log keep replica rel (Dir es) =
  below_log keep replica rel es ++
  file_removals keep replica rel es ++ folder_removals keep replica rel es.
Proof.
  cbn [prune_log]. f_equal.
  induction es as [| [k c] es IH]; [reflexivity |].
  cbn [below_log]. now rewrite IH.
Qed.

Lemma file_removals_pruned keep replica rel l :
  file_removals keep replica rel (map (pruned keep rel) l) =
  file_removals keep replica rel l.
Proof.
  induction l as [| [k c] l IH]; [reflexivity |].
  cbn [map file_removals pruned fst snd]. now rewrite is_file_prune, IH.
Qed.

Lemma folder_removals_pruned keep replica rel l :
  folder_removals keep replica rel (map (pruned keep rel) l) =
  folder_removals keep replica rel l.
Proof.
  induction l as [| [k c] l IH]; [reflexivity |].
  cbn [map folder_removals pruned fst snd]. now rewrite is_dir_prune, IH.
Qed.

Lemma keeps_file_eq keep rel k c :
  keeps_file keep rel (k, c) = is_dir c || keep (rel ++ [k]).
Proof. reflexivity. Qed.

Lemma keeps_folder_eq keep rel k c :
  keeps_folder keep rel (k, c) = is_file c || keep (rel ++ [k]).
Proof. reflexivity. Qed.

Lemma kept_eq keep rel k (c : node) : kept keep rel (k, c) = keep (rel ++ [k]).
Proof. reflexivity. Qed.

Lemma folder_removals_filter keep replica rel l :
  folder_removals keep replica rel (filter (keeps_file keep rel) l) =
  folder_removals keep replica rel l.
Proof.
  induction l as [| [k c] l IH]; [reflexivity |].
  cbn [filter folder_removals]. rewrite keeps_file_eq.
  destruct (is_dir c) eqn:Ed; cbn [orb andb].
  - cbn [folder_removals]. now rewrite Ed, IH.
  - destruct (keep (rel ++ [k])); cbn [folder_removals]; now rewrite ?Ed, IH.
Qed.

Lemma filter_kept_twice keep rel (l : list (name * node)) :
  filter (keeps_folder keep rel) (filter (keeps_file keep rel) l) =
  filter (kept keep rel) l.
Proof.
  induction l as [| [k c] l IH]; [reflexivity |].
  cbn [filter]. rewrite keeps_file_eq, kept_eq.
  destruct c as [d m | es]; cbn [is_dir is_file orb];
    destruct (keep (rel ++ [k])) eqn:Ek; cbn [filter];
    rewrite ?keeps_folder_eq; cbn [is_file orb]; rewrite ?Ek, IH; reflexivity.
Qed.

Lemma dirs_of_pruned keep rel (l : list (name * node)) :
  map fst (filter (fun e => is_dir (snd e)) (map (pruned keep rel) l)) =
  map fst (filter (fun e => is_dir (snd e)) l).
Proof.
  induction l as [| [k c] l IH]; [reflexivity |].
  cbn [map filter pruned fst snd]. rewrite is_dir_prune.
  destruct (is_dir c); cbn [map fst]; now rewrite IH.
Qed.

Lemma files_of_pruned keep rel (l : list (name * node)) :
  map fst (filter (fun e => is_file (snd e)) (map (pruned keep rel) l)) =
  map fst (filter (fun e => is_file (snd e)) l).
Proof.
  induction l as [| [k c] l IH]; [reflexivity |].
  cbn [map filter pruned fst snd]. rewrite is_file_prune.
  destruct (is_file c); cbn [map fst]; now rewrite IH.
Qed.

Lemma dirs_of_keeps_file keep rel (l : list (name * node)) :
  filter (fun e => is_dir (snd e)) (filter (keeps_file keep rel) l) =
  filter (fun e => is_dir (snd e)) l.
Proof.
  induction l as [| [k c] l IH]; [reflexivity |].
  cbn [filter]. rewrite keeps_file_eq.
  destruct c as [d m | es]; cbn [is_dir orb].
  - destruct (keep (rel ++ [k])); cbn [filter snd is_dir]; now rewrite IH.
  - cbn [filter snd is_dir]. now rewrite IH.
Qed.

Lemma map_fst_pruned keep rel (l : list (name * node)) :
  map fst (map (pruned keep rel) l) = map fst l.
Proof. rewrite map_map. reflexivity. Qed.

Lemma map_fst_filter_subset (f : name * node -> bool) l x :
  In x (map fst (filter f l)) -> In x (map fst l).
Proof.
  rewrite !in_map_iff. intros [e [He Hin]]. apply filter_In in Hin as [Hin _].
  now exists e.
Qed.

Lemma NoDup_map_fst_filter (f : name * node -> bool) l :
  NoDup (map fst l) -> NoDup (map fst (filter f l)).
Proof.
  induction l as [| e l IH]; [trivial |].
  cbn [map filter]. intros H. inversion H as [| ? ? Hn Hd]; subst.
  destruct (f e); [| now apply IH].
  cbn [map]. constructor; [| now apply IH].
  intros Hin. apply Hn. eapply map_fst_filter_subset. exact Hin.
Qed.

Lemma rewritten_id log_path p v w :
  plain_path p = true -> resolve (fs w) p = Some v ->
  rewritten log_path p v [] w = w.
Proof.
  intros Hp Hr. unfold rewritten.
  now rewrite (@graft_same _ _ _ Hp Hr), set_fs_same, emit_nil.
Qed.

Lemma rewritten_twice log_path p v1 m1 v2 m2 w :
  plain_path p = true -> resolve (fs w) p <> None ->
  rewritten log_path p v2 m2 (rewritten log_path p v1 m1 w) =
  rewritten log_path p v2 (m1 ++ m2) w.
Proof.
  intros Hp Hr. unfold rewritten.
  rewrite fs_emit, fs_set_fs, graft_graft by assumption.
  now rewrite set_fs_emit, emit_emit, set_fs_set_fs.
Qed.

Lemma fs_rewritten log_path p v ms w :
  fs (rewritten log_path p v ms w) = graft (fs w) p v.
Proof. reflexivity. Qed.

Lemma resolve_rewritten log_path p v ms w :
  plain_path p = true -> resolve (fs w) p <> None ->
  resolve (fs (rewritten log_path p v ms w)) p = Some v.
Proof. intros Hp Hr. rewrite fs_rewritten. now apply resolve_graft. Qed.

Lemma NoDup_mid_inv (pre post : list (name * node)) e :
  NoDup (map fst (pre ++ e :: post)) ->
  ~ In (fst e) (map fst pre) /\ ~ In (fst e) (map fst post) /\
  NoDup (map fst (pre ++ post)).
Proof.
  rewrite !map_app. cbn [map]. intros H.
  pose proof (NoDup_remove_1 _ _ _ H) as H1.
  pose proof (NoDup_remove_2 _ _ _ H) as H2.
  rewrite in_app_iff in H2. tauto.
Qed.

Lemma snoc_app A (pre : list A) e l : pre ++ e :: l = (pre ++ [e]) ++ l.
Proof. now rewrite <- app_assoc. Qed.

Section Reverse.
Variables source replica log_path : path.
Variable keep : path -> bool.
Variable J : node -> Prop.
Hypothesis plain_replica : plain_path replica = true.
Hypothesis J_keep : forall n rel x,
J n -> plain_path rel = true -> plain_name x = true ->
exists_at n ((source ++ os.relpath (replica ++ rel) replica) ++ [x]) =
keep (rel ++ [x]).
Hypothesis J_put : forall n x n',
J n -> put n (replica ++ x) None = Some n' -> J n'.

Section Directory.
Variable rel : path.
Hypothesis plain_rel : plain_path rel = true.

Lemma plain_top : plain_path (replica ++ rel) = true.
Proof. rewrite plain_path_app. now rewrite plain_replica, plain_rel. Qed.

Lemma resolve_entry w pre k c post :
resolve (fs w) (replica ++ rel) = Some (Dir (pre ++ (k, c) :: post)) ->
~ In k (map fst pre) -> plain_name k = true ->
resolve (fs w) ((replica ++ rel) ++ [k]) = Some c.
Proof.
intros Hr Hk Hp. rewrite resolve_app, Hr.
rewrite resolve_dir_plain by now apply plain_not_dot.
now rewrite find_entry_mid.
Qed.

Lemma prune_file_kept w k :
J (fs w) -> plain_name k = true -> keep (rel ++ [k]) = true ->
prune_file log_path (replica ++ rel)
  (source ++ os.relpath (replica ++ rel) replica) k w = (Val tt, w).
Proof.
intros Hj Hk Ek. unfold prune_file, bind, os.path_exists.
fold (exists_at (fs w)
        ((source ++ os.relpath (replica ++ rel) replica) ++ [k])).
rewrite (@J_keep _ _ _ Hj plain_rel Hk), Ek. reflexivity.
Qed.

Lemma prune_folder_kept w k :
J (fs w) -> plain_name k = true -> keep (rel ++ [k]) = true ->
prune_folder log_path (replica ++ rel)
  (source ++ os.relpath (replica ++ rel) replica) k w = (Val tt, w).
Proof.
intros Hj Hk Ek. unfold prune_folder, bind, os.path_exists.
fold (exists_at (fs w)
        ((source ++ os.relpath (replica ++ rel) replica) ++ [k])).
rewrite (@J_keep _ _ _ Hj plain_rel Hk), Ek. reflexivity.
Qed.

Lemma put_entry_none w pre k c post :
resolve (fs w) (replica ++ rel) = Some (Dir (pre ++ (k, c) :: post)) ->
~ In k (map fst pre) -> ~ In k (map fst post) -> plain_name k = true ->
put (fs w) ((replica ++ rel) ++ [k]) None =
Some (graft (fs w) (replica ++ rel) (Dir (pre ++ post))).
Proof.
intros Hr H1 H2 Hk.
rewrite (@put_child _ _ _ _ None plain_top Hk Hr). cbn [set_entry].
now rewrite del_entry_mid.
Qed.

Lemma prune_file_removed w pre k d m post :
J (fs w) -> plain_name k = true -> keep (rel ++ [k]) = false ->
resolve (fs w) (replica ++ rel) = Some (Dir (pre ++ (k, File d m) :: post)) ->
~ In k (map fst pre) -> ~ In k (map fst post) ->
prune_file log_path (replica ++ rel)
  (source ++ os.relpath (replica ++ rel) replica) k w =
(Val tt, rewritten log_path (replica ++ rel) (Dir (pre ++ post))
           [RemovedFile ((replica ++ rel) ++ [k])] w).
Proof.
intros Hj Hk Ek Hr H1 H2. unfold prune_file, bind, os.path_exists.
fold (exists_at (fs w)
        ((source ++ os.relpath (replica ++ rel) replica) ++ [k])).
rewrite (@J_keep _ _ _ Hj plain_rel Hk), Ek. cbn [negb when].
unfold bind, os.remove.
rewrite (@resolve_entry _ _ _ _ _ Hr H1 Hk).
rewrite (@put_entry_none _ _ _ _ _ Hr H1 H2 Hk). reflexivity.
Qed.

Lemma prune_folder_removed w pre k es post :
J (fs w) -> plain_name k = true -> keep (rel ++ [k]) = false ->
resolve (fs w) (replica ++ rel) = Some (Dir (pre ++ (k, Dir es) :: post)) ->
~ In k (map fst pre) -> ~ In k (map fst post) ->
prune_folder log_path (replica ++ rel)
  (source ++ os.relpath (replica ++ rel) replica) k w =
(Val tt, rewritten log_path (replica ++ rel) (Dir (pre ++ post))
           [RemovedFolder ((replica ++ rel) ++ [k])] w).
Proof.
intros Hj Hk Ek Hr H1 H2. unfold prune_folder, bind, os.path_exists.
fold (exists_at (fs w)
        ((source ++ os.relpath (replica ++ rel) replica) ++ [k])).
rewrite (@J_keep _ _ _ Hj plain_rel Hk), Ek. cbn [negb when].
unfold bind, shutil.rmtree.
rewrite (@resolve_entry _ _ _ _ _ Hr H1 Hk).
rewrite (@put_entry_none _ _ _ _ _ Hr H1 H2 Hk). reflexivity.
Qed.

Lemma J_removed w pre k c post :
J (fs w) -> plain_name k = true ->
resolve (fs w) (replica ++ rel) = Some (Dir (pre ++ (k, c) :: post)) ->
~ In k (map fst pre) -> ~ In k (map fst post) ->
J (graft (fs w) (replica ++ rel) (Dir (pre ++ post))).
Proof.
intros Hj Hk Hr H1 H2.
pose proof (@put_entry_none _ _ _ _ _ Hr H1 H2 Hk) as Hput.
rewrite <- app_assoc in Hput. eapply J_put; eassumption.
Qed.

Lemma files_done_nil pre w :
resolve (fs w) (replica ++ rel) = Some (Dir pre) ->
files_done keep replica log_path rel pre [] w = w.
Proof.
intros Hr. unfold files_done. cbn [filter file_removals].
rewrite app_nil_r. apply rewritten_id; [apply plain_top | assumption].
Qed.

Lemma files_done_skip pre k c l w :
keeps_file keep rel (k, c) = true ->
files_done keep replica log_path rel pre ((k, c) :: l) w =
files_done keep replica log_path rel (pre ++ [(k, c)]) l w.
Proof.
intros H. unfold files_done. cbn [filter file_removals]. rewrite H.
rewrite <- snoc_app. f_equal.
unfold keeps_file in H. cbn [fst snd] in H.
destruct c as [d m | es]; cbn [is_file is_dir orb andb] in *;
  [rewrite H |]; reflexivity.
Qed.

Lemma files_done_drop pre k d m l w :
keep (rel ++ [k]) = false ->
resolve (fs w) (replica ++ rel) <> None ->
files_done keep replica log_path rel pre ((k, File d m) :: l) w =
files_done keep replica log_path rel pre l
  (rewritten log_path (replica ++ rel) (Dir (pre ++ l))
     [RemovedFile ((replica ++ rel) ++ [k])] w).
Proof.
intros H Hr. unfold files_done. cbn [filter file_removals].
unfold keeps_file at 1. cbn [fst snd is_dir is_file orb andb]. rewrite H.
cbn [negb]. rewrite rewritten_twice by (apply plain_top || assumption).
reflexivity.
Qed.

(** The loop over the files of a directory of the replica. *)
Lemma files_loop : forall l pre w,
resolve (fs w) (replica ++ rel) = Some (Dir (pre ++ l)) ->
NoDup (map fst (pre ++ l)) ->
Forall (fun e => plain_name (fst e) = true) l ->
J (fs w) ->
for_each (map fst (filter (fun e => is_file (snd e)) l))
  (prune_file log_path (replica ++ rel)
     (source ++ os.relpath (replica ++ rel) replica)) w =
(Val tt, files_done keep replica log_path rel pre l w)
/\ J (fs (files_done keep replica log_path rel pre l w)).
Proof.
pose proof plain_top as Ht.
induction l as [| [k c] l IH]; intros pre w Hr Hnd Hpl Hj.
- rewrite app_nil_r in Hr. rewrite files_done_nil by assumption.
  now split.
- inversion Hpl as [| ? ? Hk Hpl']; subst. cbn [fst] in Hk.
  destruct (@NoDup_mid_inv _ _ _ Hnd) as [Hk1 [Hk2 Hnd']].
  cbn [fst] in Hk1, Hk2.
  destruct c as [d m | es].
  + cbn [filter snd is_file map fst for_each].
    destruct (keep (rel ++ [k])) eqn:Ek.
    * rewrite (@bind_val _ _ _ _ _ _ _ (@prune_file_kept _ _ Hj Hk Ek)).
      rewrite files_done_skip
        by (unfold keeps_file; cbn [fst snd is_dir orb]; exact Ek).
      rewrite snoc_app in Hr, Hnd. now apply IH.
    * rewrite (@bind_val _ _ _ _ _ _ _ (@prune_file_removed _ _ _ _ _ _ Hj Hk Ek Hr Hk1 Hk2)).
      rewrite files_done_drop by (assumption || congruence).
      apply IH; try assumption.
      -- apply resolve_rewritten; [assumption | congruence].
      -- rewrite fs_rewritten. eapply J_removed; eassumption.
  + cbn [filter snd is_file].
    rewrite files_done_skip by reflexivity.
    rewrite snoc_app in Hr, Hnd. now apply IH.
Qed.

Lemma folders_done_nil pre w :
resolve (fs w) (replica ++ rel) = Some (Dir pre) ->
folders_done keep replica log_path rel pre [] w = w.
Proof.
intros Hr. unfold folders_done. cbn [filter folder_removals].
rewrite app_nil_r. apply rewritten_id; [apply plain_top | assumption].
Qed.

Lemma folders_done_skip pre k c l w :
keeps_folder keep rel (k, c) = true ->
folders_done keep replica log_path rel pre ((k, c) :: l) w =
folders_done keep replica log_path rel (pre ++ [(k, c)]) l w.
Proof.
intros H. unfold folders_done. cbn [filter folder_removals]. rewrite H.
rewrite <- snoc_app. f_equal.
unfold keeps_folder in H. cbn [fst snd] in H.
destruct c as [d m | es]; cbn [is_file is_dir orb andb] in *;
  [| rewrite H]; reflexivity.
Qed.

Lemma folders_done_drop pre k es l w :
keep (rel ++ [k]) = false ->
resolve (fs w) (replica ++ rel) <> None ->
folders_done keep replica log_path rel pre ((k, Dir es) :: l) w =
folders_done keep replica log_path rel pre l
  (rewritten log_path (replica ++ rel) (Dir (pre ++ l))
     [RemovedFolder ((replica ++ rel) ++ [k])] w).
Proof.
intros H Hr. unfold folders_done. cbn [filter folder_removals].
unfold keeps_folder at 1. cbn [fst snd is_dir is_file orb andb]. rewrite H.
cbn [negb]. rewrite rewritten_twice by (apply plain_top || assumption).
reflexivity.
Qed.

(** The loop over the sub-directories of a directory of the replica. *)
Lemma folders_loop : forall l pre w,
resolve (fs w) (replica ++ rel) = Some (Dir (pre ++ l)) ->
NoDup (map fst (pre ++ l)) ->
Forall (fun e => plain_name (fst e) = true) l ->
J (fs w) ->
for_each (map fst (filter (fun e => is_dir (snd e)) l))
  (prune_folder log_path (replica ++ rel)
     (source ++ os.relpath (replica ++ rel) replica)) w =
(Val tt, folders_done keep replica log_path rel pre l w)
/\ J (fs (folders_done keep replica log_path rel pre l w)).
Proof.
pose proof plain_top as Ht.
induction l as [| [k c] l IH]; intros pre w Hr Hnd Hpl Hj.
- rewrite app_nil_r in Hr. rewrite folders_done_nil by assumption.
  now split.
- inversion Hpl as [| ? ? Hk Hpl']; subst. cbn [fst] in Hk.
  destruct (@NoDup_mid_inv _ _ _ Hnd) as [Hk1 [Hk2 Hnd']].
  cbn [fst] in Hk1, Hk2.
  destruct c as [d m | es].
  + cbn [filter snd is_dir].
    rewrite folders_done_skip by reflexivity.
    rewrite snoc_app in Hr, Hnd. now apply IH.
  + cbn [filter snd is_dir map fst for_each].
    destruct (keep (rel ++ [k])) eqn:Ek.
    * rewrite (@bind_val _ _ _ _ _ _ _ (@prune_folder_kept _ _ Hj Hk Ek)).
      rewrite folders_done_skip
        by (unfold keeps_folder; cbn [fst snd is_file orb]; exact Ek).
      rewrite snoc_app in Hr, Hnd. now apply IH.
    * rewrite (@bind_val _ _ _ _ _ _ _ (@prune_folder_removed _ _ _ _ _ Hj Hk Ek Hr Hk1 Hk2)).
      rewrite folders_done_drop by (assumption || congruence).
      apply IH; try assumption.
      -- apply resolve_rewritten; [assumption | congruence].
      -- rewrite fs_rewritten. eapply J_removed; eassumption.
Qed.

Lemma children_done_nil pre w :
resolve (fs w) (replica ++ rel) = Some (Dir pre) ->
children_done keep replica log_path rel pre [] w = w.
Proof.
intros Hr. unfold children_done. cbn [map below_log].
rewrite app_nil_r. apply rewritten_id; [apply plain_top | assumption].
Qed.

Lemma children_done_file pre k d m l w :
children_done keep replica log_path rel pre ((k, File d m) :: l) w =
children_done keep replica log_path rel (pre ++ [(k, File d m)]) l w.
Proof.
unfold children_done. cbn [map below_log prune_log app].
now rewrite <- snoc_app.
Qed.

Lemma children_done_dir pre k es l w :
resolve (fs w) (replica ++ rel) <> None ->
children_done keep replica log_path rel pre ((k, Dir es) :: l) w =
children_done keep replica log_path rel
  (pre ++ [(k, prune keep (rel ++ [k]) (Dir es))]) l
  (rewritten log_path (replica ++ rel)
     (Dir (pre ++ (k, prune keep (rel ++ [k]) (Dir es)) :: l))
     (prune_log keep replica (rel ++ [k]) (Dir es)) w).
Proof.
intros Hr. unfold children_done.
rewrite rewritten_twice by (apply plain_top || assumption).
cbn [map below_log]. unfold pruned at 1. cbn [fst snd].
now rewrite <- snoc_app.
Qed.

(** Rewriting an entry of a directory is rewriting the directory. *)
Lemma rewritten_entry w pre k c c' post ms :
resolve (fs w) (replica ++ rel) = Some (Dir (pre ++ (k, c) :: post)) ->
~ In k (map fst pre) -> plain_name k = true ->
rewritten log_path (replica ++ rel ++ [k]) c' ms w =
rewritten log_path (replica ++ rel) (Dir (pre ++ (k, c') :: post)) ms w.
Proof.
intros Hr Hk Hp. unfold rewritten. do 2 f_equal.
rewrite app_assoc.
rewrite (@graft_app _ _ _ _ _ plain_top Hr).
rewrite graft_cons by now apply plain_not_dot.
rewrite find_entry_mid by assumption.
cbn [graft]. now rewrite add_entry_mid.
Qed.

(** The walk of the sub-directories of a directory of the replica. *)
Lemma children_loop fuel : forall l pre w,
Forall (fun e => reverse_walk_spec keep J source replica log_path (snd e)) l ->
resolve (fs w) (replica ++ rel) = Some (Dir (pre ++ l)) ->
NoDup (map fst (pre ++ l)) ->
Forall (fun e => plain_name (fst e) = true /\ wf_node (snd e) = true) l ->
Forall (fun e => is_dir (snd e) = true -> need (snd e) <= fuel) l ->
J (fs w) ->
for_each (map fst (filter (fun e => is_dir (snd e)) l))
  (fun dirname =>
     os.walk fuel false ((replica ++ rel) ++ [dirname])
       (reverse_body source replica log_path)) w =
(Val tt, children_done keep replica log_path rel pre l w)
/\ J (fs (children_done keep replica log_path rel pre l w)).
Proof.
pose proof plain_top as Ht.
induction l as [| [k c] l IH]; intros pre w Hspec Hr Hnd Hwf Hneed Hj.
- rewrite app_nil_r in Hr. rewrite children_done_nil by assumption.
  now split.
- inversion Hspec as [| ? ? Hc Hspec']; subst. cbn [snd] in Hc.
  inversion Hwf as [| ? ? [Hk Hwc] Hwf']; subst. cbn [fst snd] in Hk, Hwc.
  inversion Hneed as [| ? ? Hnc Hneed']; subst. cbn [snd] in Hnc.
  destruct (@NoDup_mid_inv _ _ _ Hnd) as [Hk1 [Hk2 Hnd']].
  cbn [fst] in Hk1, Hk2.
  destruct c as [d m | es].
  + cbn [filter snd is_dir]. rewrite children_done_file.
    rewrite snoc_app in Hr, Hnd. now apply IH.
  + cbn [filter snd is_dir map fst for_each].
    assert (Hpk : plain_path (rel ++ [k]) = true).
    { rewrite plain_path_app, plain_rel. cbn. now rewrite Hk. }
    assert (Hrk : resolve (fs w) (replica ++ rel ++ [k]) = Some (Dir es)).
    { rewrite app_assoc. now apply (@resolve_entry _ _ _ _ _ Hr Hk1 Hk). }
    destruct (Hc (rel ++ [k]) fuel w Hwc Hpk (Hnc eq_refl) Hrk Hj)
      as [Hwalk Hj1].
    rewrite <- app_assoc.
    rewrite (@bind_val _ _ _ _ _ _ _ Hwalk).
    rewrite (@rewritten_entry _ _ _ _ _ _ _ Hr Hk1 Hk).
    rewrite children_done_dir by congruence.
    assert (Hr1 : resolve (fs w) (replica ++ rel) <> None) by congruence.
    apply IH; try assumption.
    * rewrite <- snoc_app. now apply resolve_rewritten.
    * rewrite <- snoc_app. rewrite !map_app in *. exact Hnd.
    * rewrite fs_rewritten.
      rewrite <- (@fs_rewritten log_path _ _
                    (prune_log keep replica (rel ++ [k]) (Dir es))).
      rewrite <- (@rewritten_entry _ _ _ _ _ _ _ Hr Hk1 Hk).
      rewrite fs_rewritten. exact Hj1.
Qed.

End Directory.

(** The bottom-up walk, on every tree. *)
Lemma reverse_walk r : reverse_walk_spec keep J source replica log_path r.
Proof.
induction r as [d m | es IH] using node_ind;
  intros rel fuel w Hwf Hrel Hfuel Hr Hj.
- destruct fuel as [| fuel]; [cbn in Hfuel; lia |].
  cbn [os.walk prune prune_log]. unfold scandir. rewrite Hr.
  rewrite rewritten_id by (assumption || now apply plain_top).
  rewrite (@graft_same _ _ _ (plain_top _ Hrel) Hr). now split.
- destruct fuel as [| fuel]; [cbn in Hfuel; lia |].
  pose proof (plain_top _ Hrel) as Ht.
  apply wf_dir in Hwf. destruct Hwf as [Hall Hnd].
  assert (Hplain : Forall (fun e : name * node => plain_name (fst e) = true) es).
  { eapply Forall_impl; [| exact Hall]. now intros e [H _]. }
  assert (Hneed : Forall (fun e : name * node =>
                            is_dir (snd e) = true -> need (snd e) <= fuel) es).
  { apply Forall_forall. intros [k c] Hin Hd.
    eapply need_dir_child; eassumption. }
  cbn [os.walk]. unfold scandir. rewrite Hr.
  (* the sub-directories *)
  destruct (@children_loop rel Hrel fuel es [] w IH Hr Hnd Hall Hneed Hj)
    as [H1 Hj1].
  rewrite (@bind_val _ _ _ _ _ _ _ H1).
  set (w1 := children_done keep replica log_path rel [] es w) in *.
  assert (Hr1 : resolve (fs w1) (replica ++ rel) =
                Some (Dir ([] ++ map (pruned keep rel) es))).
  { apply resolve_rewritten; [assumption | congruence]. }
  (* the files *)
  unfold reverse_body.
  rewrite <- (files_of_pruned keep rel es).
  assert (Hnd1 : NoDup (map fst ([] ++ map (pruned keep rel) es))).
  { cbn [app]. now rewrite map_fst_pruned. }
  assert (Hplain1 : Forall (fun e : name * node => plain_name (fst e) = true)
                      (map (pruned keep rel) es)).
  { apply Forall_map. exact Hplain. }
  destruct (@files_loop rel Hrel _ [] w1 Hr1 Hnd1 Hplain1 Hj1) as [H2 Hj2].
  rewrite (@bind_val _ _ _ _ _ _ _ H2).
  set (w2 := files_done keep replica log_path rel []
               (map (pruned keep rel) es) w1) in *.
  assert (Hr2 : resolve (fs w2) (replica ++ rel) =
                Some (Dir ([] ++ filter (keeps_file keep rel)
                                   (map (pruned keep rel) es)))).
  { apply resolve_rewritten; [assumption | congruence]. }
  (* the sub-directories again *)
  rewrite <- (dirs_of_pruned keep rel es).
  rewrite <- (dirs_of_keeps_file keep rel (map (pruned keep rel) es)).
  assert (Hnd2 : NoDup (map fst ([] ++ filter (keeps_file keep rel)
                                         (map (pruned keep rel) es)))).
  { cbn [app]. apply NoDup_map_fst_filter. exact Hnd1. }
  assert (Hplain2 : Forall (fun e : name * node => plain_name (fst e) = true)
                      (filter (keeps_file keep rel) (map (pruned keep rel) es))).
  { apply Forall_forall. intros e He. apply filter_In in He as [He _].
    rewrite Forall_forall in Hplain1. now apply Hplain1. }
  destruct (@folders_loop rel Hrel _ [] w2 Hr2 Hnd2 Hplain2 Hj2) as [H3 Hj3].
  rewrite H3.
  (* the three states composed *)
  assert (E : folders_done keep replica log_path rel []
                (filter (keeps_file keep rel) (map (pruned keep rel) es)) w2 =
              rewritten log_path (replica ++ rel) (prune keep rel (Dir es))
                (prune_log keep replica rel (Dir es)) w).
  { unfold w2, w1, folders_done, files_done, children_done. cbn [app].
    rewrite !rewritten_twice
      by (try assumption; try congruence;
          rewrite resolve_rewritten; congruence).
    rewrite prune_dir, prune_log_dir, filter_kept_twice.
    rewrite file_removals_pruned, folder_removals_filter,
      folder_removals_pruned.
    now rewrite <- ?app_assoc. }
  rewrite E in *. split; [reflexivity | exact Hj3].
Qed.

End Reverse.

(* ===================================================================== *)
(** ** Writes and well-formed trees *)
(* ===================================================================== *)

Lemma in_map_fst_add c v es x :
  In x (map fst (add_entry c v es)) -> x = c \/ In x (map fst es).
Proof.
  induction es as [| [k v0] es IH]; simpl.
  - intros [H | []]. left. now symmetry.
  - eqb_cases c k; simpl; intros [H | H].
    + right. now left.
    + right. now right.
    + right. now left.
    + destruct (IH H) as [H1 | H1]; [now left | right; now right].
Qed.

Lemma wf_add_entry c v es :
  wf_entries es -> plain_name c = true -> wf_node v = true ->
  wf_entries (add_entry c v es).
Proof.
  intros [Hall Hnd] Hc Hv. split.
  - induction es as [| [k v0] es IH]; cbn [add_entry].
    + constructor; [now split | constructor].
    + inversion Hall as [| ? ? [H1 H2] Hall']; subst.
      inversion Hnd; subst.
      eqb_cases c k.
      * constructor; [now split | assumption].
      * constructor; [now split | now apply IH].
  - induction es as [| [k v0] es IH]; cbn [add_entry map fst].
    + constructor; [intros [] | constructor].
    + inversion Hall as [| ? ? [H1 H2] Hall']; subst.
      inversion Hnd as [| ? ? Hn Hd]; subst.
      eqb_cases c k; cbn [map fst].
      * now constructor.
      * constructor; [| now apply IH].
        intros Hin. apply in_map_fst_add in Hin as [-> | Hin]; congruence.
Qed.

Lemma in_map_fst_del c es x :
  In x (map fst (del_entry c es)) -> In x (map fst es).
Proof.
  induction es as [| [k v0] es IH]; cbn [del_entry map fst]; [trivial |].
  eqb_cases c k; cbn [map fst]; intros H.
  - right. now apply IH.
  - destruct H as [<- | H]; [now left | right; now apply IH].
Qed.

Lemma wf_del_entry c es : wf_entries es -> wf_entries (del_entry c es).
Proof.
  intros [Hall Hnd]. split.
  - induction es as [| [k v0] es IH]; cbn [del_entry]; [constructor |].
    inversion Hall; subst. inversion Hnd; subst.
    eqb_cases c k; [now apply IH | constructor; [assumption | now apply IH]].
  - induction es as [| [k v0] es IH]; cbn [del_entry map fst]; [constructor |].
    inversion Hall; subst. inversion Hnd as [| ? ? Hn Hd]; subst.
    eqb_cases c k; [now apply IH |].
    cbn [map fst]. constructor; [| now apply IH].
    intros Hin. apply in_map_fst_del in Hin. contradiction.
Qed.

(** A write of a well-formed node under a plain name keeps the tree
    well formed. *)
Lemma wf_put p0 : forall n n' c v,
  wf_node n = true -> wf_node v = true -> plain_name c = true ->
  put n (p0 ++ [c]) (Some v) = Some n' -> wf_node n' = true.
Proof.
  induction p0 as [| k p0 IH]; intros n n' c v Hn Hv Hc Hput.
  - cbn [app put] in Hput. destruct n as [d m | es]; [discriminate |].
    rewrite (plain_not_dot _ Hc) in Hput. injection Hput as <-.
    apply wf_dir. cbn [set_entry]. apply wf_add_entry; try assumption.
    now apply wf_dir.
  - destruct n as [d m | es]; [discriminate |].
    change ((k :: p0) ++ [c]) with (k :: (p0 ++ [c])) in Hput.
    destruct (is_dot k) eqn:Ek.
    + cbn [put] in Hput. rewrite Ek in Hput.
      exact (IH _ _ _ _ Hn Hv Hc Hput).
    + rewrite put_cons_nonempty in Hput by (assumption || now destruct p0).
      destruct (find_entry k es) as [m |] eqn:Ef; [| discriminate].
      destruct (put m (p0 ++ [c]) (Some v)) as [m' |] eqn:Ep; [| discriminate].
      injection Hput as <-.
      apply wf_dir in Hn. destruct (wf_find _ Hn Ef) as [Hk Hm].
      apply wf_dir. apply wf_add_entry; try assumption.
      exact (IH _ _ _ _ Hm Hv Hc Ep).
Qed.

Lemma wf_put_none p : forall n n',
  wf_node n = true -> put n p None = Some n' -> wf_node n' = true.
Proof.
  induction p as [| k p IH]; intros n n' Hn Hput; [discriminate |].
  destruct n as [d m | es]; [discriminate |].
  destruct (is_dot k) eqn:Ek.
  - cbn [put] in Hput. rewrite Ek in Hput. eapply IH; eassumption.
  - destruct p as [| k' p].
    + cbn [put] in Hput. rewrite Ek in Hput. injection Hput as <-.
      apply wf_dir. cbn [set_entry]. apply wf_del_entry. now apply wf_dir.
    + rewrite put_cons_nonempty in Hput by (assumption || discriminate).
      destruct (find_entry k es) as [m |] eqn:Ef; [| discriminate].
      destruct (put m (k' :: p) None) as [m' |] eqn:Ep; [| discriminate].
      injection Hput as <-.
      apply wf_dir in Hn. destruct (wf_find _ Hn Ef) as [Hk Hm].
      apply wf_dir. apply wf_add_entry; try assumption.
      eapply IH; eassumption.
Qed.

Lemma put_trailing_dot p : forall n v, put n (p ++ ["."]) v = None.
Proof.
  induction p as [| k p IH]; intros n v.
  - cbn. now destruct n.
  - destruct n as [d m | es]; [reflexivity |].
    change ((k :: p) ++ ["."]) with (k :: (p ++ ["."])).
    destruct (is_dot k) eqn:Ek.
    + cbn [put]. rewrite Ek. apply IH.
    + rewrite put_cons_nonempty by (assumption || now destruct p).
      destruct (find_entry k es); [| reflexivity]. now rewrite IH.
Qed.

(* ===================================================================== *)
(** ** Writes that only add *)
(* ===================================================================== *)

(** A file written where nothing or a file was: every other file stays,
    and the file at the place of the write becomes the new one. *)
Lemma put_file_cases p : forall n n' v q d m,
  put n p (Some v) = Some n' ->
  resolve n p = None \/ file_at n p = true ->
  plain_path q = true ->
  resolve n q = Some (File d m) ->
  resolve n' q = Some (File d m) \/
  (q = canon p /\ resolve n' q = Some v /\ resolve n p = Some (File d m)).
Proof.
  unfold file_at.
  induction p as [| c p IH]; intros n n' v q d m Hput Hfree Hq Hr;
    [discriminate |].
  destruct n as [d0 m0 | es]; [discriminate |].
  destruct (is_dot c) eqn:Ec.
  - cbn [put resolve canon filter] in *. rewrite Ec in *. cbn [negb].
    eapply IH; eassumption.
  - assert (Ecanon : canon (c :: p) = c :: canon p).
    { unfold canon. cbn [filter]. now rewrite Ec. }
    rewrite Ecanon.
    destruct q as [| k q]; [discriminate |].
    cbn [plain_path forallb] in Hq. apply andb_prop in Hq as [Hk Hq].
    pose proof (plain_not_dot _ Hk) as Hk'.
    rewrite resolve_dir_plain in Hr by assumption.
    rewrite (@resolve_dir_plain es c p Ec) in Hfree.
    destruct p as [| c' p].
    + cbn [put] in Hput. rewrite Ec in Hput. injection Hput as <-.
      cbn [set_entry]. rewrite resolve_dir_plain by assumption.
      eqb_cases c k.
      * rewrite find_add_same.
        destruct (find_entry k es) as [x |] eqn:Ef; [| discriminate].
        cbn [resolve] in Hfree.
        destruct x as [dx mx | esx];
          [| destruct Hfree; discriminate].
        destruct q as [| k' q]; [| discriminate].
        right. cbn [canon filter resolve] in *.
        rewrite Ec, Ef. auto.
      * rewrite find_add_other by assumption. now left.
    + rewrite put_cons_nonempty in Hput by (assumption || discriminate).
      destruct (find_entry c es) as [x |] eqn:Ef; [| discriminate].
      destruct (put x (c' :: p) (Some v)) as [x' |] eqn:Ep; [| discriminate].
      injection Hput as <-.
      rewrite resolve_dir_plain by assumption.
      eqb_cases c k.
      * rewrite find_add_same. rewrite Ef in Hr.
        destruct (IH _ _ _ _ _ _ Ep Hfree Hq Hr) as [H | [H1 [H2 H3]]].
        -- now left.
        -- right. subst q. repeat split; try assumption.
           rewrite resolve_dir_plain by assumption. now rewrite Ef.
      * rewrite find_add_other by assumption. now left.
Qed.

(** Such a write keeps every directory a directory. *)
Lemma put_keeps_dirs p : forall n n' v q,
  put n p (Some v) = Some n' ->
  resolve n p = None \/ file_at n p = true ->
  plain_path q = true ->
  dir_at n q = true -> dir_at n' q = true.
Proof.
  unfold file_at, dir_at.
  induction p as [| c p IH]; intros n n' v q Hput Hfree Hq Hr;
    [discriminate |].
  destruct n as [d0 m0 | es]; [discriminate |].
  destruct (is_dot c) eqn:Ec.
  - cbn [put resolve] in *. rewrite Ec in *. eapply IH; eassumption.
  - rewrite (@resolve_dir_plain es c p Ec) in Hfree.
    assert (Hn' : exists es', n' = Dir es' /\
              forall k, k <> c -> find_entry k es' = find_entry k es).
    { destruct p as [| c' p].
      - cbn [put] in Hput. rewrite Ec in Hput. injection Hput as <-.
        eexists. split; [reflexivity |]. intros k Hk. cbn [set_entry].
        apply find_add_other. congruence.
      - rewrite put_cons_nonempty in Hput by (assumption || discriminate).
        destruct (find_entry c es) as [x |]; [| discriminate].
        destruct (put x (c' :: p) (Some v)) as [x' |]; [| discriminate].
        injection Hput as <-.
        eexists. split; [reflexivity |]. intros k Hk.
        apply find_add_other. congruence. }
    destruct Hn' as [es' [-> Hother]].
    destruct q as [| k q]; [reflexivity |].
    cbn [plain_path forallb] in Hq. apply andb_prop in Hq as [Hk Hq].
    pose proof (plain_not_dot _ Hk) as Hk'.
    rewrite resolve_dir_plain in Hr |- * by assumption.
    eqb_cases c k.
    + destruct (find_entry k es) as [x |] eqn:Ef; [| discriminate].
      destruct p as [| c' p].
      * cbn [resolve] in Hfree.
        destruct x as [dx mx | esx]; [| destruct Hfree; discriminate].
        destruct q; discriminate.
      * rewrite put_cons_nonempty in Hput by (assumption || discriminate).
        rewrite Ef in Hput.
        destruct (put x (c' :: p) (Some v)) as [x' |] eqn:Ep; [| discriminate].
        injection Hput as <-. rewrite find_add_same.
        eapply IH; eassumption.
    + rewrite Hother by congruence. exact Hr.
Qed.

(** It keeps every file a file. *)
Lemma put_keeps_files p n n' v q :
  put n p (Some v) = Some n' ->
  resolve n p = None \/ file_at n p = true ->
  is_file v = true ->
  plain_path q = true ->
  file_at n q = true -> file_at n' q = true.
Proof.
  intros Hput Hfree Hv Hq Hf. unfold file_at in Hf |- *.
  destruct (resolve n q) as [[d m | es] |] eqn:Er; try discriminate.
  destruct (@put_file_cases _ _ _ _ _ _ _ Hput Hfree Hq Er) as [-> | [_ [-> _]]];
    [reflexivity |].
  now destruct v.
Qed.

(* ===================================================================== *)
(** ** Steps of the forward pass *)
(* ===================================================================== *)

Lemma forallb_rev A (f : A -> bool) l : forallb f (rev l) = forallb f l.
Proof.
  induction l as [| x l IH]; [reflexivity |].
  cbn [rev forallb]. rewrite forallb_app, IH. cbn [forallb].
  rewrite andb_true_r. apply andb_comm.
Qed.

Section Grown.
Variable log_path : path.

Lemma grown_refl w : grown log_path w w.
Proof.
repeat split; auto. exists []. split; [| reflexivity].
now rewrite set_fs_same, emit_nil.
Qed.

Lemma grown_trans w0 w1 w2 :
grown log_path w0 w1 -> grown log_path w1 w2 -> grown log_path w0 w2.
Proof.
intros [A1 [B1 [C1 [ms1 [E1 F1]]]]] [A2 [B2 [C2 [ms2 [E2 F2]]]]].
repeat split; auto.
exists (ms1 ++ ms2). split.
- rewrite E2 at 1. rewrite E1 at 1.
  rewrite set_fs_emit, emit_emit, set_fs_set_fs. reflexivity.
- rewrite forallb_app, F1, F2. reflexivity.
Qed.

(** A step that leaves the world alone. *)
Lemma grown_same w w' : w' = w -> grown log_path w w'.
Proof. intros ->. apply grown_refl. Qed.

Lemma grown_log m w :
forward_msg m = true -> grown log_path w (snd (log_message log_path m w)).
Proof.
intros Hm. rewrite log_message_emit. cbn [snd].
repeat split; auto. exists [m]. split.
- rewrite fs_emit, set_fs_same. reflexivity.
- cbn. now rewrite Hm.
Qed.

(** A write of the tree that only adds. *)
Lemma grown_put w p0 c v n' :
put (fs w) (p0 ++ [c]) (Some v) = Some n' ->
resolve (fs w) (p0 ++ [c]) = None \/ file_at (fs w) (p0 ++ [c]) = true ->
is_file v = true \/ resolve (fs w) (p0 ++ [c]) = None ->
plain_name c = true -> wf_node v = true ->
grown log_path w (set_fs n' w).
Proof.
intros Hput Hfree Hv Hc Hwf. repeat split; cbn [fs set_fs].
- intros Hw. eapply wf_put; [exact Hw | exact Hwf | exact Hc | exact Hput].
- intros q Hq. eapply put_keeps_dirs; eassumption.
- intros q Hq Hf. destruct Hv as [Hv | Hv].
  + eapply put_keeps_files; eassumption.
  + unfold file_at in *.
    destruct (resolve (fs w) q) as [[d m | es] |] eqn:Er; try discriminate.
    destruct (@put_file_cases _ _ _ _ _ _ _ Hput Hfree Hq Er)
      as [-> | [_ [_ H]]]; [reflexivity | congruence].
- exists []. split; [| reflexivity]. now rewrite emit_nil.
Qed.

Lemma grown_mkdir p0 c w :
plain_name c = true ->
grown log_path w (snd (os.mkdir (p0 ++ [c]) w)).
Proof.
intros Hc. unfold os.mkdir.
destruct (resolve (fs w) (p0 ++ [c])) eqn:Er; [apply grown_refl |].
destruct (put (fs w) (p0 ++ [c]) (Some (Dir []))) as [n' |] eqn:Ep;
  [| apply grown_refl].
cbn [snd]. eapply grown_put; eauto.
Qed.

Lemma grown_mkdir_dot p0 w :
grown log_path w (snd (os.mkdir (p0 ++ ["."]) w)).
Proof.
unfold os.mkdir.
destruct (resolve (fs w) (p0 ++ ["."])) eqn:Er; [apply grown_refl |].
rewrite put_trailing_dot. apply grown_refl.
Qed.

Lemma grown_mkdir_root w : grown log_path w (snd (os.mkdir [] w)).
Proof. apply grown_refl. Qed.

Lemma grown_mkdir_ok p w :
forallb name_ok p = true -> grown log_path w (snd (os.mkdir p w)).
Proof.
intros Hp. destruct (snoc_cases p) as [-> | [p0 [c ->]]].
- apply grown_mkdir_root.
- rewrite forallb_app in Hp. apply andb_prop in Hp as [_ Hc].
  cbn in Hc. rewrite andb_true_r in Hc. unfold name_ok in Hc.
  apply orb_prop in Hc as [Hc | Hc].
  + now apply grown_mkdir.
  + unfold is_dot in Hc. apply String.eqb_eq in Hc as ->.
    apply grown_mkdir_dot.
Qed.

Lemma grown_bind A B (m : M A) (f : A -> M B) w :
grown log_path w (snd (m w)) ->
(forall a w1, grown log_path w1 (snd (f a w1))) ->
grown log_path w (snd (bind m f w)).
Proof.
intros H1 H2. unfold bind. destruct (m w) as [[a | e |] w1]; cbn [snd] in *;
  try assumption.
eapply grown_trans; [exact H1 | apply H2].
Qed.

Lemma grown_makedirs_rev rname :
forallb name_ok rname = true ->
forall w, grown log_path w (snd (os.makedirs_rev rname w)).
Proof.
induction rname as [| tail rhead IH]; intros Hp w.
- apply grown_mkdir_root.
- cbn [forallb] in Hp. apply andb_prop in Hp as [Ht Hh].
  assert (Hall : forallb name_ok (rev (tail :: rhead)) = true).
  { cbn [rev]. rewrite forallb_app, forallb_rev, Hh. cbn. now rewrite Ht. }
  cbn [os.makedirs_rev]. apply grown_bind; [apply grown_refl |].
  intros e w1. destruct (negb e).
  + apply grown_bind.
    * rewrite ignore_exists_snd. now apply IH.
    * intros _ w2. destruct (is_dot tail); [apply grown_refl |].
      now apply grown_mkdir_ok.
  + now apply grown_mkdir_ok.
Qed.

Lemma grown_makedirs p w :
forallb name_ok p = true -> grown log_path w (snd (os.makedirs p w)).
Proof.
intros Hp. unfold os.makedirs. apply grown_makedirs_rev.
now rewrite forallb_rev.
Qed.

Lemma grown_copyfile src p0 c w :
plain_name c = true ->
grown log_path w (snd (shutil.copyfile src (p0 ++ [c]) w)).
Proof.
intros Hc. unfold shutil.copyfile.
destruct (shutil.samefile (fs w) src (p0 ++ [c])); [apply grown_refl |].
destruct (resolve (fs w) src) as [[d m | es] |]; try apply grown_refl.
destruct (resolve (fs w) (p0 ++ [c])) as [[d' m' | es'] |] eqn:Er;
  try apply grown_refl.
- destruct (put (fs w) (p0 ++ [c]) (Some (File d (clock w)))) as [n' |] eqn:Ep;
    [| apply grown_refl].
  cbn [snd]. eapply grown_put; eauto.
  right. unfold file_at. now rewrite Er.
- destruct (put (fs w) (p0 ++ [c]) (Some (File d (clock w)))) as [n' |] eqn:Ep;
    [| apply grown_refl].
  cbn [snd]. eapply grown_put; eauto.
Qed.

Lemma grown_copystat src p0 c w :
plain_name c = true ->
grown log_path w (snd (shutil.copystat src (p0 ++ [c]) w)).
Proof.
intros Hc. unfold shutil.copystat.
destruct (resolve (fs w) src) as [[d m | es] |]; try apply grown_refl.
destruct (resolve (fs w) (p0 ++ [c])) as [[d' m' | es'] |] eqn:Er;
  try apply grown_refl.
destruct (put (fs w) (p0 ++ [c]) (Some (File d' m))) as [n' |] eqn:Ep;
  [| apply grown_refl].
cbn [snd]. eapply grown_put; eauto.
right. unfold file_at. now rewrite Er.
Qed.

Lemma basename_snoc p c : basename (p ++ [c]) = c.
Proof. unfold basename. apply last_last. Qed.

Lemma grown_copy2 s0 f p0 w :
plain_name f = true ->
grown log_path w (snd (shutil.copy2 (s0 ++ [f]) (p0 ++ [f]) w)).
Proof.
intros Hf. unfold shutil.copy2.
apply grown_bind; [apply grown_refl |].
intros d w1. rewrite basename_snoc.
assert (E : exists p1, (if d then (p0 ++ [f]) ++ [f] else p0 ++ [f]) = p1 ++ [f]).
{ destruct d; eauto. }
destruct E as [p1 ->].
apply grown_bind; [now apply grown_copyfile |].
intros _ w2. now apply grown_copystat.
Qed.

Lemma grown_when c (m : M unit) w :
grown log_path w (snd (m w)) -> grown log_path w (snd (when c m w)).
Proof. destruct c; [trivial | intros _; apply grown_refl]. Qed.

Lemma grown_for_each A (xs : list A) (body : A -> M unit) :
(forall x w, In x xs -> grown log_path w (snd (body x w))) ->
forall w, grown log_path w (snd (for_each xs body w)).
Proof.
induction xs as [| x xs IH]; intros Hb w; [apply grown_refl |].
cbn [for_each]. apply grown_bind.
- apply Hb. now left.
- intros _ w1. apply IH. intros y w2 Hy. apply Hb. now right.
Qed.

Lemma grown_mirror_file root p0 f w :
plain_name f = true ->
grown log_path w (snd (mirror_file log_path root p0 f w)).
Proof.
intros Hf. unfold mirror_file.
apply grown_bind; [apply grown_refl |].
intros e w1. apply grown_bind.
- destruct (negb e); [apply grown_refl |].
  apply grown_bind; [rewrite calculate_hash_snd; apply grown_refl |].
  intros h1 w2.
  apply grown_bind; [rewrite calculate_hash_snd; apply grown_refl |].
  intros h2 w3. apply grown_refl.
- intros differs w2. apply grown_when. apply grown_bind.
  + now apply grown_copy2.
  + intros _ w3. now apply grown_log.
Qed.

Lemma name_ok_plain p : plain_path p = true -> forallb name_ok p = true.
Proof.
unfold plain_path. rewrite !forallb_forall. intros H x Hx.
unfold name_ok. now rewrite (H x Hx).
Qed.

Lemma name_ok_relpath source rel :
plain_path rel = true -> forallb name_ok (os.relpath (source ++ rel) source) = true.
Proof.
intros H. rewrite relpath_app. destruct rel; [reflexivity |].
now apply name_ok_plain.
Qed.

Lemma grown_mirror_folder source replica rel w :
plain_path replica = true -> plain_path rel = true ->
grown log_path w
  (snd (mirror_folder source replica log_path (source ++ rel) w)).
Proof.
intros Hr Hrel. unfold mirror_folder.
apply grown_bind; [apply grown_refl |].
intros e w1. apply grown_bind.
- apply grown_when. apply grown_bind.
  + apply grown_makedirs. rewrite forallb_app.
    now rewrite (name_ok_plain _ Hr), name_ok_relpath.
  + intros _ w2. now apply grown_log.
- intros _ w2. apply grown_refl.
Qed.

Lemma grown_ensure_replica replica w :
plain_path replica = true ->
grown log_path w (snd (ensure_replica replica log_path w)).
Proof.
intros Hr. unfold ensure_replica.
apply grown_bind; [apply grown_refl |].
intros e w1. apply grown_when. apply grown_bind.
- apply grown_makedirs. now apply name_ok_plain.
- intros _ w2. now apply grown_log.
Qed.

End Grown.

(* ===================================================================== *)
(** ** Fingerprints *)
(* ===================================================================== *)

Lemma firstn_nil_inv A n (l : list A) : firstn (S n) l = [] -> l = [].
Proof. destruct l; [reflexivity | discriminate]. Qed.

(** The chunks read from a file feed the hash object with all its
    bytes. *)
Lemma read_chunks_all : forall fuel h rest,
  List.length rest < fuel ->
  hashlib.fed (read_chunks fuel h rest) = hashlib.fed h ++ rest.
Proof.
  induction fuel as [| k IH]; intros h rest Hlen; [lia |].
  cbn [read_chunks].
  destruct (firstn 4096 rest) as [| b chunk] eqn:Ec.
  - apply firstn_nil_inv in Ec. subst. now rewrite app_nil_r.
  - rewrite IH.
    + cbn [hashlib.update hashlib.fed]. rewrite <- app_assoc, <- Ec.
      now rewrite firstn_skipn.
    + rewrite length_skipn.
      destruct rest as [| b0 rest]; [discriminate |]. cbn [List.length] in *. lia.
Qed.

Lemma calculate_hash_file p w d m :
  resolve (fs w) p = Some (File d m) ->
  calculate_hash p w = (Val (MD5.hexdigest d), w).
Proof.
  intros Hr. unfold calculate_hash, bind, open_rb, ret. rewrite Hr.
  unfold hashlib.hexdigest. rewrite read_chunks_all by lia. reflexivity.
Qed.

Lemma calculate_hash_inv p w h w' :
  calculate_hash p w = (Val h, w') ->
  exists d m, resolve (fs w) p = Some (File d m) /\
              h = MD5.hexdigest d /\ w' = w.
Proof.
  intros H. destruct (resolve (fs w) p) as [[d m | es] |] eqn:Er.
  - rewrite (@calculate_hash_file _ _ _ _ Er) in H. injection H as <- <-.
    now exists d, m.
  - unfold calculate_hash, bind, open_rb in H. rewrite Er in H. discriminate.
  - unfold calculate_hash, bind, open_rb in H. rewrite Er in H. discriminate.
Qed.

(* ===================================================================== *)
(** ** Listings *)
(* ===================================================================== *)

Lemma scandir_dir n top es :
  resolve n top = Some (Dir es) ->
  scandir n top =
  Some (map fst (filter (fun e => is_dir (snd e)) es),
        map fst (filter (fun e => is_file (snd e)) es)).
Proof. unfold scandir. now intros ->. Qed.

Lemma scandir_inv n top dirs files :
  scandir n top = Some (dirs, files) ->
  exists es, resolve n top = Some (Dir es) /\
             dirs = map fst (filter (fun e => is_dir (snd e)) es) /\
             files = map fst (filter (fun e => is_file (snd e)) es).
Proof.
  unfold scandir. destruct (resolve n top) as [[d m | es] |]; try discriminate.
  intros [= <- <-]. now exists es.
Qed.

Lemma scandir_none n top :
  dir_at n top = false -> scandir n top = None.
Proof.
  unfold scandir, dir_at. now destruct (resolve n top) as [[d m | es] |].
Qed.

Lemma find_entry_NoDup es k c :
  NoDup (map fst es) -> In (k, c) es -> find_entry k es = Some c.
Proof.
  induction es as [| [k0 c0] es IH]; [contradiction |].
  cbn [map fst find_entry]. intros Hnd Hin. inversion Hnd as [| ? ? Hn Hd]; subst.
  eqb_cases k k0.
  - destruct Hin as [[= ->] | Hin]; [reflexivity |].
    exfalso. apply Hn. change k0 with (fst (k0, c)). now apply in_map.
  - destruct Hin as [[= -> ->] | Hin]; [congruence | now apply IH].
Qed.

Lemma in_names_filter (f : name * node -> bool) es k :
  In k (map fst (filter f es)) -> exists c, In (k, c) es /\ f (k, c) = true.
Proof.
  rewrite in_map_iff. intros [[k0 c] [<- H]]. apply filter_In in H as [H1 H2].
  now exists c.
Qed.

Lemma names_filter_in (f : name * node -> bool) es k c :
  In (k, c) es -> f (k, c) = true -> In k (map fst (filter f es)).
Proof.
  intros H1 H2. apply in_map_iff. exists (k, c). split; [reflexivity |].
  apply filter_In. now split.
Qed.

(** The names that a well-formed directory lists. *)
Lemma listed_dir es k :
  wf_entries es -> In k (map fst (filter (fun e => is_dir (snd e)) es)) ->
  exists c, find_entry k es = Some c /\ is_dir c = true /\
            plain_name k = true /\ wf_node c = true.
Proof.
  intros Hwf Hin. apply in_names_filter in Hin as [c [Hin Hd]].
  exists c. pose proof (@find_entry_NoDup _ _ _ (proj2 Hwf) Hin) as Hf.
  destruct (@wf_find _ _ _ Hwf Hf). auto.
Qed.

Lemma listed_file es k :
  wf_entries es -> In k (map fst (filter (fun e => is_file (snd e)) es)) ->
  exists c, find_entry k es = Some c /\ is_file c = true /\
            plain_name k = true.
Proof.
  intros Hwf Hin. apply in_names_filter in Hin as [c [Hin Hd]].
  exists c. pose proof (@find_entry_NoDup _ _ _ (proj2 Hwf) Hin) as Hf.
  destruct (@wf_find _ _ _ Hwf Hf). auto.
Qed.

Lemma find_listed_dir es k c :
  find_entry k es = Some c -> is_dir c = true ->
  In k (map fst (filter (fun e => is_dir (snd e)) es)).
Proof.
  intros Hf Hd. apply find_entry_In in Hf.
  now apply (@names_filter_in (fun e => is_dir (snd e)) _ _ _ Hf).
Qed.

Lemma find_listed_file es k c :
  find_entry k es = Some c -> is_file c = true ->
  In k (map fst (filter (fun e => is_file (snd e)) es)).
Proof.
  intros Hf Hd. apply find_entry_In in Hf.
  now apply (@names_filter_in (fun e => is_file (snd e)) _ _ _ Hf).
Qed.

(* ===================================================================== *)
(** ** The paths of the forward pass *)
(* ===================================================================== *)

Lemma resolve_put_last p0 : forall n n' c v,
  plain_name c = true ->
  put n (p0 ++ [c]) (Some v) = Some n' -> resolve n' (p0 ++ [c]) = Some v.
Proof.
  induction p0 as [| k p0 IH]; intros n n' c v Hc Hput.
  - cbn [app] in *. destruct n as [d m | es]; [discriminate |].
    cbn [put] in Hput. rewrite (plain_not_dot _ Hc) in Hput.
    injection Hput as <-. rewrite resolve_dir_plain by now apply plain_not_dot.
    cbn [set_entry]. now rewrite find_add_same.
  - destruct n as [d m | es]; [discriminate |].
    change ((k :: p0) ++ [c]) with (k :: (p0 ++ [c])) in *.
    destruct (is_dot k) eqn:Ek.
    + cbn [put] in Hput. rewrite Ek in Hput.
      pose proof (IH _ _ _ _ Hc Hput) as H.
      destruct n' as [d' m' | es'].
      * destruct p0; discriminate.
      * cbn [resolve]. now rewrite Ek.
    + rewrite put_cons_nonempty in Hput by (assumption || now destruct p0).
      destruct (find_entry k es) as [x |] eqn:Ef; [| discriminate].
      destruct (put x (p0 ++ [c]) (Some v)) as [x' |] eqn:Ep; [| discriminate].
      injection Hput as <-. rewrite resolve_dir_plain by assumption.
      rewrite find_add_same. eapply IH; eassumption.
Qed.

Lemma dest_root source replica : dest source replica [] = replica ++ ["."].
Proof. unfold dest. rewrite relpath_app. reflexivity. Qed.

Lemma dest_below source replica rel :
  rel <> [] -> dest source replica rel = replica ++ rel.
Proof. unfold dest. rewrite relpath_app. now destruct rel. Qed.

Lemma resolve_dest_child source replica rel f n :
  resolve n (dest source replica rel ++ [f]) = resolve n ((replica ++ rel) ++ [f]).
Proof.
  destruct rel as [| k rel].
  - rewrite dest_root, app_nil_r, <- app_assoc. cbn [app].
    apply resolve_dot_mid.
  - now rewrite dest_below.
Qed.


Lemma canon_app p q : canon (p ++ q) = canon p ++ canon q.
Proof. unfold canon. apply filter_app. Qed.

Lemma canon_dest_child source replica rel x :
  plain_path replica = true -> plain_path rel = true -> plain_path x = true ->
  canon (dest source replica rel ++ x) = replica ++ rel ++ x.
Proof.
  intros Hr Hrel Hx. destruct rel as [| k rel].
  - rewrite dest_root, !canon_app. rewrite (canon_plain _ Hr), (canon_plain _ Hx).
    cbn. now rewrite app_nil_r.
  - rewrite dest_below by discriminate.
    rewrite <- app_assoc, !canon_app.
    now rewrite (canon_plain _ Hr), (canon_plain _ Hrel), (canon_plain _ Hx).
Qed.

Lemma exists_at_dest source replica rel n :
  exists_at n (dest source replica rel) =
  match rel with
  | [] => dir_at n replica
  | _ => exists_at n (replica ++ rel)
  end.
Proof.
  destruct rel as [| k rel].
  - rewrite dest_root. unfold exists_at, dir_at. rewrite resolve_dot_end.
    now destruct (resolve n replica) as [[d m | es] |].
  - now rewrite dest_below.
Qed.

Lemma exists_at_kinds n p : exists_at n p = dir_at n p || file_at n p.
Proof.
  unfold exists_at, dir_at, file_at.
  now destruct (resolve n p) as [[d m | es] |].
Qed.

Lemma grown_exists log_path w w' p :
  grown log_path w w' -> plain_path p = true ->
  exists_at (fs w) p = true -> exists_at (fs w') p = true.
Proof.
  intros [_ [Hd [Hf _]]] Hp. rewrite !exists_at_kinds.
  intros H. apply orb_prop in H as [H | H].
  - now rewrite (Hd _ Hp H).
  - rewrite (Hf _ Hp H). apply orb_true_r.
Qed.

Lemma grown_dest log_path source replica rel w w' :
  grown log_path w w' ->
  plain_path replica = true -> plain_path rel = true ->
  exists_at (fs w) (dest source replica rel) = true ->
  exists_at (fs w') (dest source replica rel) = true.
Proof.
  intros Hg Hr Hrel. rewrite !exists_at_dest. destruct rel as [| k rel].
  - destruct Hg as [_ [Hd _]]. now apply Hd.
  - apply (@grown_exists _ _ _ _ Hg). rewrite plain_path_app. now rewrite Hr, Hrel.
Qed.

(* ===================================================================== *)
(** ** Steps of the forward pass and the files already in place *)
(* ===================================================================== *)

Lemma path_exists_eq p w :
  os.path_exists p w = (Val (exists_at (fs w) p), w).
Proof. reflexivity. Qed.

Lemma path_isdir_eq p w :
  os.path_isdir p w = (Val (dir_at (fs w) p), w).
Proof. reflexivity. Qed.

(** A directory made somewhere leaves every file as it is. *)
Lemma mkdir_keeps_file p q d m w :
  plain_path q = true ->
  resolve (fs w) q = Some (File d m) ->
  resolve (fs (snd (os.mkdir p w))) q = Some (File d m).
Proof.
  intros Hq Hr. unfold os.mkdir.
  destruct (resolve (fs w) p) eqn:Ep; [exact Hr |].
  destruct (put (fs w) p (Some (Dir []))) as [n' |] eqn:Eput; [| exact Hr].
  cbn [snd fs set_fs].
  destruct (@put_file_cases _ _ _ _ _ _ _ Eput (or_introl Ep) Hq Hr)
    as [H | [_ [_ H]]]; [exact H | congruence].
Qed.

Lemma makedirs_rev_keeps_file q d m rname :
  plain_path q = true ->
  forall w, resolve (fs w) q = Some (File d m) ->
            resolve (fs (snd (os.makedirs_rev rname w))) q = Some (File d m).
Proof.
  intros Hq. induction rname as [| tail rhead IH]; intros w Hr.
  - now apply mkdir_keeps_file.
  - cbn [os.makedirs_rev].
    apply (inv_bind (fun w => resolve (fs w) q = Some (File d m))); [exact Hr |].
    intros e w1 Hr1. destruct (negb e).
    + apply (inv_bind (fun w => resolve (fs w) q = Some (File d m))).
      * rewrite ignore_exists_snd. now apply IH.
      * intros _ w2 Hr2. destruct (is_dot tail); [exact Hr2 |].
        now apply mkdir_keeps_file.
    + now apply mkdir_keeps_file.
Qed.

Lemma copystat_keeps_synced src dst p d w :
  plain_path p = true ->
  synced_to d p w -> synced_to d p (snd (shutil.copystat src dst w)).
Proof.
  intros Hp Hs. unfold shutil.copystat.
  destruct (resolve (fs w) src) as [[ds ms | es] |]; try exact Hs.
  destruct (resolve (fs w) dst) as [[dd md | es'] |] eqn:Ed; try exact Hs.
  destruct (put (fs w) dst (Some (File dd ms))) as [n' |] eqn:Eput; [| exact Hs].
  cbn [snd]. destruct Hs as [d' [m' [Hr Hh]]].
  assert (Hfree : resolve (fs w) dst = None \/ file_at (fs w) dst = true).
  { right. unfold file_at. now rewrite Ed. }
  destruct (@put_file_cases _ _ _ _ _ _ _ Eput Hfree Hp Hr)
    as [H | [_ [H1 H2]]].
  - exists d', m'. now split.
  - rewrite Ed in H2. injection H2 as -> ->.
    exists d', ms. now split.
Qed.

Section Forward.
Variables source replica log_path : path.
Variable s0 : option node.
Hypothesis plain_source : plain_path source = true.
Hypothesis plain_replica : plain_path replica = true.
Hypothesis apart : separate source replica = true.

Lemma resolve_source w q :
source_is source s0 w -> resolve (fs w) (source ++ q) = resolve_in s0 q.
Proof.
unfold source_is, resolve_in. intros <-. now rewrite resolve_app.
Qed.

Lemma resolve_in_app rel q s :
resolve_in s0 rel = Some s -> resolve_in s0 (rel ++ q) = resolve s q.
Proof.
unfold resolve_in. destruct s0 as [s1 |]; [| discriminate].
intros H. now rewrite resolve_app, H.
Qed.

Lemma plain_replica_app q :
plain_path q = true -> plain_path (replica ++ q) = true.
Proof. intros H. rewrite plain_path_app. now rewrite plain_replica, H. Qed.

Lemma copyfile_keeps_synced w rel f x q d m :
source_is source s0 w ->
plain_path rel = true -> plain_name f = true -> plain_path x = true ->
plain_path q = true ->
resolve_in s0 q = Some (File d m) ->
synced_to d (replica ++ q) w ->
synced_to d (replica ++ q)
  (snd (shutil.copyfile ((source ++ rel) ++ [f])
          (dest source replica rel ++ f :: x) w)).
Proof.
intros Hsrc Hrel Hf Hx Hq Hd Hs. unfold shutil.copyfile.
destruct (shutil.samefile _ _ _); [exact Hs |].
destruct (resolve (fs w) ((source ++ rel) ++ [f])) as [[ds ms | es] |] eqn:Es;
  try exact Hs.
set (dst := dest source replica rel ++ f :: x) in *.
assert (Hfree : forall y, resolve (fs w) dst = y ->
          (match y with Some (Dir _) => False | _ => True end) ->
          resolve (fs w) dst = None \/ file_at (fs w) dst = true).
{ intros y Hy Hok. unfold file_at. rewrite Hy.
  destruct y as [[? ? | ?] |]; auto; contradiction. }
assert (Hstep : forall n', put (fs w) dst (Some (File ds (clock w))) = Some n' ->
          (resolve (fs w) dst = None \/ file_at (fs w) dst = true) ->
          synced_to d (replica ++ q) (set_fs n' w)).
{ intros n' Eput Hfr. destruct Hs as [d' [m' [Hr Hh]]].
  destruct (@put_file_cases _ _ _ _ _ _ _ Eput Hfr (@plain_replica_app q Hq) Hr)
    as [H | [H1 [H2 _]]].
  - exists d', m'. now split.
  - unfold dst in H1.
    assert (Hfx : plain_path (f :: x) = true) by (cbn; now rewrite Hf).
    rewrite (@canon_dest_child source replica rel (f :: x) plain_replica Hrel Hfx) in H1.
    apply app_inv_head in H1. subst q.
    rewrite <- app_assoc in Es. rewrite (@resolve_source w _ Hsrc) in Es.
    change (f :: x) with ([f] ++ x) in Hd. rewrite app_assoc in Hd.
    rewrite (@resolve_in_app _ x _ Es) in Hd.
    destruct x as [| k x]; [| discriminate].
    cbn in Hd. injection Hd as <- <-.
    exists ds, (clock w). split; [exact H2 | reflexivity]. }
destruct (resolve (fs w) dst) as [[dd md | es'] |] eqn:Ed; try exact Hs.
- destruct (put (fs w) dst (Some (File ds (clock w)))) as [n' |] eqn:Eput;
    [| exact Hs].
  cbn [snd]. apply Hstep; [reflexivity |]. now apply (Hfree _ eq_refl).
- destruct (put (fs w) dst (Some (File ds (clock w)))) as [n' |] eqn:Eput;
    [| exact Hs].
  cbn [snd]. apply Hstep; [reflexivity |]. now apply (Hfree _ eq_refl).
Qed.

Lemma copy2_keeps_synced w rel f q d m :
source_is source s0 w ->
plain_path rel = true -> plain_name f = true -> plain_path q = true ->
resolve_in s0 q = Some (File d m) ->
synced_to d (replica ++ q) w ->
synced_to d (replica ++ q)
  (snd (shutil.copy2 ((source ++ rel) ++ [f])
          (dest source replica rel ++ [f]) w)).
Proof.
intros Hsrc Hrel Hf Hq Hd Hs. unfold shutil.copy2.
rewrite basename_snoc. unfold bind at 1. rewrite path_isdir_eq.
assert (E : exists x, plain_path x = true /\
          (if dir_at (fs w) (dest source replica rel ++ [f])
           then (dest source replica rel ++ [f]) ++ [f]
           else dest source replica rel ++ [f]) =
          dest source replica rel ++ f :: x).
{ destruct (dir_at _ _).
  - exists [f]. split; [cbn; now rewrite Hf | now rewrite <- app_assoc].
  - exists []. now split. }
destruct E as [x [Hx ->]].
apply (inv_bind (synced_to d (replica ++ q))).
- eapply copyfile_keeps_synced; eassumption.
- intros _ w1 Hs1. apply copystat_keeps_synced; [| exact Hs1].
  now apply plain_replica_app.
Qed.

Lemma mirror_file_keeps_synced w rel f q d m :
source_is source s0 w ->
plain_path rel = true -> plain_name f = true -> plain_path q = true ->
resolve_in s0 q = Some (File d m) ->
synced_to d (replica ++ q) w ->
synced_to d (replica ++ q)
  (snd (mirror_file log_path (source ++ rel) (dest source replica rel) f w)).
Proof.
intros Hsrc Hrel Hf Hq Hd Hs. unfold mirror_file.
unfold bind at 1. rewrite path_exists_eq.
assert (Hdiff : forall (c : M bool),
          (forall w0, snd (c w0) = w0) ->
          synced_to d (replica ++ q)
            (snd (bind c (fun differs =>
               when differs
                 (shutil.copy2 ((source ++ rel) ++ [f])
                    (dest source replica rel ++ [f]) ;;
                  log_message log_path
                    (CopiedFile ((source ++ rel) ++ [f])
                       (dest source replica rel ++ [f])))) w))).
{ intros c Hc. unfold bind at 1. specialize (Hc w).
  destruct (c w) as [[differs | e |] w1]; cbn [snd] in *; subst w1;
    try exact Hs.
  destruct differs; [| exact Hs]. cbn [when].
  apply (inv_bind (synced_to d (replica ++ q))).
  - eapply copy2_keeps_synced; eassumption.
  - intros _ w2 Hs2. exact Hs2. }
apply Hdiff. intros w0.
destruct (negb (exists_at (fs w) (dest source replica rel ++ [f])));
  [reflexivity |].
unfold bind. pose proof (calculate_hash_snd ((source ++ rel) ++ [f]) w0) as H1.
destruct (calculate_hash ((source ++ rel) ++ [f]) w0) as [[h1 | e |] w1];
  cbn [snd] in *; subst; try reflexivity.
pose proof (calculate_hash_snd (dest source replica rel ++ [f]) w0) as H2.
destruct (calculate_hash (dest source replica rel ++ [f]) w0) as [[h2 | e |] w1];
  cbn [snd] in *; subst; reflexivity.
Qed.

Lemma mirror_folder_keeps_synced w root p d :
plain_path p = true ->
synced_to d p w ->
synced_to d p (snd (mirror_folder source replica log_path root w)).
Proof.
intros Hp [d' [m' [Hr Hh]]].
assert (G : resolve (fs (snd (mirror_folder source replica log_path root w))) p
            = Some (File d' m')).
{ unfold mirror_folder.
  apply (inv_bind (fun w => resolve (fs w) p = Some (File d' m'))); [exact Hr |].
  intros e w1 Hr1.
  apply (inv_bind (fun w => resolve (fs w) p = Some (File d' m'))).
  - apply inv_when; [exact Hr1 | intros _].
    apply (inv_bind (fun w => resolve (fs w) p = Some (File d' m'))).
    + now apply makedirs_rev_keeps_file.
    + intros _ w2 Hr2. exact Hr2.
  - intros _ w2 Hr2. exact Hr2. }
exists d', m'. now split.
Qed.

End Forward.

(* ===================================================================== *)
(** ** The forward pass: invariants of the walk *)
(* ===================================================================== *)

Lemma listing_plain n top dirs files :
  wf_node n = true -> scandir n top = Some (dirs, files) ->
  Forall (fun k => plain_name k = true) dirs /\
  Forall (fun k => plain_name k = true) files.
Proof.
  intros Hwf Hs. apply scandir_inv in Hs as [es [Hr [-> ->]]].
  pose proof (@wf_resolve _ _ _ Hwf Hr) as Hd. apply wf_dir in Hd.
  split; apply Forall_forall; intros k Hk.
  - now destruct (@listed_dir _ _ Hd Hk) as [c [_ [_ [H _]]]].
  - now destruct (@listed_file _ _ Hd Hk) as [c [_ [_ H]]].
Qed.

Section Forward.
Variables source replica log_path : path.
Variable s0 : option node.
Hypothesis plain_source : plain_path source = true.
Hypothesis plain_replica : plain_path replica = true.
Hypothesis apart : separate source replica = true.

Lemma forward_inv_grown w w' :
forward_inv source replica s0 w -> grown log_path w w' ->
source_is source s0 w' -> forward_inv source replica s0 w'.
Proof.
intros [Hwf [_ Hex]] Hg Hs. repeat split.
- now apply Hg.
- exact Hs.
- eapply grown_exists; eassumption.
Qed.

Lemma mirror_file_inv w rel f :
forward_inv source replica s0 w -> plain_name f = true ->
forward_inv source replica s0
  (snd (mirror_file log_path (source ++ rel) (dest source replica rel) f w)).
Proof.
intros Hi Hf. eapply forward_inv_grown; [exact Hi | |].
- now apply grown_mirror_file.
- unfold dest.
  apply mirror_file_keeps_source; try assumption. apply Hi.
Qed.

Lemma mirror_folder_inv w rel :
forward_inv source replica s0 w -> plain_path rel = true ->
forward_inv source replica s0
  (snd (mirror_folder source replica log_path (source ++ rel) w)).
Proof.
intros Hi Hrel. eapply forward_inv_grown; [exact Hi | |].
- now apply grown_mirror_folder.
- apply mirror_folder_keeps_source; try assumption. apply Hi.
Qed.

Lemma ensure_replica_inv w :
wf_node (fs w) = true -> source_is source s0 w ->
forall w', ensure_replica replica log_path w = (Val tt, w') ->
forward_inv source replica s0 w'.
Proof.
intros Hwf Hs w' Hrun.
pose proof (@grown_ensure_replica log_path replica w plain_replica) as Hg.
assert (Hs' : source_is source s0 (snd (ensure_replica replica log_path w)))
  by (apply ensure_replica_keeps_source; assumption).
rewrite Hrun in Hg, Hs'. cbn [snd] in Hg, Hs'.
repeat split; [now apply Hg | exact Hs' |].
unfold ensure_replica in Hrun. unfold bind at 1 in Hrun.
rewrite path_exists_eq in Hrun.
destruct (exists_at (fs w) replica) eqn:Ex; cbn [negb when] in Hrun.
- injection Hrun as <-. exact Ex.
- apply bind_inv in Hrun as [[] [w1 [Hmk Hlog]]].
  rewrite log_message_emit in Hlog. injection Hlog as <-.
  rewrite fs_emit.
  (* the last step of [makedirs] made the directory *)
  unfold os.makedirs in Hmk.
  destruct (snoc_cases replica) as [E | [p0 [c E]]].
  + rewrite E in Ex. discriminate.
  + rewrite E in Hmk, plain_replica |- *.
    rewrite plain_path_app in plain_replica.
    apply andb_prop in plain_replica as [_ Hc]. cbn in Hc.
    rewrite andb_true_r in Hc.
    rewrite rev_unit in Hmk. cbn [os.makedirs_rev] in Hmk.
    rewrite (plain_not_dot _ Hc) in Hmk.
    assert (Hlast : exists w2, os.mkdir (rev (c :: rev p0)) w2 = (Val tt, w1)).
    { apply bind_inv in Hmk as [e [w2 [_ Hmk]]].
      destruct (negb e).
      - apply bind_inv in Hmk as [[] [w3 [_ Hmk]]]. now exists w3.
      - now exists w2. }
    destruct Hlast as [w2 Hmkdir].
    cbn [rev] in Hmkdir. rewrite rev_involutive in Hmkdir.
    unfold os.mkdir in Hmkdir.
    destruct (resolve (fs w2) (p0 ++ [c])); [discriminate |].
    destruct (put (fs w2) (p0 ++ [c]) (Some (Dir []))) as [n' |] eqn:Ep;
      [| discriminate].
    injection Hmkdir as <-. unfold exists_at. cbn [fs set_fs].
    now rewrite (@resolve_put_last _ _ _ _ _ Hc Ep).
Qed.

(** A property that the two steps of the body keep is kept by the whole
  walk. *)
Lemma forward_walk_keeps (P : world -> Prop) :
(forall rel w, plain_path rel = true ->
   forward_inv source replica s0 w -> P w ->
   P (snd (mirror_folder source replica log_path (source ++ rel) w))) ->
(forall rel f w, plain_path rel = true -> plain_name f = true ->
   forward_inv source replica s0 w -> P w ->
   P (snd (mirror_file log_path (source ++ rel)
             (dest source replica rel) f w))) ->
forall fuel rel w, plain_path rel = true ->
  forward_inv source replica s0 w -> P w ->
  forward_inv source replica s0
    (snd (os.walk fuel true (source ++ rel)
            (forward_body source replica log_path) w)) /\
  P (snd (os.walk fuel true (source ++ rel)
            (forward_body source replica log_path) w)).
Proof.
intros Hfolder Hfile fuel rel w Hrel Hi Hp.
apply (inv_walk_topdown
         (fun w => forward_inv source replica s0 w /\ P w)
         (fun top => exists rel, top = source ++ rel /\ plain_path rel = true));
  [| now split | now exists rel].
clear fuel rel w Hrel Hi Hp.
intros top dirs files w [Hi Hp] [rel [-> Hrel]] Hscan.
destruct (@listing_plain _ _ _ _ (proj1 Hi) Hscan) as [Hdirs Hfiles].
split.
- unfold forward_body.
  apply (inv_bind_val (fun w => forward_inv source replica s0 w /\ P w)).
  + split; [now apply mirror_folder_inv | now apply Hfolder].
  + intros dp w1 Hdp [Hi1 Hp1].
    apply (@mirror_folder_val source replica log_path) in Hdp.
    fold (dest source replica rel) in Hdp. subst dp.
    apply (inv_for_each (fun w => forward_inv source replica s0 w /\ P w));
      [| now split].
    intros f w2 Hf [Hi2 Hp2]. rewrite Forall_forall in Hfiles.
    split; [apply mirror_file_inv | apply Hfile]; auto.
- intros d Hd. exists (rel ++ [d]). split; [now rewrite app_assoc |].
  rewrite plain_path_app, Hrel. cbn. rewrite Forall_forall in Hdirs.
  now rewrite (Hdirs d Hd).
Qed.

(** The walk keeps the invariant. *)
Lemma forward_walk_inv fuel rel w :
plain_path rel = true -> forward_inv source replica s0 w ->
forward_inv source replica s0
  (snd (os.walk fuel true (source ++ rel)
          (forward_body source replica log_path) w)).
Proof.
intros Hrel Hi.
now apply (forward_walk_keeps (fun _ => True)).
Qed.

(** The walk only adds. *)
Lemma forward_walk_grown w0 fuel rel w :
plain_path rel = true -> forward_inv source replica s0 w ->
grown log_path w0 w ->
grown log_path w0
  (snd (os.walk fuel true (source ++ rel)
          (forward_body source replica log_path) w)).
Proof.
intros Hrel Hi Hg.
apply (forward_walk_keeps (grown log_path w0)); try assumption.
- intros rel1 w1 Hrel1 _ Hg1. eapply grown_trans; [exact Hg1 |].
  now apply grown_mirror_folder.
- intros rel1 f w1 _ Hf _ Hg1. eapply grown_trans; [exact Hg1 |].
  now apply grown_mirror_file.
Qed.

(** The walk keeps the files that are in place. *)
Lemma forward_walk_synced q d m fuel rel w :
plain_path q = true -> resolve_in s0 q = Some (File d m) ->
plain_path rel = true -> forward_inv source replica s0 w ->
synced_to d (replica ++ q) w ->
synced_to d (replica ++ q)
  (snd (os.walk fuel true (source ++ rel)
          (forward_body source replica log_path) w)).
Proof.
intros Hq Hd Hrel Hi Hs.
apply (forward_walk_keeps (synced_to d (replica ++ q))); try assumption.
- intros rel1 w1 _ _ Hs1. apply mirror_folder_keeps_synced; [| exact Hs1].
  rewrite plain_path_app. now rewrite plain_replica, Hq.
- intros rel1 f w1 Hrel1 Hf Hi1 Hs1.
  eapply mirror_file_keeps_synced; try eassumption. apply Hi1.
Qed.

End Forward.

(* ===================================================================== *)
(** ** What the steps of the forward pass establish *)
(* ===================================================================== *)

(** As [for_each_establish], with the elements of the list only. *)
Lemma for_each_establish_in A (xs : list A) (body : A -> M unit) (x : A)
  (I P : world -> Prop) :
  In x xs ->
  (forall y w, In y xs -> I w -> I (snd (body y w))) ->
  (forall y w, In y xs -> I w -> P w -> P (snd (body y w))) ->
  (forall w w', I w -> body x w = (Val tt, w') -> P w') ->
  forall w w', I w -> for_each xs body w = (Val tt, w') -> P w'.
Proof.
  intros Hin HI HP Hx.
  induction xs as [| y xs IH]; intros w w' Hw Hrun; [contradiction |].
  cbn [for_each] in Hrun. apply bind_inv in Hrun as [[] [w1 [Hy Hrest]]].
  assert (Hw1 : I w1).
  { pose proof (HI y w (or_introl eq_refl) Hw) as H. now rewrite Hy in H. }
  assert (HI' : forall z w, In z xs -> I w -> I (snd (body z w)))
    by (intros z w2 Hz; apply HI; now right).
  assert (HP' : forall z w, In z xs -> I w -> P w -> P (snd (body z w)))
    by (intros z w2 Hz; apply HP; now right).
  destruct Hin as [-> | Hin].
  - assert (Hp1 : P w1) by exact (Hx _ _ Hw Hy).
    assert (G : I w' /\ P w').
    { change w' with (snd (Val tt, w')). rewrite <- Hrest.
      apply (inv_for_each (fun w => I w /\ P w)); [| now split].
      intros z w2 Hz [H1 H2]. split; auto. }
    apply G.
  - eapply IH; eassumption.
Qed.


(** The directory that [os.makedirs] returns from exists. *)
Lemma makedirs_post p0 c w w' :
  plain_name c = true ->
  os.makedirs (p0 ++ [c]) w = (Val tt, w') ->
  dir_at (fs w') (p0 ++ [c]) = true.
Proof.
  intros Hc Hmk. unfold os.makedirs in Hmk.
  rewrite rev_unit in Hmk. cbn [os.makedirs_rev] in Hmk.
  rewrite (plain_not_dot _ Hc) in Hmk.
  assert (Hlast : exists w2, os.mkdir (rev (c :: rev p0)) w2 = (Val tt, w')).
  { apply bind_inv in Hmk as [e [w2 [_ Hmk]]].
    destruct (negb e).
    - apply bind_inv in Hmk as [[] [w3 [_ Hmk]]]. now exists w3.
    - now exists w2. }
  destruct Hlast as [w2 Hmkdir].
  cbn [rev] in Hmkdir. rewrite rev_involutive in Hmkdir.
  unfold os.mkdir in Hmkdir.
  destruct (resolve (fs w2) (p0 ++ [c])); [discriminate |].
  destruct (put (fs w2) (p0 ++ [c]) (Some (Dir []))) as [n' |] eqn:Ep;
    [| discriminate].
  injection Hmkdir as <-. unfold dir_at. cbn [fs set_fs].
  now rewrite (@resolve_put_last _ _ _ _ _ Hc Ep).
Qed.

(** [os.makedirs] fails on [p/.] when [p] exists. *)
Lemma makedirs_dot_fails p w :
  exists_at (fs w) p = true ->
  exists e, os.makedirs (p ++ ["."]) w = (Exn e, w).
Proof.
  intros Hex. unfold os.makedirs. rewrite rev_unit. cbn [os.makedirs_rev].
  unfold bind at 1. rewrite path_exists_eq, rev_involutive, Hex. cbn [negb].
  cbn [rev]. rewrite rev_involutive. unfold os.mkdir.
  match goal with
  | |- context [match ?x with Some _ => _ | None => _ end] => destruct x
  end; [eexists; reflexivity |].
  rewrite put_trailing_dot. eexists; reflexivity.
Qed.

(** A copy onto a path that is not a directory puts the bytes of the
    source file there. *)
Lemma copy2_post src p0 f w w' data m :
  plain_name f = true ->
  resolve (fs w) src = Some (File data m) ->
  dir_at (fs w) (p0 ++ [f]) = false ->
  shutil.copy2 src (p0 ++ [f]) w = (Val tt, w') ->
  exists mt, resolve (fs w') (p0 ++ [f]) = Some (File data mt).
Proof.
  intros Hf Hsrc Hdir Hrun. unfold shutil.copy2 in Hrun.
  unfold bind at 1 in Hrun. rewrite path_isdir_eq, Hdir in Hrun.
  apply bind_inv in Hrun as [[] [w1 [Hcp Hst]]].
  unfold shutil.copyfile in Hcp.
  destruct (shutil.samefile (fs w) src (p0 ++ [f])); [discriminate |].
  rewrite Hsrc in Hcp.
  assert (H1 : exists n1, put (fs w) (p0 ++ [f]) (Some (File data (clock w)))
                          = Some n1 /\ w1 = set_fs n1 w).
  { destruct (resolve (fs w) (p0 ++ [f])) as [[dd md | es] |]; try discriminate;
      destruct (put (fs w) (p0 ++ [f]) (Some (File data (clock w)))) as [n1 |];
      try discriminate; injection Hcp as <-; now exists n1. }
  destruct H1 as [n1 [Hput ->]].
  pose proof (@resolve_put_last _ _ _ _ _ Hf Hput) as Hr1.
  unfold shutil.copystat in Hst. cbn [fs set_fs] in Hst.
  destruct (resolve n1 src) as [[ds ms | es] |]; [| | discriminate].
  - rewrite Hr1 in Hst.
    destruct (put n1 (p0 ++ [f]) (Some (File data ms))) as [n2 |] eqn:Eput2;
      [| discriminate].
    injection Hst as <-. exists ms. cbn [fs set_fs].
    exact (@resolve_put_last _ _ _ _ _ Hf Eput2).
  - injection Hst as <-. now exists (clock w).
Qed.

Section Forward.
Variables source replica log_path : path.
Variable s0 : option node.
Hypothesis plain_source : plain_path source = true.
Hypothesis plain_replica : plain_path replica = true.
Hypothesis apart : separate source replica = true.

(** One file of the forward pass, done: the replica has its
  fingerprint. *)
Lemma mirror_file_post w w' rel f d m :
resolve (fs w) ((source ++ rel) ++ [f]) = Some (File d m) ->
plain_name f = true ->
mirror_file log_path (source ++ rel) (dest source replica rel) f w
= (Val tt, w') ->
synced_to d ((replica ++ rel) ++ [f]) w'.
Proof.
intros Hsrc Hf Hrun. unfold mirror_file in Hrun.
unfold bind at 1 in Hrun. rewrite path_exists_eq in Hrun.
apply bind_inv in Hrun as [differs [w1 [Hc Hk]]].
assert (Hcopy : forall w2,
          dir_at (fs w) (dest source replica rel ++ [f]) = false ->
          (shutil.copy2 ((source ++ rel) ++ [f])
             (dest source replica rel ++ [f]) ;;
           log_message log_path
             (CopiedFile ((source ++ rel) ++ [f])
                (dest source replica rel ++ [f]))) w = (Val tt, w2) ->
          synced_to d ((replica ++ rel) ++ [f]) w2).
{ intros w2 Hdir H. apply bind_inv in H as [[] [w3 [Hcp Hlog]]].
  rewrite log_message_emit in Hlog. injection Hlog as <-.
  destruct (@copy2_post _ _ _ _ _ _ _ Hf Hsrc Hdir Hcp) as [mt Hr].
  exists d, mt. split; [| reflexivity].
  rewrite fs_emit, <- (resolve_dest_child source). exact Hr. }
destruct (exists_at (fs w) (dest source replica rel ++ [f])) eqn:Ex;
  cbn [negb] in Hc.
- apply bind_inv in Hc as [h1 [w2 [Hh1 Hc]]].
  apply calculate_hash_inv in Hh1 as [d1 [m1 [Hr1 [-> ->]]]].
  apply bind_inv in Hc as [h2 [w3 [Hh2 Hc]]].
  apply calculate_hash_inv in Hh2 as [d2 [m2 [Hr2 [-> ->]]]].
  unfold ret in Hc.
  assert (Hdf : differs =
                negb (String.eqb (MD5.hexdigest d1) (MD5.hexdigest d2)))
    by congruence.
  assert (Hw1 : w1 = w) by congruence.
  subst differs w1. clear Hc.
  rewrite Hsrc in Hr1. injection Hr1 as <- <-.
  destruct (String.eqb (MD5.hexdigest d) (MD5.hexdigest d2)) eqn:Eh;
    cbn [negb when] in Hk.
  + unfold ret in Hk. injection Hk as <-. apply String.eqb_eq in Eh.
    exists d2, m2. split; [| now symmetry].
    rewrite <- (resolve_dest_child source). exact Hr2.
  + apply Hcopy; [| exact Hk]. unfold dir_at. now rewrite Hr2.
- unfold ret in Hc. injection Hc as <- <-. cbn [when] in Hk.
  apply Hcopy; [| exact Hk].
  unfold dir_at, exists_at in *.
  now destruct (resolve (fs w) (dest source replica rel ++ [f])).
Qed.


(** The folder of the forward pass, done: it exists. *)
Lemma mirror_folder_post w w' rel dp :
forward_inv source replica s0 w -> plain_path rel = true ->
mirror_folder source replica log_path (source ++ rel) w = (Val dp, w') ->
exists_at (fs w') (dest source replica rel) = true.
Proof.
intros Hi Hrel Hrun. unfold mirror_folder in Hrun.
fold (dest source replica rel) in Hrun.
unfold bind at 1 in Hrun. rewrite path_exists_eq in Hrun.
destruct (exists_at (fs w) (dest source replica rel)) eqn:Ex;
  cbn [negb when] in Hrun.
- unfold bind, ret in Hrun. injection Hrun as _ <-. exact Ex.
- apply bind_inv in Hrun as [[] [w1 [Hmk Hret]]].
  unfold ret in Hret. injection Hret as _ <-.
  apply bind_inv in Hmk as [[] [w2 [Hmk Hlog]]].
  rewrite log_message_emit in Hlog. injection Hlog as <-. rewrite fs_emit.
  destruct rel as [| k rel].
  + rewrite dest_root in Hmk.
    destruct (@makedirs_dot_fails replica w (proj2 (proj2 Hi))) as [e He].
    rewrite He in Hmk. discriminate.
  + rewrite dest_below in Hmk |- * by discriminate.
    destruct (snoc_cases (k :: rel)) as [E | [r0 [c E]]]; [discriminate |].
    rewrite E in Hmk, Hrel |- *. rewrite app_assoc in Hmk |- *.
    rewrite plain_path_app in Hrel. apply andb_prop in Hrel as [_ Hc].
    cbn in Hc. rewrite andb_true_r in Hc.
    rewrite exists_at_kinds, (@makedirs_post _ _ _ _ Hc Hmk). reflexivity.
Qed.


End Forward.

(* ===================================================================== *)
(** ** The forward pass, done *)
(* ===================================================================== *)

Lemma resolve_dir_child es k q x :
  plain_name k = true ->
  resolve (Dir es) (k :: q) = Some x ->
  exists c, find_entry k es = Some c /\ resolve c q = Some x.
Proof.
  intros Hk. rewrite resolve_dir_plain by now apply plain_not_dot.
  destruct (find_entry k es) as [c |]; [| discriminate].
  intros H. now exists c.
Qed.

Section Forward.
Variables source replica log_path : path.
Variable s0 : option node.
Hypothesis plain_source : plain_path source = true.
Hypothesis plain_replica : plain_path replica = true.
Hypothesis apart : separate source replica = true.

Lemma plain_snoc rel k :
plain_path rel = true -> plain_name k = true -> plain_path (rel ++ [k]) = true.
Proof. intros H1 H2. rewrite plain_path_app, H1. cbn. now rewrite H2. Qed.

(** The walks of the sub-directories keep what the steps keep. *)
Lemma children_keep (P : world -> Prop) fuel rel dirs :
(forall rel w, plain_path rel = true ->
   forward_inv source replica s0 w -> P w ->
   P (snd (mirror_folder source replica log_path (source ++ rel) w))) ->
(forall rel f w, plain_path rel = true -> plain_name f = true ->
   forward_inv source replica s0 w -> P w ->
   P (snd (mirror_file log_path (source ++ rel)
             (dest source replica rel) f w))) ->
plain_path rel = true ->
Forall (fun k => plain_name k = true) dirs ->
forall w, forward_inv source replica s0 w -> P w ->
forward_inv source replica s0
  (snd (for_each dirs
          (fun d => os.walk fuel true ((source ++ rel) ++ [d])
                      (forward_body source replica log_path)) w)) /\
P (snd (for_each dirs
          (fun d => os.walk fuel true ((source ++ rel) ++ [d])
                      (forward_body source replica log_path)) w)).
Proof.
intros Hfolder Hfile Hrel Hdirs w Hi Hp.
apply (inv_for_each (fun w => forward_inv source replica s0 w /\ P w));
  [| now split].
intros d w1 Hd [Hi1 Hp1]. rewrite <- app_assoc.
rewrite Forall_forall in Hdirs.
apply forward_walk_keeps; try assumption.
apply plain_snoc; auto.
Qed.

Lemma children_keep_synced fuel rel dirs q d m :
plain_path q = true -> resolve_in s0 q = Some (File d m) ->
plain_path rel = true ->
Forall (fun k => plain_name k = true) dirs ->
forall w, forward_inv source replica s0 w ->
synced_to d (replica ++ q) w ->
synced_to d (replica ++ q)
  (snd (for_each dirs
          (fun d => os.walk fuel true ((source ++ rel) ++ [d])
                      (forward_body source replica log_path)) w)).
Proof.
intros Hq Hd Hrel Hdirs w Hi Hs.
apply (children_keep (synced_to d (replica ++ q))); try assumption.
- intros rel1 w1 _ _ Hs1. apply mirror_folder_keeps_synced; [| exact Hs1].
  rewrite plain_path_app. now rewrite plain_replica, Hq.
- intros rel1 f w1 Hrel1 Hf Hi1 Hs1.
  eapply mirror_file_keeps_synced; try eassumption. apply Hi1.
Qed.

Lemma children_keep_grown w0 fuel rel dirs :
plain_path rel = true ->
Forall (fun k => plain_name k = true) dirs ->
forall w, forward_inv source replica s0 w ->
grown log_path w0 w ->
grown log_path w0
  (snd (for_each dirs
          (fun d => os.walk fuel true ((source ++ rel) ++ [d])
                      (forward_body source replica log_path)) w)).
Proof.
intros Hrel Hdirs w Hi Hg.
apply (children_keep (grown log_path w0)); try assumption.
- intros rel1 w1 Hrel1 _ Hg1. eapply grown_trans; [exact Hg1 |].
  now apply grown_mirror_folder.
- intros rel1 f w1 _ Hf _ Hg1. eapply grown_trans; [exact Hg1 |].
  now apply grown_mirror_file.
Qed.

Lemma files_keep_inv rel files :
Forall (fun k => plain_name k = true) files ->
forall w, forward_inv source replica s0 w ->
forward_inv source replica s0
  (snd (for_each files
          (mirror_file log_path (source ++ rel) (dest source replica rel)) w)).
Proof.
intros Hfiles w Hi. apply inv_for_each; [| exact Hi].
intros f w1 Hf Hi1. rewrite Forall_forall in Hfiles.
apply mirror_file_inv; auto.
Qed.

Lemma files_keep_grown w0 rel files :
Forall (fun k => plain_name k = true) files ->
forall w, grown log_path w0 w ->
grown log_path w0
  (snd (for_each files
          (mirror_file log_path (source ++ rel) (dest source replica rel)) w)).
Proof.
intros Hfiles w Hg. eapply grown_trans; [exact Hg |].
apply grown_for_each. intros f w1 Hf. rewrite Forall_forall in Hfiles.
apply grown_mirror_file; auto.
Qed.

(** The top-down walk from a directory of source, when it returns, has
  mirrored all that the directory holds. *)
Lemma forward_walk_done s : forward_walk_spec source replica log_path s0 s.
Proof.
induction s as [d0 m0 | es IH] using node_ind; [discriminate |].
intros _ fuel rel w w' Hrel Hi Hs Hrun.
destruct fuel as [| fuel]; [discriminate |].
cbn [os.walk] in Hrun.
assert (Hr : resolve (fs w) (source ++ rel) = Some (Dir es)).
{ rewrite (@resolve_source source s0 w rel (proj1 (proj2 Hi))). exact Hs. }
rewrite (@scandir_dir _ _ _ Hr) in Hrun.
set (dirs := map fst (filter (fun e => is_dir (snd e)) es)) in *.
set (files := map fst (filter (fun e => is_file (snd e)) es)) in *.
assert (Hwf : wf_entries es).
{ apply wf_dir. eapply wf_resolve; [apply Hi | exact Hr]. }
assert (Hdirs : Forall (fun k => plain_name k = true) dirs).
{ apply Forall_forall. intros k Hk.
  now destruct (@listed_dir _ _ Hwf Hk) as [c [_ [_ [H _]]]]. }
assert (Hfiles : Forall (fun k => plain_name k = true) files).
{ apply Forall_forall. intros k Hk.
  now destruct (@listed_file _ _ Hwf Hk) as [c [_ [_ H]]]. }
apply bind_inv in Hrun as [[] [w1 [Hbody Hkids]]].
unfold forward_body in Hbody.
apply bind_inv in Hbody as [dp [wa [Hfolder Hloop]]].
pose proof (@mirror_folder_val source replica log_path _ _ _ _ Hfolder) as Edp.
fold (dest source replica rel) in Edp. subst dp.
assert (Hia : forward_inv source replica s0 wa).
{ pose proof (@mirror_folder_inv source replica log_path s0 plain_source
                plain_replica apart w rel Hi Hrel) as H.
  now rewrite Hfolder in H. }
assert (Hi1 : forward_inv source replica s0 w1).
{ pose proof (@files_keep_inv rel files Hfiles wa Hia) as H.
  now rewrite Hloop in H. }
assert (Hga : grown log_path wa w').
{ pose proof (@files_keep_grown wa rel files Hfiles wa (grown_refl _ _)) as H1.
  rewrite Hloop in H1. cbn [snd] in H1.
  pose proof (@children_keep_grown wa fuel rel dirs Hrel Hdirs w1 Hi1 H1) as H2.
  now rewrite Hkids in H2. }
split.
- (* the files *)
  intros q d m Hq Hres.
  destruct q as [| k q]; [discriminate |].
  cbn [plain_path forallb] in Hq. apply andb_prop in Hq as [Hk Hq].
  destruct (@resolve_dir_child _ _ _ _ Hk Hres) as [c [Hf Hc]].
  assert (Hin0 : resolve_in s0 (rel ++ k :: q) = Some (File d m)).
  { now rewrite (@resolve_in_app s0 rel (k :: q) _ Hs). }
  assert (Hpq : plain_path (rel ++ k :: q) = true).
  { rewrite plain_path_app, Hrel. cbn. now rewrite Hk, Hq. }
  destruct c as [dc mc | esc].
  + (* a file of this directory *)
    destruct q as [| k' q]; [| discriminate].
    cbn in Hc. injection Hc as -> ->.
    assert (Hkf : In k files).
    { eapply find_listed_file; [exact Hf | reflexivity]. }
    assert (Hs1 : synced_to d (replica ++ rel ++ [k]) w1).
    { apply (@for_each_establish_in _ files
               (mirror_file log_path (source ++ rel) (dest source replica rel))
               k (forward_inv source replica s0)
               (synced_to d (replica ++ rel ++ [k]))) with (w := wa);
        try assumption.
      - intros y w2 Hy Hi2. rewrite Forall_forall in Hfiles.
        apply mirror_file_inv; auto.
      - intros y w2 Hy Hi2 Hs2. rewrite Forall_forall in Hfiles.
        eapply mirror_file_keeps_synced; try eassumption; auto.
        apply Hi2.
      - intros w2 w3 Hi2 Hrun2. rewrite app_assoc.
        eapply mirror_file_post; try eassumption.
        rewrite <- app_assoc.
        rewrite (@resolve_source source s0 w2 _ (proj1 (proj2 Hi2))).
        exact Hin0. }
    pose proof (@children_keep_synced fuel rel dirs _ d m Hpq Hin0 Hrel Hdirs
                  w1 Hi1 Hs1) as H.
    now rewrite Hkids in H.
  + (* a file below a sub-directory *)
    assert (Hkd : In k dirs).
    { eapply find_listed_dir; [exact Hf | reflexivity]. }
    rewrite Forall_forall in IH.
    pose proof (IH _ (find_entry_In _ _ Hf) eq_refl) as IHc. cbn [snd] in IHc.
    apply (@for_each_establish_in _ dirs
             (fun d => os.walk fuel true ((source ++ rel) ++ [d])
                         (forward_body source replica log_path))
             k (forward_inv source replica s0)
             (synced_to d (replica ++ rel ++ k :: q))) with (w := w1);
      try assumption.
    * intros y w2 Hy Hi2. rewrite Forall_forall in Hdirs.
      rewrite <- app_assoc. apply forward_walk_inv; try assumption.
      apply plain_snoc; auto.
    * intros y w2 Hy Hi2 Hs2. rewrite Forall_forall in Hdirs.
      rewrite <- app_assoc.
      eapply forward_walk_synced; try eassumption.
      apply plain_snoc; auto.
    * intros w2 w3 Hi2 Hrun2. rewrite <- app_assoc in Hrun2.
      assert (Hsc : resolve_in s0 (rel ++ [k]) = Some (Dir esc)).
      { rewrite (@resolve_in_app s0 rel [k] _ Hs).
        rewrite resolve_dir_plain by now apply plain_not_dot.
        now rewrite Hf. }
      destruct (IHc fuel (rel ++ [k]) w2 w3 (@plain_snoc _ _ Hrel Hk) Hi2 Hsc Hrun2)
        as [Hfilesc _].
      specialize (Hfilesc q d m Hq Hc).
      rewrite <- !app_assoc in Hfilesc. exact Hfilesc.
- (* the directories *)
  intros q es' Hq Hres.
  destruct q as [| k q].
  + rewrite app_nil_r.
    apply (@grown_dest log_path source replica rel wa w' Hga plain_replica Hrel).
    eapply mirror_folder_post; [exact Hi | exact Hrel | exact Hfolder].
  + cbn [plain_path forallb] in Hq. apply andb_prop in Hq as [Hk Hq].
    destruct (@resolve_dir_child _ _ _ _ Hk Hres) as [c [Hf Hc]].
    assert (Hpq : plain_path (rel ++ k :: q) = true).
    { rewrite plain_path_app, Hrel. cbn. now rewrite Hk, Hq. }
    destruct c as [dc mc | esc]; [destruct q; discriminate |].
    assert (Hkd : In k dirs).
    { eapply find_listed_dir; [exact Hf | reflexivity]. }
    rewrite Forall_forall in IH.
    pose proof (IH _ (find_entry_In _ _ Hf) eq_refl) as IHc. cbn [snd] in IHc.
    apply (@for_each_establish_in _ dirs
             (fun d => os.walk fuel true ((source ++ rel) ++ [d])
                         (forward_body source replica log_path))
             k (forward_inv source replica s0)
             (fun w => exists_at (fs w)
                         (dest source replica (rel ++ k :: q)) = true))
      with (w := w1); try assumption.
    * intros y w2 Hy Hi2. rewrite Forall_forall in Hdirs.
      rewrite <- app_assoc. apply forward_walk_inv; try assumption.
      apply plain_snoc; auto.
    * intros y w2 Hy Hi2 Hs2. rewrite Forall_forall in Hdirs.
      rewrite <- app_assoc.
      eapply grown_dest; [| assumption | exact Hpq | exact Hs2].
      apply forward_walk_grown with (s0 := s0); try assumption.
      -- apply plain_snoc; auto.
      -- apply grown_refl.
    * intros w2 w3 Hi2 Hrun2. rewrite <- app_assoc in Hrun2.
      assert (Hsc : resolve_in s0 (rel ++ [k]) = Some (Dir esc)).
      { rewrite (@resolve_in_app s0 rel [k] _ Hs).
        rewrite resolve_dir_plain by now apply plain_not_dot.
        now rewrite Hf. }
      destruct (IHc fuel (rel ++ [k]) w2 w3 (@plain_snoc _ _ Hrel Hk) Hi2 Hsc Hrun2)
        as [_ Hdirsc].
      specialize (Hdirsc q es' Hq Hc).
      rewrite <- !app_assoc in Hdirsc. exact Hdirsc.
Qed.



End Forward.

(* ===================================================================== *)
(** ** The pruned tree *)
(* ===================================================================== *)

Lemma kept_pruned keep rel e :
  kept keep rel (pruned keep rel e) = kept keep rel e.
Proof. reflexivity. Qed.

Lemma pruned_eq keep rel k c :
  pruned keep rel (k, c) = (k, prune keep (rel ++ [k]) c).
Proof. reflexivity. Qed.

Lemma find_pruned keep rel es k :
  find_entry k (filter (kept keep rel) (map (pruned keep rel) es)) =
  if keep (rel ++ [k])
  then option_map (prune keep (rel ++ [k])) (find_entry k es)
  else None.
Proof.
  induction es as [| [k0 c0] es IH]; cbn [map filter find_entry].
  - now destruct (keep (rel ++ [k])).
  - rewrite kept_pruned, kept_eq, pruned_eq.
    destruct (String.eqb k k0) eqn:E.
    + apply String.eqb_eq in E. subst k0.
      destruct (keep (rel ++ [k])) eqn:Ek.
      * cbn [find_entry]. now rewrite String.eqb_refl.
      * exact IH.
    + destruct (keep (rel ++ [k0])).
      * cbn [find_entry]. rewrite E. exact IH.
      * exact IH.
Qed.

(** An entry of the pruned tree is the pruned entry of the tree, and the
    oracle kept it. *)
Lemma resolve_prune_some keep q : forall rel r y,
  plain_path q = true ->
  resolve (prune keep rel r) q = Some y ->
  exists x, resolve r q = Some x /\ y = prune keep (rel ++ q) x /\
            (q <> [] -> keep (rel ++ q) = true).
Proof.
  induction q as [| k q IH]; intros rel r y Hq Hres.
  - cbn in Hres. injection Hres as <-. exists r. rewrite app_nil_r.
    repeat split. congruence.
  - cbn [plain_path forallb] in Hq. apply andb_prop in Hq as [Hk Hq].
    destruct r as [d m | es]; [cbn in Hres; discriminate |].
    rewrite prune_dir in Hres.
    rewrite resolve_dir_plain in Hres by now apply plain_not_dot.
    rewrite find_pruned in Hres.
    destruct (keep (rel ++ [k])) eqn:Ek; [| discriminate].
    rewrite resolve_dir_plain by now apply plain_not_dot.
    destruct (find_entry k es) as [c |]; [| discriminate].
    cbn [option_map] in Hres.
    destruct (IH _ _ _ Hq Hres) as [x [H1 [H2 H3]]].
    exists x. rewrite <- app_assoc in H2, H3. cbn [app] in H2, H3.
    repeat split; try assumption.
    intros _. destruct q as [| k' q'].
    + exact Ek.
    + apply H3. discriminate.
Qed.

(** An entry that the oracle keeps, with all above it, stays. *)
Lemma resolve_prune_kept keep q : forall rel r x,
  closed_down keep -> plain_path q = true ->
  (q <> [] -> keep (rel ++ q) = true) ->
  resolve r q = Some x ->
  resolve (prune keep rel r) q = Some (prune keep (rel ++ q) x).
Proof.
  induction q as [| k q IH]; intros rel r x Hc Hq Hkeep Hres.
  - cbn in Hres. injection Hres as <-. now rewrite app_nil_r.
  - cbn [plain_path forallb] in Hq. apply andb_prop in Hq as [Hk Hq].
    destruct r as [d m | es]; [cbn in Hres; discriminate |].
    rewrite resolve_dir_plain in Hres by now apply plain_not_dot.
    destruct (find_entry k es) as [c |] eqn:Ef; [| discriminate].
    assert (Ek : keep (rel ++ [k]) = true).
    { apply (Hc (rel ++ [k]) q). rewrite <- app_assoc. apply Hkeep. discriminate. }
    rewrite prune_dir.
    rewrite resolve_dir_plain by now apply plain_not_dot.
    rewrite find_pruned, Ek, Ef. cbn [option_map].
    replace (rel ++ k :: q) with ((rel ++ [k]) ++ q)
      by now rewrite <- app_assoc.
    apply IH; try assumption.
    intros _. rewrite <- app_assoc. apply Hkeep. discriminate.
Qed.

Lemma filter_pruned_twice keep rel es :
  Forall (fun e => forall rel,
            prune keep rel (prune keep rel (snd e)) = prune keep rel (snd e)) es ->
  filter (kept keep rel)
    (map (pruned keep rel) (filter (kept keep rel) (map (pruned keep rel) es)))
  = filter (kept keep rel) (map (pruned keep rel) es).
Proof.
  induction 1 as [| [k c] es Hc _ IH]; [reflexivity |].
  cbn [map filter]. rewrite kept_pruned, kept_eq, pruned_eq.
  destruct (keep (rel ++ [k])) eqn:Ek; [| exact IH].
  cbn [map filter]. rewrite kept_pruned, kept_eq, pruned_eq.
  rewrite Ek. cbn [snd] in Hc. rewrite Hc. f_equal. exact IH.
Qed.

(** Pruning twice is pruning once. *)
Lemma prune_twice keep r : forall rel,
  prune keep rel (prune keep rel r) = prune keep rel r.
Proof.
  induction r as [d m | es IH] using node_ind; intros rel; [reflexivity |].
  rewrite !prune_dir. f_equal. now apply filter_pruned_twice.
Qed.

Lemma removals_of_kept keep replica rel es :
  file_removals keep replica rel (filter (kept keep rel) es) = [] /\
  folder_removals keep replica rel (filter (kept keep rel) es) = [].
Proof.
  induction es as [| [k c] es [IH1 IH2]]; [now split |].
  cbn [filter]. rewrite kept_eq.
  destruct (keep (rel ++ [k])) eqn:Ek; [| now split].
  cbn [file_removals folder_removals]. rewrite Ek, !andb_false_r.
  now split.
Qed.

Lemma below_log_pruned keep replica rel es :
  Forall (fun e => forall rel,
            prune_log keep replica rel (prune keep rel (snd e)) = []) es ->
  below_log keep replica rel
    (filter (kept keep rel) (map (pruned keep rel) es)) = [].
Proof.
  induction 1 as [| [k c] es Hc _ IH]; [reflexivity |].
  cbn [map filter]. rewrite kept_pruned, kept_eq, pruned_eq.
  destruct (keep (rel ++ [k])); [| exact IH].
  cbn [below_log]. cbn [snd] in Hc. now rewrite Hc, IH.
Qed.

(** The reverse pass has nothing to report on a pruned tree. *)
Lemma prune_log_pruned keep replica r : forall rel,
  prune_log keep replica rel (prune keep rel r) = [].
Proof.
  induction r as [d m | es IH] using node_ind; intros rel; [reflexivity |].
  rewrite prune_dir, prune_log_dir.
  rewrite (@below_log_pruned keep replica rel es IH).
  destruct (removals_of_kept keep replica rel (map (pruned keep rel) es))
    as [-> ->].
  reflexivity.
Qed.

Lemma wf_prune keep r : forall rel,
  wf_node r = true -> wf_node (prune keep rel r) = true.
Proof.
  induction r as [d m | es IH] using node_ind; intros rel Hwf; [reflexivity |].
  rewrite prune_dir. apply wf_dir. apply wf_dir in Hwf as [Hall Hnd].
  split.
  - apply Forall_forall. intros e He.
    apply filter_In in He as [He _]. apply in_map_iff in He as [[k c] [<- Hin]].
    rewrite Forall_forall in Hall, IH.
    destruct (Hall _ Hin) as [H1 H2]. cbn [fst snd] in *.
    unfold pruned. cbn [fst snd]. split; [exact H1 |].
    apply (IH _ Hin). exact H2.
  - apply NoDup_map_fst_filter. now rewrite map_fst_pruned.
Qed.

(* ===================================================================== *)
(** ** The messages of the reverse pass *)
(* ===================================================================== *)

Lemma file_removals_shape keep replica rel es M :
  In M (file_removals keep replica rel es) ->
  exists k, In k (map fst es) /\ M = RemovedFile ((replica ++ rel) ++ [k]).
Proof.
  induction es as [| [k c] es IH]; [contradiction |].
  cbn [file_removals map fst]. intros H. apply in_app_or in H as [H | H].
  - destruct (is_file c && negb (keep (rel ++ [k]))); [| contradiction].
    destruct H as [<- | []]. exists k. split; [now left | reflexivity].
  - destruct (IH H) as [k' [H1 H2]]. exists k'. split; [now right | exact H2].
Qed.

Lemma folder_removals_shape keep replica rel es M :
  In M (folder_removals keep replica rel es) ->
  exists k, In k (map fst es) /\ M = RemovedFolder ((replica ++ rel) ++ [k]).
Proof.
  induction es as [| [k c] es IH]; [contradiction |].
  cbn [folder_removals map fst]. intros H. apply in_app_or in H as [H | H].
  - destruct (is_dir c && negb (keep (rel ++ [k]))); [| contradiction].
    destruct H as [<- | []]. exists k. split; [now left | reflexivity].
  - destruct (IH H) as [k' [H1 H2]]. exists k'. split; [now right | exact H2].
Qed.

Lemma below_log_in keep replica rel es M :
  In M (below_log keep replica rel es) ->
  exists k c, In (k, c) es /\ In M (prune_log keep replica (rel ++ [k]) c).
Proof.
  induction es as [| [k c] es IH]; [contradiction |].
  cbn [below_log]. intros H. apply in_app_or in H as [H | H].
  - exists k, c. split; [now left | exact H].
  - destruct (IH H) as [k' [c' [H1 H2]]]. exists k', c'.
    split; [now right | exact H2].
Qed.

(** Every message of the reverse pass reports an entry below the
    directory that was walked. *)
Lemma prune_log_shape keep replica r : forall rel M,
  In M (prune_log keep replica rel r) ->
  exists k q, removed_path M = Some (replica ++ rel ++ k :: q) /\
              forall es, r = Dir es -> In k (map fst es).
Proof.
  induction r as [d m | es IH] using node_ind; intros rel M H; [contradiction |].
  rewrite prune_log_dir in H. apply in_app_or in H as [H | H].
  - apply below_log_in in H as [k [c [Hin H]]].
    rewrite Forall_forall in IH.
    destruct (IH _ Hin _ _ H) as [k' [q' [H1 _]]].
    exists k, (k' :: q'). split.
    + rewrite H1. now rewrite <- !app_assoc.
    + intros es' [= <-]. apply in_map_iff. now exists (k, c).
  - apply in_app_or in H as [H | H].
    + apply file_removals_shape in H as [k [H1 ->]].
      exists k, []. split; [cbn; now rewrite <- app_assoc |].
      now intros es' [= <-].
    + apply folder_removals_shape in H as [k [H1 ->]].
      exists k, []. split; [cbn; now rewrite <- app_assoc |].
      now intros es' [= <-].
Qed.

Lemma times_app M a b : times M (a ++ b) = times M a + times M b.
Proof. unfold times. apply count_occ_app. Qed.

Lemma times_none M l : ~ In M l -> times M l = 0.
Proof. unfold times. apply count_occ_not_In. Qed.

Lemma times_one M : times M [M] = 1.
Proof. unfold times. cbn. now destruct (message_eq_dec M M). Qed.

Lemma times_nil M : times M [] = 0.
Proof. reflexivity. Qed.

(** The messages of the walk below the entries that are not [k] do not
    report a path through [k]. *)
Lemma below_log_other keep replica rel es M k q :
  removed_path M = Some (replica ++ rel ++ k :: q) ->
  ~ In k (map fst es) ->
  ~ In M (below_log keep replica rel es).
Proof.
  intros HM Hk H. apply below_log_in in H as [k' [c [Hin H]]].
  apply prune_log_shape in H as [k1 [q1 [H1 _]]].
  rewrite HM in H1. injection H1 as H1.
  apply app_inv_head in H1. rewrite <- app_assoc in H1.
  apply app_inv_head in H1. injection H1 as -> _.
  apply Hk. apply in_map_iff. now exists (k', c).
Qed.

Lemma below_log_count keep replica rel es M k q c :
  removed_path M = Some (replica ++ rel ++ k :: q) ->
  NoDup (map fst es) -> find_entry k es = Some c ->
  times M (below_log keep replica rel es) =
  times M (prune_log keep replica (rel ++ [k]) c).
Proof.
  intros HM. induction es as [| [k0 c0] es IH]; intros Hnd Hf; [discriminate |].
  cbn [find_entry] in Hf. cbn [map fst] in Hnd.
  apply NoDup_cons_iff in Hnd as [Hk0 Hnd].
  cbn [below_log]. rewrite times_app.
  destruct (String.eqb k k0) eqn:E.
  - apply String.eqb_eq in E. subst k0. injection Hf as ->.
    rewrite (@times_none _ _ (@below_log_other keep replica rel es M k q HM Hk0)).
    lia.
  - rewrite (IH Hnd Hf). rewrite times_none; [reflexivity |].
    intros H. apply prune_log_shape in H as [k1 [q1 [H1 _]]].
    rewrite HM in H1. injection H1 as H1.
    apply app_inv_head in H1. rewrite <- app_assoc in H1.
    apply app_inv_head in H1. injection H1 as -> _.
    now rewrite String.eqb_refl in E.
Qed.

Lemma file_removals_count keep replica rel es k c :
  NoDup (map fst es) -> find_entry k es = Some c ->
  times (RemovedFile ((replica ++ rel) ++ [k]))
    (file_removals keep replica rel es) =
  if is_file c && negb (keep (rel ++ [k])) then 1 else 0.
Proof.
  induction es as [| [k0 c0] es IH]; intros Hnd Hf; [discriminate |].
  cbn [find_entry] in Hf. cbn [map fst] in Hnd.
  apply NoDup_cons_iff in Hnd as [Hk0 Hnd].
  cbn [file_removals]. rewrite times_app.
  destruct (String.eqb k k0) eqn:E.
  - apply String.eqb_eq in E. subst k0. injection Hf as ->.
    rewrite (@times_none _ (file_removals keep replica rel es)).
    + destruct (is_file c && negb (keep (rel ++ [k])));
        [rewrite times_one | rewrite times_nil]; lia.
    + intros H. apply file_removals_shape in H as [k1 [H1 H2]].
      injection H2 as H2. apply app_inv_head in H2. injection H2 as <-.
      contradiction.
  - rewrite (IH Hnd Hf). rewrite times_none; [reflexivity |].
    destruct (is_file c0 && negb (keep (rel ++ [k0]))); [| intros []].
    intros [H | []]. injection H as H. apply app_inv_head in H.
    injection H as ->. now rewrite String.eqb_refl in E.
Qed.

Lemma folder_removals_count keep replica rel es k c :
  NoDup (map fst es) -> find_entry k es = Some c ->
  times (RemovedFolder ((replica ++ rel) ++ [k]))
    (folder_removals keep replica rel es) =
  if is_dir c && negb (keep (rel ++ [k])) then 1 else 0.
Proof.
  induction es as [| [k0 c0] es IH]; intros Hnd Hf; [discriminate |].
  cbn [find_entry] in Hf. cbn [map fst] in Hnd.
  apply NoDup_cons_iff in Hnd as [Hk0 Hnd].
  cbn [folder_removals]. rewrite times_app.
  destruct (String.eqb k k0) eqn:E.
  - apply String.eqb_eq in E. subst k0. injection Hf as ->.
    rewrite (@times_none _ (folder_removals keep replica rel es)).
    + destruct (is_dir c && negb (keep (rel ++ [k])));
        [rewrite times_one | rewrite times_nil]; lia.
    + intros H. apply folder_removals_shape in H as [k1 [H1 H2]].
      injection H2 as H2. apply app_inv_head in H2. injection H2 as <-.
      contradiction.
  - rewrite (IH Hnd Hf). rewrite times_none; [reflexivity |].
    destruct (is_dir c0 && negb (keep (rel ++ [k0]))); [| intros []].
    intros [H | []]. injection H as H. apply app_inv_head in H.
    injection H as ->. now rewrite String.eqb_refl in E.
Qed.

Lemma removed_path_removal x p : removed_path (removal_of x p) = Some p.
Proof. unfold removal_of. now destruct (is_dir x). Qed.

Lemma is_file_not_dir c : is_file c = negb (is_dir c).
Proof. now destruct c. Qed.

(** An entry that the oracle does not keep is reported once. *)
Lemma prune_log_count keep replica r : forall rel q x,
  wf_node r = true -> plain_path q = true -> q <> [] ->
  resolve r q = Some x -> keep (rel ++ q) = false ->
  times (removal_of x (replica ++ rel ++ q)) (prune_log keep replica rel r) = 1.
Proof.
  induction r as [d m | es IH] using node_ind; intros rel q x Hwf Hq Hne Hres Hk.
  - destruct q; [congruence | discriminate].
  - destruct q as [| k q]; [congruence |]. clear Hne.
    cbn [plain_path forallb] in Hq. apply andb_prop in Hq as [Hpk Hq].
    rewrite resolve_dir_plain in Hres by now apply plain_not_dot.
    destruct (find_entry k es) as [c |] eqn:Ef; [| discriminate].
    apply wf_dir in Hwf as [Hall Hnd].
    pose proof (removed_path_removal x (replica ++ rel ++ k :: q)) as HM.
    rewrite prune_log_dir, !times_app.
    destruct q as [| k1 q].
    + cbn in Hres. injection Hres as ->.
      rewrite (@times_none _ (below_log keep replica rel es)).
      2:{ intros H. apply below_log_in in H as [k' [c' [_ H]]].
          apply prune_log_shape in H as [k2 [q2 [H _]]].
          rewrite HM in H. injection H as H.
          apply app_inv_head in H. rewrite <- app_assoc in H.
          apply app_inv_head in H. discriminate. }
      unfold removal_of in *. rewrite (app_assoc replica rel [k]) in *.
      destruct (is_dir x) eqn:Ed.
      * rewrite (@times_none _ (file_removals keep replica rel es)).
        2:{ intros H. apply file_removals_shape in H as [k' [_ H]].
            discriminate. }
        rewrite (@folder_removals_count keep replica rel es k x Hnd Ef).
        now rewrite Ed, Hk.
      * rewrite (@times_none _ (folder_removals keep replica rel es)).
        2:{ intros H. apply folder_removals_shape in H as [k' [_ H]].
            discriminate. }
        rewrite (@file_removals_count keep replica rel es k x Hnd Ef).
        now rewrite is_file_not_dir, Ed, Hk.
    + destruct c as [dc mc | esc]; [discriminate |].
      rewrite (@below_log_count keep replica rel es _ k (k1 :: q) _ HM Hnd Ef).
      rewrite (@times_none _ (file_removals keep replica rel es)).
      2:{ intros H. apply file_removals_shape in H as [k' [_ H]].
          rewrite H in HM. injection HM as HM.
          rewrite <- app_assoc in HM. apply app_inv_head in HM.
          apply app_inv_head in HM. discriminate. }
      rewrite (@times_none _ (folder_removals keep replica rel es)).
      2:{ intros H. apply folder_removals_shape in H as [k' [_ H]].
          rewrite H in HM. injection HM as HM.
          rewrite <- app_assoc in HM. apply app_inv_head in HM.
          apply app_inv_head in HM. discriminate. }
      rewrite Forall_forall in IH, Hall.
      pose proof (find_entry_In _ _ Ef) as Hin.
      pose proof (IH _ Hin (rel ++ [k]) (k1 :: q) x) as IHc. cbn [snd] in IHc.
      rewrite <- !app_assoc in IHc. cbn [app] in IHc.
      rewrite IHc;
        [lia | apply (Hall _ Hin) | | discriminate | exact Hres | exact Hk].
      cbn [plain_path forallb] in *. exact Hq.
Qed.

(* ===================================================================== *)
(** ** A whole pass *)
(* ===================================================================== *)

Lemma in_source_closed s0 : closed_down (in_source s0).
Proof.
  intros p p'. unfold in_source. destruct s0 as [s |]; [| discriminate].
  unfold exists_at. rewrite resolve_app.
  now destruct (resolve s p).
Qed.

Lemma in_source_resolve s0 q x :
  resolve_in s0 q = Some x -> in_source s0 q = true.
Proof.
  unfold resolve_in, in_source, exists_at. destruct s0; [| discriminate].
  now intros ->.
Qed.

Lemma wf_graft n p v :
  wf_node n = true -> wf_node v = true -> plain_path p = true ->
  wf_node (graft n p v) = true.
Proof.
  intros Hn Hv Hp. destruct p as [| c p]; [exact Hv |].
  unfold graft.
  destruct (put n (c :: p) (Some v)) as [n' |] eqn:E; [| exact Hn].
  destruct (@exists_last _ (c :: p)) as [p0 [c0 Ep]]; [discriminate |].
  rewrite Ep in E, Hp. rewrite plain_path_app in Hp.
  apply andb_prop in Hp as [_ Hc]. cbn in Hc. rewrite andb_true_r in Hc.
  exact (@wf_put p0 n n' c0 v Hn Hv Hc E).
Qed.

Lemma separate_nonempty p q : separate p q = true -> p <> [] /\ q <> [].
Proof.
  unfold separate. intros H. apply andb_prop in H as [H1 H2].
  split; intros ->; [destruct q | destruct p]; discriminate.
Qed.

Lemma times_forward M ms :
  forward_msg M = false -> forallb forward_msg ms = true -> times M ms = 0.
Proof.
  intros HM Hms. apply times_none. intros Hin.
  rewrite forallb_forall in Hms. specialize (Hms _ Hin). congruence.
Qed.

Lemma forward_msg_removal x p : forward_msg (removal_of x p) = false.
Proof. unfold removal_of. now destruct (is_dir x). Qed.

Lemma removal_of_kind x y p : is_dir x = is_dir y -> removal_of x p = removal_of y p.
Proof. unfold removal_of. now intros ->. Qed.

Section Pass.
Variables source replica log_path : path.
Hypothesis plain_source : plain_path source = true.
Hypothesis plain_replica : plain_path replica = true.
Hypothesis apart : separate source replica = true.

(** The bottom-up walk of the replica, when the tree at source is [s0]
  and stays so. *)
Lemma reverse_walk_source s0 r :
reverse_walk_spec (in_source s0) (fun n => resolve n source = s0)
  source replica log_path r.
Proof.
apply reverse_walk.
- exact plain_replica.
- intros n rel x HJ Hrel Hx. rewrite relpath_app. unfold exists_at.
  destruct rel as [| k rel].
  + rewrite <- app_assoc. cbn [app]. unfold name in *.
    rewrite (resolve_dot_mid n source x []), resolve_app, HJ.
    unfold in_source, exists_at. now destruct s0.
  + rewrite <- app_assoc, resolve_app, HJ.
    unfold in_source, exists_at. now destruct s0.
- intros n x n' HJ Hput. rewrite <- HJ.
  eapply put_separate; [| | | exact Hput]; try assumption.
  now rewrite separate_sym.
Qed.

(** With enough fuel the reverse pass returns, and leaves the pruned
  tree. *)
Lemma reverse_pass_enough s0 fuel w r :
source_is source s0 w -> wf_node r = true ->
resolve (fs w) replica = Some r -> need r <= fuel ->
reverse_pass fuel source replica log_path w =
(Val tt, rewritten log_path replica (prune (in_source s0) [] r)
           (prune_log (in_source s0) replica [] r) w).
Proof.
intros Hs Hwf Hr Hfuel.
pose proof (@reverse_walk_source s0 r [] fuel w Hwf eq_refl Hfuel) as H.
rewrite app_nil_r in H. exact (proj1 (H Hr Hs)).
Qed.

(** A reverse pass that returned has done so. *)
Lemma reverse_pass_val s0 fuel w w' r :
source_is source s0 w -> wf_node r = true ->
resolve (fs w) replica = Some r ->
reverse_pass fuel source replica log_path w = (Val tt, w') ->
w' = rewritten log_path replica (prune (in_source s0) [] r)
       (prune_log (in_source s0) replica [] r) w.
Proof.
intros Hs Hwf Hr Hrun.
pose proof (@reverse_pass_enough s0 (Nat.max fuel (need r)) w r Hs Hwf Hr
              (Nat.le_max_r _ _)) as H.
unfold reverse_pass in *.
assert (Hv : @Val unit tt <> OutOfFuel) by discriminate.
pose proof (@walk_fuel_mono _ false fuel (Nat.max fuel (need r)) replica w
              (Val tt) w' (Nat.le_max_l _ _) Hrun Hv) as H'.
congruence.
Qed.

(** The shape of a pass that returned: the replica was ensured and the
  forward walk went through, which only added to the tree, and the
  reverse walk then pruned the replica. *)
Lemma sync_shape fuel w w' :
wf_node (fs w) = true ->
synchronize_folders fuel source replica log_path w = (Val tt, w') ->
exists w2 r,
  grown log_path w w2 /\
  forward_inv source replica (resolve (fs w) source) w2 /\
  resolve (fs w2) replica = Some r /\
  (forall s, resolve (fs w) source = Some s -> is_dir s = true ->
             forward_done source replica [] s w2) /\
  w' = rewritten log_path replica
         (prune (in_source (resolve (fs w) source)) [] r)
         (prune_log (in_source (resolve (fs w) source)) replica [] r) w2.
Proof.
intros Hwf Hrun. set (s0 := resolve (fs w) source).
unfold synchronize_folders in Hrun.
apply bind_inv in Hrun as [[] [w1 [He Hrun]]].
apply bind_inv in Hrun as [[] [w2 [Hf Hr]]].
assert (Hi1 : forward_inv source replica s0 w1).
{ apply ensure_replica_inv with (w := w) (log_path := log_path);
    try assumption; reflexivity. }
assert (Hg1 : grown log_path w w1).
{ pose proof (@grown_ensure_replica log_path replica w plain_replica) as H.
  now rewrite He in H. }
unfold forward_pass in Hf.
assert (Hf' : os.walk fuel true (source ++ [])
                (forward_body source replica log_path) w1 = (Val tt, w2))
  by now rewrite app_nil_r.
assert (Hi2 : forward_inv source replica s0 w2).
{ pose proof (@forward_walk_inv source replica log_path s0 plain_source
                plain_replica apart fuel [] w1 eq_refl Hi1) as H.
  now rewrite Hf' in H. }
assert (Hg2 : grown log_path w w2).
{ pose proof (@forward_walk_grown source replica log_path s0 plain_source
                plain_replica apart w fuel [] w1 eq_refl Hi1 Hg1) as H.
  now rewrite Hf' in H. }
destruct Hi2 as [Hwf2 [Hs2 Hex2]].
unfold exists_at in Hex2.
destruct (resolve (fs w2) replica) as [r |] eqn:Er; [| discriminate].
exists w2, r.
split; [exact Hg2 |].
split; [split; [exact Hwf2 | split; [exact Hs2 |]] |].
{ unfold exists_at. now rewrite Er. }
split; [exact Er |].
split.
- intros s Hs Hd.
  assert (Hs' : resolve_in s0 [] = Some s) by (fold s0 in Hs; now rewrite Hs).
  apply (@forward_walk_done source replica log_path s0 plain_source
           plain_replica apart s Hd fuel [] w1 w2 eq_refl Hi1 Hs' Hf').
- eapply reverse_pass_val; try eassumption.
  eapply wf_resolve; eassumption.
Qed.

End Pass.

(* ===================================================================== *)
(** ** The world after a pass *)
(* ===================================================================== *)

Lemma emit_rebase log_path ms n0 n w0 w :
  w = emit log_path ms (set_fs n0 w0) ->
  set_fs n w = emit log_path ms (set_fs n w0).
Proof. now intros ->. Qed.

Lemma grown_kind log_path w w' p x :
  grown log_path w w' -> plain_path p = true ->
  resolve (fs w) p = Some x ->
  exists x', resolve (fs w') p = Some x' /\ is_dir x' = is_dir x.
Proof.
  intros [_ [Hd [Hf _]]] Hp Hx. destruct x as [d m | es].
  - specialize (Hf p Hp). unfold file_at in Hf. rewrite Hx in Hf.
    specialize (Hf eq_refl).
    destruct (resolve (fs w') p) as [[d' m' | es'] |]; try discriminate.
    now exists (File d' m').
  - specialize (Hd p Hp). unfold dir_at in Hd. rewrite Hx in Hd.
    specialize (Hd eq_refl).
    destruct (resolve (fs w') p) as [[d' m' | es'] |]; try discriminate.
    now exists (Dir es').
Qed.

Section Pass.
Variables source replica log_path : path.
Hypothesis plain_source : plain_path source = true.
Hypothesis plain_replica : plain_path replica = true.
Hypothesis apart : separate source replica = true.

(** What holds after a pass that returned: the lines [ms] were logged
  and nothing else changed beside the tree; the tree at source is what
  it was; the replica holds a tree that the reverse pass would leave as
  it is; the forward pass is done; what the replica holds, source holds;
  what the replica held and source did not was reported once. *)
Lemma sync_after fuel w w' :
wf_node (fs w) = true ->
synchronize_folders fuel source replica log_path w = (Val tt, w') ->
exists ms r',
  w' = emit log_path ms (set_fs (fs w') w) /\
  wf_node (fs w') = true /\
  resolve (fs w') source = resolve (fs w) source /\
  resolve (fs w') replica = Some r' /\
  prune (in_source (resolve (fs w) source)) [] r' = r' /\
  prune_log (in_source (resolve (fs w) source)) replica [] r' = [] /\
  (forall s, resolve (fs w) source = Some s -> is_dir s = true ->
             forward_done source replica [] s w') /\
  (forall q, plain_path q = true -> q <> [] ->
             exists_at (fs w') (replica ++ q) = true ->
             in_source (resolve (fs w) source) q = true) /\
  (forall q x, plain_path q = true -> q <> [] ->
               resolve (fs w) (replica ++ q) = Some x ->
               in_source (resolve (fs w) source) q = false ->
               times (removal_of x (replica ++ q)) ms = 1).
Proof.
intros Hwf Hrun.
pose proof (@synchronize_folders_keeps_source source replica plain_source
              plain_replica apart (resolve (fs w) source) log_path fuel w
              eq_refl) as Hsrc.
rewrite Hrun in Hsrc. cbn [snd] in Hsrc. unfold source_is in Hsrc.
destruct (@sync_shape source replica log_path plain_source plain_replica
            apart fuel w w' Hwf Hrun)
  as [w2 [r [Hg [Hi2 [Er [Hdone Ew']]]]]].
set (s0 := resolve (fs w) source) in *.
set (ks := in_source s0) in *.
destruct Hi2 as [Hwf2 [Hs2 Hex2]].
assert (Hwfr : wf_node r = true) by (eapply wf_resolve; eassumption).
assert (Hfs : fs w' = graft (fs w2) replica (prune ks [] r)).
{ rewrite Ew'. apply fs_rewritten. }
assert (Hne : resolve (fs w2) replica <> None) by congruence.
assert (Hr' : resolve (fs w') replica = Some (prune ks [] r)).
{ rewrite Hfs. now apply resolve_graft. }
assert (Hbelow : forall q, resolve (fs w') (replica ++ q)
                           = resolve (prune ks [] r) q).
{ intros q. now rewrite resolve_app, Hr'. }
assert (Hbelow2 : forall q, resolve (fs w2) (replica ++ q) = resolve r q).
{ intros q. now rewrite resolve_app, Er. }
destruct Hg as [Hg1 [Hg2 [Hg3 [ms1 [Ew2 Hfm]]]]].
exists (ms1 ++ prune_log ks replica [] r), (prune ks [] r).
split.
{ rewrite Hfs. rewrite Ew' at 1. unfold rewritten.
  rewrite (@emit_rebase log_path ms1 (fs w2) _ w w2 Ew2).
  now rewrite emit_emit. }
split.
{ rewrite Hfs. apply wf_graft; try assumption. now apply wf_prune. }
split; [exact Hsrc |].
split; [exact Hr' |].
split; [apply prune_twice |].
split; [apply prune_log_pruned |].
split.
{ intros s Hs Hd. destruct (Hdone s Hs Hd) as [Hfiles Hdirs]. split.
  - intros q d m Hq Hres.
    destruct (Hfiles q d m Hq Hres) as [d' [m' [H1 H2]]].
    exists d', m'. split; [| exact H2].
    cbn [app] in *. rewrite Hbelow. rewrite Hbelow2 in H1.
    rewrite (@resolve_prune_kept ks q [] r (File d' m')
               (in_source_closed s0) Hq); [reflexivity | | exact H1].
    intros _. cbn [app]. apply in_source_resolve with (x := File d m).
    unfold resolve_in. fold s0 in Hs. now rewrite Hs.
  - intros q es Hq Hres. specialize (Hdirs q es Hq Hres).
    cbn [app] in *. rewrite exists_at_dest in *.
    destruct q as [| k q].
    + unfold dir_at in *. rewrite Hr'. rewrite Er in Hdirs.
      destruct r; [discriminate | now rewrite prune_dir].
    + unfold exists_at in *. rewrite Hbelow. rewrite Hbelow2 in Hdirs.
      destruct (resolve r (k :: q)) as [x |] eqn:Ex; [| discriminate].
      rewrite (@resolve_prune_kept ks (k :: q) [] r x
                 (in_source_closed s0) Hq); [reflexivity | | exact Ex].
      intros _. cbn [app]. apply in_source_resolve with (x := Dir es).
      unfold resolve_in. fold s0 in Hs. now rewrite Hs. }
split.
{ intros q Hq Hqne Hex. unfold exists_at in Hex. rewrite Hbelow in Hex.
  destruct (resolve (prune ks [] r) q) as [y |] eqn:Ey; [| discriminate].
  destruct (@resolve_prune_some ks q [] r y Hq Ey) as [x [_ [_ H]]].
  exact (H Hqne). }
intros q x Hq Hqne Hx Hks.
assert (Hpq : plain_path (replica ++ q) = true).
{ rewrite plain_path_app. now rewrite plain_replica, Hq. }
assert (Hgw : grown log_path w w2).
{ split; [exact Hg1 |]. split; [exact Hg2 |]. split; [exact Hg3 |].
  now exists ms1. }
destruct (@grown_kind log_path w w2 (replica ++ q) x Hgw Hpq Hx)
  as [x2 [Hx2 Hk2]].
rewrite Hbelow2 in Hx2.
rewrite times_app.
rewrite (@times_forward _ ms1 (forward_msg_removal x _) Hfm).
rewrite (@removal_of_kind x x2 _ (eq_sym Hk2)).
exact (@prune_log_count ks replica r [] q x2 Hwfr Hq Hqne Hx2 Hks).
Qed.

End Pass.

(* ===================================================================== *)
(** ** Steps that do nothing *)
(* ===================================================================== *)

Lemma ensure_replica_noop replica log_path w :
  exists_at (fs w) replica = true ->
  ensure_replica replica log_path w = (Val tt, w).
Proof.
  intros H. unfold ensure_replica.
  rewrite (@bind_val _ _ _ _ _ _ _ (path_exists_eq replica w)).
  now rewrite H.
Qed.

Lemma walk_no_directory fuel topdown top body w :
  1 <= fuel -> dir_at (fs w) top = false ->
  os.walk fuel topdown top body w = (Val tt, w).
Proof.
  intros Hf Hd. destruct fuel as [| k]; [lia |].
  cbn [os.walk]. now rewrite (scandir_none _ _ Hd).
Qed.

Lemma need_at_pos n p : 1 <= need_at n p.
Proof.
  unfold need_at. destruct (resolve n p); [apply need_pos | lia].
Qed.

Lemma in_source_below s0 source n q :
  resolve n source = s0 ->
  exists_at n (source ++ q) = in_source s0 q.
Proof.
  intros <-. unfold exists_at, in_source. rewrite resolve_app.
  now destruct (resolve n source).
Qed.

(* ===================================================================== *)
(** ** Fuel *)
(* ===================================================================== *)

(** Only the walks use fuel: the calls and the steps of the program
    never stop for want of it. *)
Lemma total_ret A (a : A) : total (ret a).
Proof. intros w. discriminate. Qed.

Lemma total_bind A B (m : M A) (f : A -> M B) :
  total m -> (forall a, total (f a)) -> total (bind m f).
Proof.
  intros Hm Hf w. unfold bind. specialize (Hm w).
  destruct (m w) as [[a | e |] w1]; cbn in *; [apply Hf | discriminate | congruence].
Qed.

Lemma total_when c (m : M unit) : total m -> total (when c m).
Proof. intros H. destruct c; [exact H | apply total_ret]. Qed.

Lemma total_for_each A (xs : list A) (body : A -> M unit) :
  (forall x, In x xs -> total (body x)) -> total (for_each xs body).
Proof.
  induction xs as [| x xs IH]; intros H; cbn [for_each].
  - apply total_ret.
  - apply total_bind; [apply H; now left |].
    intros _. apply IH. intros y Hy. apply H. now right.
Qed.

Lemma total_path_exists p : total (os.path_exists p).
Proof. intros w. discriminate. Qed.

Lemma total_path_isdir p : total (os.path_isdir p).
Proof. intros w. discriminate. Qed.

Lemma total_log_message log_path m : total (log_message log_path m).
Proof. intros w. discriminate. Qed.

Lemma total_mkdir p : total (os.mkdir p).
Proof.
  intros w. unfold os.mkdir.
  destruct (resolve (fs w) p); [discriminate |].
  destruct (put (fs w) p (Some (Dir []))); discriminate.
Qed.

Lemma total_ignore_exists (m : M unit) : total m -> total (os.ignore_exists m).
Proof.
  intros H w. unfold os.ignore_exists. specialize (H w).
  destruct (m w) as [[[] | [] |] w1]; cbn in *; congruence.
Qed.

Lemma total_makedirs_rev rname : total (os.makedirs_rev rname).
Proof.
  induction rname as [| tail rhead IH]; cbn [os.makedirs_rev].
  - apply total_mkdir.
  - apply total_bind; [apply total_path_exists |].
    intros e. destruct (negb e); [| apply total_mkdir].
    apply total_bind; [now apply total_ignore_exists |].
    intros _. destruct (is_dot tail); [apply total_ret | apply total_mkdir].
Qed.

Lemma total_makedirs p : total (os.makedirs p).
Proof. apply total_makedirs_rev. Qed.

Lemma total_remove p : total (os.remove p).
Proof.
  intros w. unfold os.remove.
  destruct (resolve (fs w) p) as [[? ? | ?] |]; try discriminate.
  destruct (put (fs w) p None); discriminate.
Qed.

Lemma total_rmtree p : total (shutil.rmtree p).
Proof.
  intros w. unfold shutil.rmtree.
  destruct (resolve (fs w) p) as [[? ? | ?] |]; try discriminate.
  destruct (put (fs w) p None); discriminate.
Qed.

Lemma total_copyfile src dst : total (shutil.copyfile src dst).
Proof.
  intros w. unfold shutil.copyfile.
  destruct (shutil.samefile (fs w) src dst); [discriminate |].
  destruct (resolve (fs w) src) as [[bytes ? | ?] |]; try discriminate.
  destruct (resolve (fs w) dst) as [[? ? | ?] |]; try discriminate;
    destruct (put (fs w) dst (Some (File bytes (clock w)))); discriminate.
Qed.

Lemma total_copystat src dst : total (shutil.copystat src dst).
Proof.
  intros w. unfold shutil.copystat.
  destruct (resolve (fs w) src) as [[? mt | ?] |]; try discriminate.
  destruct (resolve (fs w) dst) as [[bytes ? | ?] |]; try discriminate.
  destruct (put (fs w) dst (Some (File bytes mt))); discriminate.
Qed.

Lemma total_copy2 src dst : total (shutil.copy2 src dst).
Proof.
  unfold shutil.copy2. apply total_bind; [apply total_path_isdir |].
  intros d. apply total_bind; [apply total_copyfile |].
  intros _. apply total_copystat.
Qed.

Lemma total_calculate_hash p : total (calculate_hash p).
Proof.
  unfold calculate_hash. apply total_bind; [| intros f; apply total_ret].
  intros w. unfold open_rb.
  destruct (resolve (fs w) p) as [[? ? | ?] |]; discriminate.
Qed.

Lemma total_ensure_replica replica log_path :
  total (ensure_replica replica log_path).
Proof.
  unfold ensure_replica. apply total_bind; [apply total_path_exists |].
  intros e. apply total_when. apply total_bind; [apply total_makedirs |].
  intros _. apply total_log_message.
Qed.

Lemma total_mirror_folder source replica log_path root :
  total (mirror_folder source replica log_path root).
Proof.
  unfold mirror_folder. apply total_bind; [apply total_path_exists |].
  intros e. apply total_bind; [| intros _; apply total_ret].
  apply total_when. apply total_bind; [apply total_makedirs |].
  intros _. apply total_log_message.
Qed.

Lemma total_mirror_file log_path root destination_path file :
  total (mirror_file log_path root destination_path file).
Proof.
  unfold mirror_file. apply total_bind; [apply total_path_exists |].
  intros e. apply total_bind.
  - destruct (negb e); [apply total_ret |].
    apply total_bind; [apply total_calculate_hash |].
    intros h1. apply total_bind; [apply total_calculate_hash |].
    intros h2. apply total_ret.
  - intros differs. apply total_when.
    apply total_bind; [apply total_copy2 |].
    intros _. apply total_log_message.
Qed.

Lemma total_forward_body source replica log_path root dirs files :
  total (forward_body source replica log_path root dirs files).
Proof.
  unfold forward_body. apply total_bind; [apply total_mirror_folder |].
  intros dp. apply total_for_each. intros f _. apply total_mirror_file.
Qed.

(** A loop whose body keeps an invariant, and under it does not stop for
    want of fuel, does not either. *)
Lemma for_each_enough A (xs : list A) (body : A -> M unit) (I : world -> Prop) :
  (forall x w, In x xs -> I w -> I (snd (body x w))) ->
  (forall x w, In x xs -> I w -> fst (body x w) <> OutOfFuel) ->
  forall w, I w -> fst (for_each xs body w) <> OutOfFuel.
Proof.
  induction xs as [| x xs IH]; intros HI Hb w Hw; cbn [for_each].
  - discriminate.
  - unfold bind.
    pose proof (HI x w (or_introl eq_refl) Hw) as H1.
    pose proof (Hb x w (or_introl eq_refl) Hw) as H2.
    destruct (body x w) as [[[] | e |] w1]; cbn in *;
      [| discriminate | congruence].
    apply IH; [| | exact H1].
    + intros y w2 Hy. apply HI. now right.
    + intros y w2 Hy. apply Hb. now right.
Qed.

Section Fuel.
Variables source replica log_path : path.
Variable s0 : option node.
Hypothesis plain_source : plain_path source = true.
Hypothesis plain_replica : plain_path replica = true.
Hypothesis apart : separate source replica = true.

(** The forward walk from a directory of source, with the fuel that the
  directory needs, does not stop for want of it. *)
Lemma forward_walk_enough s :
is_dir s = true ->
forall fuel rel w,
  plain_path rel = true -> need s <= fuel ->
  forward_inv source replica s0 w ->
  resolve_in s0 rel = Some s ->
  fst (os.walk fuel true (source ++ rel)
         (forward_body source replica log_path) w) <> OutOfFuel.
Proof.
induction s as [d0 m0 | es IH] using node_ind; [discriminate |].
intros _ fuel rel w Hrel Hfuel Hi Hs.
destruct fuel as [| fuel]; [cbn [need] in Hfuel; lia |].
cbn [os.walk].
assert (Hr : resolve (fs w) (source ++ rel) = Some (Dir es)).
{ rewrite (@resolve_source source s0 w rel (proj1 (proj2 Hi))). exact Hs. }
rewrite (@scandir_dir _ _ _ Hr).
assert (Hwf : wf_entries es).
{ apply wf_dir. eapply wf_resolve; [apply Hi | exact Hr]. }
set (dirs := map fst (filter (fun e => is_dir (snd e)) es)).
set (files := map fst (filter (fun e => is_file (snd e)) es)).
assert (Hfiles : Forall (fun k => plain_name k = true) files).
{ apply Forall_forall. intros k Hk.
  now destruct (@listed_file _ _ Hwf Hk) as [c [_ [_ H]]]. }
unfold bind.
pose proof (@total_forward_body source replica log_path (source ++ rel)
              dirs files w) as Hb.
assert (Hi1 : forward_inv source replica s0
                (snd (forward_body source replica log_path (source ++ rel)
                        dirs files w))).
{ unfold forward_body. apply inv_bind_val.
  - now apply mirror_folder_inv.
  - intros dp w1 Hdp Hw1.
    apply (@mirror_folder_val source replica log_path) in Hdp.
    fold (dest source replica rel) in Hdp. subst dp.
    now apply files_keep_inv. }
destruct (forward_body source replica log_path (source ++ rel) dirs files w)
  as [[[] | e |] w1]; cbn [fst snd] in *; [| discriminate | congruence].
apply (@for_each_enough _ dirs _ (forward_inv source replica s0));
  [| | exact Hi1].
- intros k w2 Hk Hi2.
  destruct (@listed_dir _ _ Hwf Hk) as [c [_ [_ [Hplain _]]]].
  rewrite <- app_assoc. apply forward_walk_inv; try assumption.
  apply plain_snoc; assumption.
- intros k w2 Hk Hi2.
  destruct (@listed_dir _ _ Hwf Hk) as [c [Hfind [Hdir [Hplain _]]]].
  rewrite Forall_forall in IH.
  pose proof (IH _ (find_entry_In _ _ Hfind)) as IHc. cbn [snd] in IHc.
  rewrite <- app_assoc. apply IHc; try assumption.
  + apply plain_snoc; assumption.
  + eapply need_dir_child; [exact Hfuel | exact (find_entry_In _ _ Hfind) |].
    exact Hdir.
  + rewrite (@resolve_in_app s0 rel [k] _ Hs).
    rewrite resolve_dir_plain by now apply plain_not_dot.
    now rewrite Hfind.
Qed.

End Fuel.

(** More fuel does not change a pass that did not stop for want of it. *)
Lemma sync_fuel_mono source replica log_path fuel fuel' w r w' :
  fuel <= fuel' ->
  synchronize_folders fuel source replica log_path w = (r, w') ->
  r <> OutOfFuel ->
  synchronize_folders fuel' source replica log_path w = (r, w').
Proof.
  intros Hle Hrun Hr. unfold synchronize_folders, bind in *.
  destruct (ensure_replica replica log_path w) as [[[] | e |] w1];
    try exact Hrun.
  unfold forward_pass, reverse_pass in *.
  destruct (os.walk fuel true source (forward_body source replica log_path) w1)
    as [[[] | e |] w2] eqn:Ef.
  - rewrite (@walk_fuel_mono _ true fuel fuel' source w1 (Val tt) w2 Hle Ef)
      by discriminate.
    exact (@walk_fuel_mono _ false fuel fuel' replica w2 r w' Hle Hrun Hr).
  - rewrite (@walk_fuel_mono _ true fuel fuel' source w1 (Exn e) w2 Hle Ef)
      by discriminate.
    exact Hrun.
  - injection Hrun as <- _. congruence.
Qed.

(** Fuel is only a bound on the depth of the trees: on every well-formed
    world there is an amount of it from which on the pass ends by itself,
    with a value or with an exception. *)
Theorem sync_enough_fuel source replica log_path w :
  plain_path source = true -> plain_path replica = true ->
  separate source replica = true ->
  wf_node (fs w) = true ->
  exists fuel0, forall fuel,
    fuel0 <= fuel ->
    fst (synchronize_folders fuel source replica log_path w) <> OutOfFuel.
Proof.
  intros Hps Hpr Hsep Hwf.
  set (s0 := resolve (fs w) source).
  unfold synchronize_folders.
  pose proof (@total_ensure_replica replica log_path w) as Ht.
  destruct (ensure_replica replica log_path w) as [[[] | e |] w1] eqn:Ee;
    cbn [fst] in Ht; [| | congruence].
  2:{ exists 0. intros fuel _. unfold bind. rewrite Ee. discriminate. }
  assert (Hi1 : forward_inv source replica s0 w1).
  { apply ensure_replica_inv with (w := w) (log_path := log_path);
      try assumption; reflexivity. }
  set (fF := need_at (fs w1) source).
  assert (Hnot : fst (forward_pass fF source replica log_path w1) <> OutOfFuel).
  { unfold forward_pass, fF, need_at.
    destruct Hi1 as [Hwf1 [Hs1 Hex1]]. unfold source_is in Hs1.
    destruct (resolve (fs w1) source) as [[d m | es] |] eqn:Es.
    - rewrite walk_no_directory; [discriminate | apply need_pos |].
      unfold dir_at. now rewrite Es.
    - rewrite <- (app_nil_r source) at 1.
      apply (@forward_walk_enough source replica log_path s0 Hps Hpr Hsep
               (Dir es) eq_refl (need (Dir es)) [] w1 eq_refl (le_n _)).
      + split; [exact Hwf1 |]. split; [| exact Hex1].
        unfold source_is. congruence.
      + unfold resolve_in. now rewrite <- Hs1.
    - rewrite walk_no_directory; [discriminate | lia |].
      unfold dir_at. now rewrite Es. }
  destruct (forward_pass fF source replica log_path w1) as [[[] | e |] w2] eqn:Ef;
    cbn [fst] in Hnot; [| | congruence].
  2:{ exists fF. intros fuel Hle. unfold bind. rewrite Ee.
      unfold forward_pass in *.
      rewrite (@walk_fuel_mono _ true fF fuel source w1 (Exn e) w2 Hle Ef)
        by discriminate.
      discriminate. }
  assert (Hi2 : forward_inv source replica s0 w2).
  { unfold forward_pass in Ef.
    pose proof (@forward_walk_inv source replica log_path s0 Hps Hpr Hsep
                  fF [] w1 eq_refl Hi1) as H.
    rewrite app_nil_r, Ef in H. exact H. }
  destruct Hi2 as [Hwf2 [Hs2 Hex2]]. unfold exists_at in Hex2.
  destruct (resolve (fs w2) replica) as [r2 |] eqn:Er; [| discriminate].
  exists (Nat.max fF (need r2)). intros fuel Hle. unfold bind. rewrite Ee.
  unfold forward_pass in *.
  rewrite (@walk_fuel_mono _ true fF fuel source w1 (Val tt) w2) ;
    [| lia | exact Ef | discriminate].
  rewrite (@reverse_pass_enough source replica log_path Hps Hpr Hsep s0 fuel
             w2 r2 Hs2 (wf_resolve _ _ Hwf2 Er) Er); [discriminate | lia].
Qed.

(* ===================================================================== *)
(** ** The steps of the forward pass *)
(* ===================================================================== *)





Section Steps.
Variables source replica log_path : path.
Hypothesis plain_source : plain_path source = true.
Hypothesis plain_replica : plain_path replica = true.
Hypothesis apart : separate source replica = true.



End Steps.

(* ===================================================================== *)
(** ** The properties of the specification *)
(* ===================================================================== *)




















(** C8 (missing source).  When source does not exist, [main] prints the
    error on the console and returns: the loop is not entered, no pass is
    started, the tree is as it was and nothing is written to the log. *)
Theorem C8_missing_source ticks fuel a w :
  exists_at (fs w) (arg_source a) = false ->
  main ticks fuel a w =
  (Val tt,
   World (fs w) (clock w)
         (console w ++ [Plain (ErrorSourceMissing (arg_source a))])
         (logged w) (passes w)).
Proof.
  intros H. unfold main.
  rewrite (@bind_val _ _ _ _ _ _ _ (path_exists_eq (arg_source a) w)).
  now rewrite H.
Qed.

Lemma C8_witness :
  main 3 5 (Args ["nowhere"] ["rep"] 60 ["log"]) demo_world =
  (Val tt,
   World (fs demo_world) (clock demo_world)
         (console demo_world ++ [Plain (ErrorSourceMissing ["nowhere"])])
         (logged demo_world) (passes demo_world)).
Proof.
  apply (@C8_missing_source 3 5 (Args ["nowhere"] ["rep"] 60 ["log"]) demo_world).
  reflexivity.
Defined.

(** C9 (determinism of the fingerprint).  Two files with the same bytes,
    at whatever paths, in whatever worlds and with whatever modification
    times, have the same fingerprint: it is the MD5 digest of the
    bytes. *)
Theorem C9_fingerprint_deterministic p1 p2 w1 w2 d m1 m2 :
  resolve (fs w1) p1 = Some (File d m1) ->
  resolve (fs w2) p2 = Some (File d m2) ->
  fst (calculate_hash p1 w1) = fst (calculate_hash p2 w2) /\
  fst (calculate_hash p1 w1) = Val (MD5.hexdigest d).
Proof.
  intros H1 H2.
  rewrite (@calculate_hash_file _ _ _ _ H1), (@calculate_hash_file _ _ _ _ H2).
  now split.
Qed.

Lemma C9_witness :
  fst (calculate_hash ["src"; "a.txt"] demo_world)
  = fst (calculate_hash ["rep"; "a.txt"] demo_after) /\
  fst (calculate_hash ["src"; "a.txt"] demo_world)
  = Val (MD5.hexdigest (list_byte_of_string "hello")).
Proof.
  apply (@C9_fingerprint_deterministic ["src"; "a.txt"] ["rep"; "a.txt"]
           demo_world demo_after (list_byte_of_string "hello") 10 10);
    vm_compute; reflexivity.
Defined.





(* ===================================================================== *)
(** ** Further properties of a pass *)
(* ===================================================================== *)

Lemma path_error_file p : forall n d m c q,
  resolve n p = Some (File d m) ->
  path_error n (p ++ c :: q) = NotADirectoryError.
Proof.
  induction p as [| k p IH]; intros n d m c q Hr.
  - cbn in Hr. injection Hr as ->. reflexivity.
  - destruct n as [d0 m0 | es]; [discriminate |].
    cbn [resolve] in Hr. cbn [app path_error].
    destruct (is_dot k); [exact (IH _ _ _ c q Hr) |].
    destruct (find_entry k es) as [x |]; [| discriminate].
    exact (IH _ _ _ c q Hr).
Qed.

(** [os.makedirs] of [p/.] where [p] is a regular file. *)
Lemma makedirs_dot_file p w :
  file_at (fs w) p = true ->
  os.makedirs (p ++ ["."]) w = (Exn NotADirectoryError, w).
Proof.
  intros Hf. unfold file_at in Hf.
  destruct (resolve (fs w) p) as [[d m | es] |] eqn:Er; try discriminate.
  assert (Hex : exists_at (fs w) p = true) by (unfold exists_at; now rewrite Er).
  unfold os.makedirs. rewrite rev_unit. cbn [os.makedirs_rev].
  unfold bind at 1. rewrite path_exists_eq, rev_involutive, Hex. cbn [negb].
  cbn [rev]. rewrite rev_involutive. unfold os.mkdir.
  rewrite resolve_dot_end, Er, put_trailing_dot.
  now rewrite (@path_error_file p (fs w) d m "." [] Er).
Qed.




(** X2 (replica is a regular file).  When the replica is a regular file
    and source a directory, the pass raises at its first step in the
    walk, the creation of [replica/.], and leaves the world as it was:
    nothing is written, nothing logged. *)
Theorem X2_replica_is_a_file source replica log_path fuel w :
  1 <= fuel ->
  dir_at (fs w) source = true ->
  file_at (fs w) replica = true ->
  synchronize_folders fuel source replica log_path w
  = (Exn NotADirectoryError, w).
Proof.
  intros Hfuel Hs Hr.
  assert (Hex : exists_at (fs w) replica = true).
  { rewrite exists_at_kinds, Hr. apply orb_true_r. }
  unfold synchronize_folders.
  rewrite (@bind_val _ _ _ _ _ _ _ (@ensure_replica_noop replica log_path w Hex)).
  apply bind_exn. unfold forward_pass.
  destruct fuel as [| fuel]; [lia |]. cbn [os.walk].
  unfold dir_at in Hs.
  destruct (resolve (fs w) source) as [[? ? | es] |] eqn:Es; try discriminate.
  rewrite (@scandir_dir _ _ _ Es).
  apply bind_exn. unfold forward_body. apply bind_exn.
  unfold mirror_folder.
  assert (Hrel : os.relpath source source = ["."]).
  { pose proof (relpath_app source []) as H. now rewrite app_nil_r in H. }
  rewrite Hrel.
  rewrite (@bind_val _ _ _ _ _ _ _ (path_exists_eq (replica ++ ["."]) w)).
  assert (Hno : exists_at (fs w) (replica ++ ["."]) = false).
  { unfold exists_at, file_at in *. rewrite resolve_dot_end.
    now destruct (resolve (fs w) replica) as [[? ? | ?] |]. }
  rewrite Hno. cbn [negb when].
  apply bind_exn. apply bind_exn. now apply makedirs_dot_file.
Qed.

Lemma X2_witness :
  synchronize_folders 3 ["rep"] ["src"] ["log"] file_source_world
  = (Exn NotADirectoryError, file_source_world).
Proof.
  apply (@X2_replica_is_a_file ["rep"] ["src"] ["log"] 3 file_source_world);
    [lia | reflexivity | reflexivity].
Defined.

(** X3 (a directory where source has a file).  When the replica has a
    directory at the relative path of a file of source, no pass returns:
    with fuel for the trees it ends with an exception. *)
Theorem X3_directory_in_the_way source replica log_path w q :
  plain_path source = true -> plain_path replica = true ->
  separate source replica = true ->
  wf_node (fs w) = true ->
  plain_path q = true -> q <> [] ->
  file_at (fs w) (source ++ q) = true ->
  dir_at (fs w) (replica ++ q) = true ->
  (forall fuel w',
      synchronize_folders fuel source replica log_path w <> (Val tt, w')) /\
  (exists fuel0, forall fuel,
      fuel0 <= fuel ->
      exists e w',
        synchronize_folders fuel source replica log_path w = (Exn e, w')).
Proof.
  intros Hps Hpr Hsep Hwf Hq Hne Hfile Hdir.
  assert (Hnot : forall fuel w',
             synchronize_folders fuel source replica log_path w <> (Val tt, w')).
  { intros fuel w' Hrun.
    destruct (@sync_shape source replica log_path Hps Hpr Hsep fuel w w' Hwf Hrun)
      as [w2 [r [Hg [_ [_ [Hdone _]]]]]].
    unfold file_at in Hfile. rewrite resolve_app in Hfile.
    destruct (resolve (fs w) source) as [s |] eqn:Es; [| discriminate].
    destruct s as [ds ms | es].
    { destruct q; [congruence | discriminate]. }
    destruct (resolve (Dir es) q) as [[d m | ?] |] eqn:Eq; try discriminate.
    destruct (Hdone (Dir es) eq_refl eq_refl) as [Hfiles _].
    destruct (Hfiles q d m Hq Eq) as [d' [m' [H1 _]]]. cbn [app] in H1.
    assert (Hpq : plain_path (replica ++ q) = true).
    { rewrite plain_path_app. now rewrite Hpr, Hq. }
    destruct Hg as [_ [Hd _]]. specialize (Hd _ Hpq Hdir).
    unfold dir_at in Hd. now rewrite H1 in Hd. }
  split; [exact Hnot |].
  destruct (@sync_enough_fuel source replica log_path w Hps Hpr Hsep Hwf)
    as [fuel0 H0].
  exists fuel0. intros fuel Hle. specialize (H0 fuel Hle).
  specialize (Hnot fuel).
  destruct (synchronize_folders fuel source replica log_path w)
    as [[[] | e |] w'] eqn:E; cbn [fst] in H0.
  - exfalso. now apply (Hnot w').
  - now exists e, w'.
  - congruence.
Qed.

Lemma X3_witness :
  (forall fuel w',
      synchronize_folders fuel ["src"] ["rep"] ["log"] failing_world
      <> (Val tt, w')) /\
  (exists fuel0, forall fuel,
      fuel0 <= fuel ->
      exists e w',
        synchronize_folders fuel ["src"] ["rep"] ["log"] failing_world
        = (Exn e, w')).
Proof.
  apply (@X3_directory_in_the_way ["src"] ["rep"] ["log"] failing_world ["a"]);
    try reflexivity.
  discriminate.
Defined.

(** X4 (what source has is kept).  An entry of the replica that source
    has at the same relative path is still there after a pass that
    returned, and is of the kind it was: the reverse pass removes only
    what source lacks, and the forward pass turns no directory into a
    file and no file into a directory. *)
Theorem X4_kept_entries source replica log_path fuel w w' q x :
  plain_path source = true -> plain_path replica = true ->
  separate source replica = true ->
  wf_node (fs w) = true ->
  plain_path q = true ->
  exists_at (fs w) (source ++ q) = true ->
  resolve (fs w) (replica ++ q) = Some x ->
  synchronize_folders fuel source replica log_path w = (Val tt, w') ->
  exists x', resolve (fs w') (replica ++ q) = Some x' /\ is_dir x' = is_dir x.
Proof.
  intros Hps Hpr Hsep Hwf Hq Hsrc Hx Hrun.
  destruct (@sync_shape source replica log_path Hps Hpr Hsep fuel w w' Hwf Hrun)
    as [w2 [r [Hg [_ [Er [_ Ew']]]]]].
  assert (Hpq : plain_path (replica ++ q) = true).
  { rewrite plain_path_app. now rewrite Hpr, Hq. }
  destruct (@grown_kind log_path w w2 (replica ++ q) x Hg Hpq Hx)
    as [x2 [Hx2 Hk2]].
  rewrite resolve_app, Er in Hx2.
  rewrite (@in_source_below (resolve (fs w) source) source (fs w) q eq_refl)
    in Hsrc.
  exists (prune (in_source (resolve (fs w) source)) ([] ++ q) x2). split.
  - rewrite Ew', fs_rewritten, resolve_app.
    rewrite resolve_graft by (assumption || congruence).
    apply resolve_prune_kept; try assumption.
    + apply in_source_closed.
    + intros _. exact Hsrc.
  - now rewrite is_dir_prune.
Qed.

Lemma X4_witness :
  exists x',
    resolve (fs stale_after) (["rep"] ++ ["a.txt"]) = Some x' /\
    is_dir x' = is_dir (File (list_byte_of_string "hullo") 7).
Proof.
  apply (@X4_kept_entries ["src"] ["rep"] ["log"] 5 stale_world stale_after
           ["a.txt"] (File (list_byte_of_string "hullo") 7));
    vm_compute; reflexivity.
Defined.

(** X5 (directories are mirrored).  After a pass that returned the
    replica is a directory, and every directory of source, also an empty
    one, has an entry at the same relative path of the replica. *)
Theorem X5_directories_mirrored source replica log_path fuel w w' :
  plain_path source = true -> plain_path replica = true ->
  separate source replica = true ->
  wf_node (fs w) = true -> dir_at (fs w) source = true ->
  synchronize_folders fuel source replica log_path w = (Val tt, w') ->
  dir_at (fs w') replica = true /\
  (forall q, plain_path q = true ->
             dir_at (fs w') (source ++ q) = true ->
             exists_at (fs w') (replica ++ q) = true).
Proof.
  intros Hps Hpr Hsep Hwf Hdir Hrun.
  destruct (@sync_after source replica log_path Hps Hpr Hsep fuel w w' Hwf Hrun)
    as [ms [r' [_ [_ [Hsrc [Hr' [_ [_ [Hdone _]]]]]]]]].
  unfold dir_at in Hdir.
  destruct (resolve (fs w) source) as [[ds ms0 | es] |] eqn:Es; try discriminate.
  destruct (Hdone (Dir es) eq_refl eq_refl) as [_ Hdirs].
  assert (Hroot : dir_at (fs w') replica = true).
  { pose proof (Hdirs [] es eq_refl eq_refl) as H.
    now rewrite exists_at_dest in H. }
  split; [exact Hroot |].
  intros q Hq Hd. unfold dir_at in Hd. rewrite resolve_app, Hsrc in Hd.
  destruct (resolve (Dir es) q) as [[? ? | es'] |] eqn:Eq; try discriminate.
  pose proof (Hdirs q es' Hq Eq) as H. cbn [app] in H.
  rewrite exists_at_dest in H. destruct q as [| k q]; [| exact H].
  rewrite app_nil_r, exists_at_kinds, Hroot. reflexivity.
Qed.

Lemma X5_witness :
  dir_at (fs demo_after) ["rep"] = true /\
  (forall q, plain_path q = true ->
             dir_at (fs demo_after) (["src"] ++ q) = true ->
             exists_at (fs demo_after) (["rep"] ++ q) = true).
Proof.
  apply (@X5_directories_mirrored ["src"] ["rep"] ["log"] 5 demo_world demo_after);
    vm_compute; reflexivity.
Defined.

(* ===================================================================== *)
(** ** What a pass leaves at one path of the replica *)
(* ===================================================================== *)










Section Mirror.
Variables source replica log_path : path.
Variable s0 : option node.
Hypothesis plain_source : plain_path source = true.
Hypothesis plain_replica : plain_path replica = true.
Hypothesis apart : separate source replica = true.

(** The file of source that the section follows. *)
Variable q : path.
Variable d : list byte.
Variable m : Z.
Hypothesis plain_q : plain_path q = true.
Hypothesis source_q : resolve_in s0 q = Some (File d m).















End Mirror.

(* ===================================================================== *)
(** ** Files that a pass leaves, files that a pass copies *)
(* ===================================================================== *)

Section Pass.
Variables source replica log_path : path.
Hypothesis plain_source : plain_path source = true.
Hypothesis plain_replica : plain_path replica = true.
Hypothesis apart : separate source replica = true.


End Pass.





(* ===================================================================== *)
(** ** What a pass prints and logs *)
(* ===================================================================== *)
























(* ===================================================================== *)
(** ** A replica that is not there *)
(* ===================================================================== *)







(* ===================================================================== *)
(** ** The loop of [main] *)
(* ===================================================================== *)







(* ===================================================================== *)
(** ** The lines that report a removal *)
(* ===================================================================== *)






(* ===================================================================== *)
(** ** The forward pass brings nothing into being beside source *)
(* ===================================================================== *)









Section NothingNew.
Variables source replica log_path : path.
Variable s0 : option node.
Hypothesis plain_source : plain_path source = true.
Hypothesis plain_replica : plain_path replica = true.
Hypothesis apart : separate source replica = true.

(** A relative path that source does not have. *)
Variable q : path.
Hypothesis plain_q : plain_path q = true.
Hypothesis some_q : q <> [].
Hypothesis absent_q : in_source s0 q = false.






End NothingNew.

Section Pass.
Variables source replica log_path : path.
Hypothesis plain_source : plain_path source = true.
Hypothesis plain_replica : plain_path replica = true.
Hypothesis apart : separate source replica = true.



End Pass.


